(** * HP lattice folding: Monte-Carlo and replica-exchange samplers

    A shallow embedding of [hp.py], [moves.py], [monte_carlo.py] and
    [remc.py].  Python integers are [Z], Python floats are the kernel's
    binary64 floats, the [dict] and [set] occupancy tables are stdpp's
    [gmap] and [gset], exceptions are an explicit [result] type, and the
    NumPy random generator is an interface whose state is threaded through
    every call that draws from it. *)

From Stdlib Require Import ZArith List String Ascii Lia Permutation.
From Stdlib Require Import Floats.
From stdpp Require Import gmap list strings.

Set Warnings "-inexact-float".
Open Scope Z_scope.

(* ===================================================================== *)
(** * Python plumbing: exceptions, indexing, ranges *)
(* ===================================================================== *)

Inductive exn : Set := IndexError | ValueError | ZeroDivisionError.

Inductive result (A : Type) : Type :=
| Ok (a : A)
| Raise (e : exn).
Arguments Ok {A} a.
Arguments Raise {A} e.

Definition rbind {A B} (m : result A) (k : A → result B) : result B :=
  match m with
  | Ok a => k a
  | Raise e => Raise e
  end.

#[global] Instance result_bind : MBind result := λ A B k m, rbind m k.
#[global] Instance result_ret : MRet result := @Ok.

(** [for x in l: s = f(s, x)] where the body may raise. *)
Fixpoint foldM {A S} (f : S → A → result S) (l : list A) (s : S) : result S :=
  match l with
  | [] => Ok s
  | x :: l' => s' ← f s x; foldM f l' s'
  end.

(** The position a Python subscript [l[i]] denotes: negative subscripts
    count from the end, anything outside [-len, len) is an [IndexError]. *)
Definition py_pos (len : nat) (i : Z) : option nat :=
  let n := Z.of_nat len in
  let k := if i <? 0 then i + n else i in
  if (0 <=? k) && (k <? n) then Some (Z.to_nat k) else None.

Definition py_index {A} (l : list A) (i : Z) : result A :=
  match py_pos (length l) i with
  | Some k => match l !! k with Some x => Ok x | None => Raise IndexError end
  | None => Raise IndexError
  end.

(** [l[i] = x] on a list. *)
Definition py_setitem {A} (l : list A) (i : Z) (x : A) : result (list A) :=
  match py_pos (length l) i with
  | Some k => Ok (<[k:=x]> l)
  | None => Raise IndexError
  end.

(** [s[i]] on a string, for a non-negative index. *)
Definition str_index (s : string) (i : nat) : result ascii :=
  match String.get i s with
  | Some c => Ok c
  | None => Raise IndexError
  end.

(** [range(a, b)] and [range(a, b, 2)]. *)
Definition py_range (a b : Z) : list Z :=
  map (λ k, a + Z.of_nat k) (seq 0 (Z.to_nat (b - a))).

Definition py_range2 (a b : Z) : list Z :=
  map (λ k, a + 2 * Z.of_nat k) (seq 0 (Z.to_nat ((b - a + 1) / 2))).

(** [enumerate(l)]. *)
Definition enumerate {A} (l : list A) : list (nat * A) := imap pair l.

(* ===================================================================== *)
(** * hp.py: lattice primitives and the energy evaluator *)
(* ===================================================================== *)

Abbreviation Coord := (Z * Z)%type.
Abbreviation Conf := (list Coord).

Definition manhattan (p q : Coord) : Z :=
  Z.abs (p.1 - q.1) + Z.abs (p.2 - q.2).

Definition neighbours4 (p : Coord) : list Coord :=
  let '(x, y) := p in [(x + 1, y); (x - 1, y); (x, y + 1); (x, y - 1)].

(** The loop [for i in range(len(coords) - 1)] of [is_self_avoiding]:
    every consecutive pair is looked at in order, the first pair that is
    not at distance 1 makes the answer [False]. *)
Fixpoint chain_connected (coords : Conf) : bool :=
  match coords with
  | p :: (q :: _) as rest =>
      if negb (manhattan p q =? 1) then false else chain_connected rest
  | _ => true
  end.

Definition is_self_avoiding (coords : Conf) : bool :=
  if negb (size (list_to_set coords : gset Coord) =? length coords)%nat
  then false
  else chain_connected coords.

Definition initial_line (n : nat) : Conf :=
  map (λ i, (Z.of_nat i, 0)) (seq 0 n).

(** [occ = {coords[i]: i for i in range(len(coords))}]: a later index
    overwrites an earlier one on the same cell. *)
Definition occupancy (coords : Conf) : gmap Coord nat :=
  foldl (λ occ ip, <[ip.2 := ip.1]> occ) ∅ (enumerate coords).

Definition is_H (c : ascii) : bool := Ascii.eqb c "H"%char.

(** The body of [for nb in neighbours4(p)] for residue [i]. *)
Definition energy_nb (occ : gmap Coord nat) (hp_seq : string) (i : nat)
    (E : Z) (nb : Coord) : result Z :=
  match occ !! nb with
  | None => Ok E
  | Some j =>
      cj ← str_index hp_seq j;
      if negb (is_H cj) then Ok E
      else if Z.abs (Z.of_nat i - Z.of_nat j) =? 1 then Ok E
      else if (i <? j)%nat then Ok (E - 1)
      else Ok E
  end.

(** The body of [for i, p in enumerate(coords)]. *)
Definition energy_residue (occ : gmap Coord nat) (hp_seq : string)
    (E : Z) (ip : nat * Coord) : result Z :=
  ci ← str_index hp_seq ip.1;
  if negb (is_H ci) then Ok E
  else foldM (energy_nb occ hp_seq ip.1) (neighbours4 ip.2) E.

Definition energy_hp (coords : Conf) (hp_seq : string) : result Z :=
  let occ := occupancy coords in
  foldM (energy_residue occ hp_seq) (enumerate coords) 0.

(** ** The data model of the specification *)

(** Connectivity: consecutive residues are at Manhattan distance 1. *)
Definition connectivity (C : Conf) : Prop :=
  ∀ i p q, C !! i = Some p → C !! S i = Some q → manhattan p q = 1.

(** Self-avoidance: the coordinates are pairwise distinct. *)
Definition self_avoidance (C : Conf) : Prop := NoDup C.

(** Translation of a whole conformation by a fixed vector. *)
Definition shift_by (d p : Coord) : Coord := (p.1 + d.1, p.2 + d.2).

Definition translate (d : Coord) (C : Conf) : Conf := map (shift_by d) C.

(** The contact set the specification defines the energy with: index pairs
    [(i, j)] with [i < j], [j > i + 1], both residues hydrophobic and the
    two cells at Manhattan distance 1. *)
Definition seq_is_H (S : string) (i : nat) : bool :=
  match String.get i S with
  | Some c => is_H c
  | None => false
  end.

Definition hh_contact (C : Conf) (S : string) (ij : nat * nat) : bool :=
  (ij.1 <? ij.2)%nat && (ij.1 + 1 <? ij.2)%nat
  && seq_is_H S ij.1 && seq_is_H S ij.2
  && match C !! ij.1, C !! ij.2 with
     | Some p, Some q => manhattan p q =? 1
     | _, _ => false
     end.

Definition hh_contacts (C : Conf) (S : string) : list (nat * nat) :=
  filter (λ ij, hh_contact C S ij)
    (list_prod (seq 0 (length C)) (seq 0 (length C))).

(* ===================================================================== *)
(** * The NumPy interface *)
(* ===================================================================== *)

(** [np.random.Generator], as far as the program uses it: [random()] draws
    a float from the half-open interval [0, 1), [shuffle] and [permutation]
    rearrange a sequence.  [gen_seed seed] is the initial state that
    [default_rng(seed)] builds from a seed it accepts.  The bit generator
    behind it is not part of the program; the laws are the ones NumPy
    documents. *)
Class Generator : Type := {
  gen_state : Type;
  gen_seed : option Z → gen_state;
  gen_random : gen_state → float * gen_state;
  gen_shuffle : ∀ {A : Type}, list A → gen_state → list A * gen_state;
  gen_permutation : ∀ {A : Type}, list A → gen_state → list A * gen_state;
  gen_random_ge_0 : ∀ g, PrimFloat.leb 0 (gen_random g).1 = true;
  gen_random_lt_1 : ∀ g, PrimFloat.ltb (gen_random g).1 1 = true;
  gen_shuffle_perm : ∀ A (l : list A) g, (gen_shuffle l g).1 ≡ₚ l;
  gen_permutation_perm : ∀ A (l : list A) g, (gen_permutation l g).1 ≡ₚ l;
}.

(** The numeric functions taken from NumPy and the Python runtime:
    [np.exp], [float(int)] and [np.linspace(start, stop, num)]. *)
Class Numeric : Type := {
  np_exp : float → float;
  py_float : Z → float;
  np_linspace : float → float → nat → list float;
  np_linspace_length : ∀ a b n, length (np_linspace a b n) = n;
}.

(** The seeds [np.random.default_rng] accepts: [None] or a non-negative
    integer. *)
Definition seed_accepted (seed : option Z) : bool :=
  match seed with
  | Some z => 0 <=? z
  | None => true
  end.

(** [np.random.default_rng(seed)]: a [ValueError] on a negative seed. *)
Definition default_rng `{Generator} (seed : option Z) : result gen_state :=
  if seed_accepted seed then Ok (gen_seed seed) else Raise ValueError.

(** Computations that draw from the generator and may raise. *)
Definition Rand `{Generator} (A : Type) : Type :=
  gen_state → result (A * gen_state).

Definition rand_bind `{Generator} {A B} (m : Rand A) (k : A → Rand B) : Rand B :=
  λ g, match m g with
       | Ok (a, g') => k a g'
       | Raise e => Raise e
       end.

Definition rand_ret `{Generator} {A} (a : A) : Rand A := λ g, Ok (a, g).

Definition lift `{Generator} {A} (r : result A) : Rand A :=
  λ g, match r with Ok a => Ok (a, g) | Raise e => Raise e end.

Notation "x <~ m ; k" := (rand_bind m (λ x, k))
  (at level 20, m at level 100, k at level 200, only parsing) : stdpp_scope.

Definition rng_random `{Generator} : Rand float := λ g, Ok (gen_random g).
Definition rng_shuffle `{Generator} {A} (l : list A) : Rand (list A) :=
  λ g, Ok (gen_shuffle l g).
Definition rng_permutation `{Generator} {A} (l : list A) : Rand (list A) :=
  λ g, Ok (gen_permutation l g).

(** [for x in xs: r = body(x); if r is not None: return r] and, after the
    loop, no proposal. *)
Fixpoint first_some {X R} (body : X → result (option R)) (xs : list X)
    : result (option R) :=
  match xs with
  | [] => Ok None
  | x :: xs' =>
      r ← body x;
      match r with
      | Some v => Ok (Some v)
      | None => first_some body xs'
      end
  end.

Fixpoint first_some_rand `{Generator} {X R} (body : X → Rand (option R))
    (xs : list X) : Rand (option R) :=
  match xs with
  | [] => rand_ret None
  | x :: xs' =>
      r <~ body x;
      match r with
      | Some v => rand_ret (Some v)
      | None => first_some_rand body xs'
      end
  end.

(* ===================================================================== *)
(** * moves.py: the VSHD and Pull move engine *)
(* ===================================================================== *)

Inductive vshd_kind : Set := KEnd | KCorner | KCrankshaft.

(** ** End move *)

(** The two list comprehensions that build [candidates]: the free lattice
    neighbours of the anchor, without the current cell of the end. *)
Definition end_candidates (occ : gset Coord) (anchor cur : Coord) : list Coord :=
  filter (λ p, p ≠ cur) (filter (λ p, p ∉ occ ∨ p = cur) (neighbours4 anchor)).

(** [for cand in candidates: newc[end_idx] = cand; ...]: the same copy
    [newc] is overwritten at [end_idx] by each candidate in turn. *)
Fixpoint end_place (newc : Conf) (end_idx : Z) (cands : list Coord)
    : result (option Conf) :=
  match cands with
  | [] => Ok None
  | cand :: rest =>
      newc' ← py_setitem newc end_idx cand;
      if is_self_avoiding newc' then Ok (Some newc')
      else end_place newc' end_idx rest
  end.

(** ** Corner move *)

Definition corner_candidates (occ : gset Coord) (im1 ip1 cur : Coord)
    : list Coord :=
  let v1 : gset Coord := list_to_set (neighbours4 im1) in
  let v2 : gset Coord := list_to_set (neighbours4 ip1) in
  let candidates := elements (v1 ∩ v2) in
  let candidates := filter (λ c, c ∉ occ ∨ c = cur) candidates in
  filter (λ c, c ≠ im1 ∧ c ≠ ip1 ∧ c ≠ cur) candidates.

(** [for cand in candidates: newc = coords.copy(); newc[i] = cand; ...] *)
Fixpoint corner_place (coords : Conf) (i : Z) (cands : list Coord)
    : result (option Conf) :=
  match cands with
  | [] => Ok None
  | cand :: rest =>
      newc ← py_setitem coords i cand;
      if is_self_avoiding newc then Ok (Some newc)
      else corner_place coords i rest
  end.

(** ** Crankshaft move *)

(** The two target cells of the 180-degree flip, [None] for the diagonal
    separations the code skips. [//] is floor division, as [Z.div]. *)
Definition crankshaft_targets (p0 p1 p3 : Coord) : option (Coord * Coord) :=
  let dx := p3.1 - p0.1 in
  let dy := p3.2 - p0.2 in
  if (Z.abs dx =? 2) && (Z.abs dy =? 0) then
    let midx := (p0.1 + p3.1) / 2 in
    let y := p1.2 in
    let dy_flip := if p1.2 =? p0.2 then 1 else -1 in
    Some ((midx, y + dy_flip),
          ((if 0 <? dx then midx + 1 else midx - 1), y + dy_flip))
  else if (Z.abs dx =? 0) && (Z.abs dy =? 2) then
    let midy := (p0.2 + p3.2) / 2 in
    let x := p1.1 in
    let dx_flip := if p1.1 =? p0.1 then 1 else -1 in
    Some ((x + dx_flip, midy),
          (x + dx_flip, (if 0 <? dy then midy + 1 else midy - 1)))
  else None.

(** The body of [for k in order] in the crankshaft branch; [Ok None] is
    [continue] (or falling off the end of the body). *)
Definition crankshaft_at (coords : Conf) (k : Z) : result (option Conf) :=
  p0 ← py_index coords k;
  p1 ← py_index coords (k + 1);
  p2 ← py_index coords (k + 2);
  p3 ← py_index coords (k + 3);
  if negb ((manhattan p0 p1 =? manhattan p1 p2)
           && (manhattan p1 p2 =? manhattan p2 p3)
           && (manhattan p2 p3 =? 1)) then Ok None
  else if negb (manhattan p0 p3 =? 2) then Ok None
  else
    match crankshaft_targets p0 p1 p3 with
    | None => Ok None
    | Some (cand1, cand2) =>
        let targets := [cand1; cand2] in
        let newc := coords in
        let occ : gset Coord := list_to_set coords in
        if forallb (λ t, bool_decide (t ∉ occ) || bool_decide (t = p1 ∨ t = p2))
             targets
        then
          newc ← py_setitem newc (k + 1) cand1;
          newc ← py_setitem newc (k + 2) cand2;
          if is_self_avoiding newc then Ok (Some newc) else Ok None
        else Ok None
    end.

(** ** Pull move *)

(** The [while j >= 0] loop of the propagation, with [m = j + 1] the number
    of iterations left.  The result carries the flag [valid] and [newc]. *)
Fixpoint pull_propagate (old : Conf) (m : nat) (newc : Conf) (occ : gset Coord)
    : result (bool * Conf) :=
  match m with
  | O => Ok (true, newc)
  | S m' =>
      let j := Z.of_nat m' in
      target ← py_index old (j + 2);
      cur ← py_index newc j;
      if bool_decide (target ∈ occ) && bool_decide (target ≠ cur)
      then Ok (false, newc)
      else
        let occ := occ ∖ {[cur]} in
        newc ← py_setitem newc j target;
        let occ := occ ∪ {[target]} in
        _ ← (if 0 <=? j - 1
             then a ← py_index newc (j - 1); b ← py_index newc j;
                  Ok (manhattan a b =? 1)
             else Ok false);
        pull_propagate old m' newc occ
  end.

(** The body of [for sx, sy in shifts]; [Ok None] is [continue]. *)
Definition pull_shift (coords : Conf) (occ0 : gset Coord) (i : Z)
    (pi pip1 : Coord) (s : Z * Z) : result (option Conf) :=
  let '(sx, sy) := s in
  let L : Coord := (pip1.1 + sx, pip1.2 + sy) in
  let C : Coord := (pi.1 + sx, pi.2 + sy) in
  if bool_decide (L ∈ occ0) && bool_decide (L ≠ pi) then Ok None
  else
    corner ← (if 0 <=? i - 1
              then q ← py_index coords (i - 1); Ok (bool_decide (C = q))
              else Ok false);
    if corner : bool then
      newc ← py_setitem coords i L;
      if is_self_avoiding newc then Ok (Some newc) else Ok None
    else if bool_decide (C ∈ occ0) then Ok None
    else
      let newc := coords in
      let old := coords in
      let occ : gset Coord := list_to_set coords in
      newc ← py_setitem newc i L;
      let occ := (occ ∪ {[L]}) ∖ {[pi]} in
      '(newc, occ) ← (if 0 <=? i - 1
                      then newc' ← py_setitem newc (i - 1) C;
                           q ← py_index coords (i - 1);
                           Ok (newc', (occ ∪ {[C]}) ∖ {[q]})
                      else Ok (newc, occ));
      stop ← (if 0 <=? i - 2
              then a ← py_index newc (i - 2); b ← py_index newc (i - 1);
                   Ok (manhattan a b =? 1)
              else Ok false);
      if stop : bool then
        if is_self_avoiding newc then Ok (Some newc) else Ok None
      else
        '(valid, newc) ← pull_propagate old (Z.to_nat (i - 2 + 1)) newc occ;
        if (valid : bool) && is_self_avoiding newc then Ok (Some newc)
        else Ok None.

Section Moves.
Context `{Generator}.

(** The body of [for end_idx in rng.permutation([0, n-1])].  The
    comprehension reads [coords[end_idx]] after [coords[nb_of]]; it is
    read here once, right after the anchor. *)
Definition end_move_at (coords : Conf) (occ : gset Coord) (end_idx : Z)
    : Rand (option Conf) :=
  let n := Z.of_nat (length coords) in
  let newc := coords in
  let nb_of := if end_idx =? 0 then 1 else n - 2 in
  anchor <~ lift (py_index coords nb_of);
  cur <~ lift (py_index coords end_idx);
  candidates <~ rng_shuffle (end_candidates occ anchor cur);
  lift (end_place newc end_idx candidates).

Definition end_move (coords : Conf) (occ : gset Coord) : Rand (option Conf) :=
  let n := Z.of_nat (length coords) in
  ends <~ rng_permutation [0; n - 1];
  first_some_rand (end_move_at coords occ) ends.

(** The body of [for i in order] in the corner branch. *)
Definition corner_move_at (coords : Conf) (occ : gset Coord) (i : Z)
    : Rand (option Conf) :=
  im1 <~ lift (py_index coords (i - 1));
  ip1 <~ lift (py_index coords (i + 1));
  cur <~ lift (py_index coords i);
  candidates <~ rng_shuffle (corner_candidates occ im1 ip1 cur);
  lift (corner_place coords i candidates).

Definition corner_move (coords : Conf) (occ : gset Coord) : Rand (option Conf) :=
  let n := Z.of_nat (length coords) in
  order <~ rng_shuffle (py_range 1 (n - 1));
  first_some_rand (corner_move_at coords occ) order.

Definition crankshaft_move (coords : Conf) : Rand (option Conf) :=
  let n := Z.of_nat (length coords) in
  order <~ rng_shuffle (py_range 0 (n - 3));
  lift (first_some (crankshaft_at coords) order).

(** The body of [for kind in kinds]. *)
Definition vshd_move (coords : Conf) (occ : gset Coord) (kind : vshd_kind)
    : Rand (option Conf) :=
  match kind with
  | KEnd => end_move coords occ
  | KCorner => corner_move coords occ
  | KCrankshaft => crankshaft_move coords
  end.

Definition _attempt_vshd (coords : Conf) : Rand (option Conf) :=
  let occ : gset Coord := list_to_set coords in
  kinds <~ rng_shuffle [KEnd; KCorner; KCrankshaft];
  first_some_rand (vshd_move coords occ) kinds.

(** The body of [for i in i_candidates]. *)
Definition pull_at (coords : Conf) (occ0 : gset Coord) (i : Z)
    : Rand (option Conf) :=
  pi <~ lift (py_index coords i);
  pip1 <~ lift (py_index coords (i + 1));
  let dx := pip1.1 - pi.1 in
  let dy := pip1.2 - pi.2 in
  if negb (Z.abs dx + Z.abs dy =? 1) then rand_ret None
  else
    shifts <~ rng_shuffle [(dy, - dx); (- dy, dx)];
    lift (first_some (pull_shift coords occ0 i pi pip1) shifts).

Definition _attempt_pull (coords : Conf) : Rand (option Conf) :=
  let n := Z.of_nat (length coords) in
  if n <? 3 then rand_ret None
  else
    let occ0 : gset Coord := list_to_set coords in
    i_candidates <~ rng_shuffle (py_range 1 (n - 1));
    first_some_rand (pull_at coords occ0) i_candidates.

Definition known_mode (mode : string) : bool :=
  String.eqb mode "vshd" || String.eqb mode "pull" || String.eqb mode "hybrid".

(** [MovesEngine.attempt_move]; [rho] is [self.config.rho]. *)
Definition attempt_move (rho : float) (coords : Conf) (mode : string)
    : Rand (option Conf) :=
  if negb (known_mode mode) then lift (Raise ValueError)
  else if String.eqb mode "vshd" then _attempt_vshd coords
  else if String.eqb mode "pull" then _attempt_pull coords
  else
    u <~ rng_random;
    if PrimFloat.ltb u rho then
      res <~ _attempt_pull coords;
      match res with
      | Some r => rand_ret (Some r)
      | None => _attempt_vshd coords
      end
    else
      res <~ _attempt_vshd coords;
      match res with
      | Some r => rand_ret (Some r)
      | None => _attempt_pull coords
      end.
End Moves.

(* ===================================================================== *)
(** * monte_carlo.py and remc.py: the two drivers *)
(* ===================================================================== *)

(** [for x in xs: st = body(st, x)] for a body that draws and may raise. *)
Fixpoint for_rand `{Generator} {X S} (body : S → X → Rand S) (xs : list X)
    (st : S) : Rand S :=
  match xs with
  | [] => rand_ret st
  | x :: xs' => st' <~ body st x; for_rand body xs' st'
  end.

(** Python's [max(a, b)] on floats: [b] only when [b > a]. *)
Definition py_max (a b : float) : float :=
  if PrimFloat.ltb a b then b else a.

(** The dictionary both drivers return. *)
Record run_result : Type := {
  final_coords : Conf;
  best_coords : Conf;
  energies : list Z;
  best_energies : list Z;
  best_energy : Z;
}.

(** The local variables of [run_mc] that the step loop updates. *)
Record mc_state : Type := {
  mc_coords : Conf;
  mc_E : Z;
  mc_best_coords : Conf;
  mc_best_E : Z;
  mc_energies : list Z;
  mc_best_energies : list Z;
}.

(** The local variables of [run_remc] that the step loop updates; the
    temperature ladder [temps] is carried along although no statement of
    the loop assigns to it. *)
Record remc_state : Type := {
  replicas_coords : list Conf;
  replicas_E : list Z;
  temps : list float;
  rs_best_E : Z;
  rs_best_coords : Conf;
  rs_energies : list Z;
  rs_best_energies : list Z;
  rs_even : bool;
}.

Section Drivers.
Context `{Generator} `{Numeric}.

(** [metropolis_accept], defined identically in both driver modules. *)
Definition metropolis_accept (delta_E : Z) (T : float) : Rand bool :=
  if delta_E <=? 0 then rand_ret true
  else
    u <~ rng_random;
    rand_ret (PrimFloat.ltb u
                (np_exp (PrimFloat.div (PrimFloat.opp (py_float delta_E))
                                       (py_max T 1e-12%float)))).

(** ** run_mc *)

(** [energies.append(E); best_energies.append(best_E)] *)
Definition mc_trace (st : mc_state) : mc_state :=
  {| mc_coords := mc_coords st; mc_E := mc_E st;
     mc_best_coords := mc_best_coords st; mc_best_E := mc_best_E st;
     mc_energies := mc_energies st ++ [mc_E st];
     mc_best_energies := mc_best_energies st ++ [mc_best_E st] |}.

(** The assignments made when a proposal is accepted. *)
Definition mc_accept (st : mc_state) (proposal : Conf) (E_new : Z) : mc_state :=
  let coords := proposal in
  let E := E_new in
  if E <? mc_best_E st then
    {| mc_coords := coords; mc_E := E;
       mc_best_coords := coords; mc_best_E := E;
       mc_energies := mc_energies st;
       mc_best_energies := mc_best_energies st |}
  else
    {| mc_coords := coords; mc_E := E;
       mc_best_coords := mc_best_coords st; mc_best_E := mc_best_E st;
       mc_energies := mc_energies st;
       mc_best_energies := mc_best_energies st |}.

(** The body of [for t in range(steps)]. *)
Definition mc_step (hp_seq : string) (temperature : float)
    (move_mode : string) (rho : float) (st : mc_state) (t : Z)
    : Rand mc_state :=
  proposal <~ attempt_move rho (mc_coords st) move_mode;
  match proposal with
  | None => rand_ret (mc_trace st)
  | Some proposal =>
      E_new <~ lift (energy_hp proposal hp_seq);
      acc <~ metropolis_accept (E_new - mc_E st) temperature;
      if acc : bool then rand_ret (mc_trace (mc_accept st proposal E_new))
      else rand_ret (mc_trace st)
  end.

Definition run_mc (hp_seq : string) (steps : Z) (temperature : float)
    (move_mode : string) (rho : float) (seed : option Z)
    : result run_result :=
  let steps := Z.min steps 10000 in
  rng ← default_rng seed;
  let n := String.length hp_seq in
  let coords := initial_line n in
  E ← energy_hp coords hp_seq;
  let st0 := {| mc_coords := coords; mc_E := E;
                mc_best_coords := coords; mc_best_E := E;
                mc_energies := []; mc_best_energies := [] |} in
  '(st, _) ← for_rand (mc_step hp_seq temperature move_mode rho)
               (py_range 0 steps) st0 rng;
  Ok {| final_coords := mc_coords st;
        best_coords := mc_best_coords st;
        energies := mc_energies st;
        best_energies := mc_best_energies st;
        best_energy := mc_best_E st |}.

(** ** run_remc *)

(** The body of [for r in range(n_replicas)]: one move attempt of
    replica [r]. *)
Definition replica_move (hp_seq : string) (move_mode : string) (rho : float)
    (st : remc_state) (r : Z) : Rand remc_state :=
  cr <~ lift (py_index (replicas_coords st) r);
  prop <~ attempt_move rho cr move_mode;
  match prop with
  | None => rand_ret st
  | Some prop =>
      E_new <~ lift (energy_hp prop hp_seq);
      Er <~ lift (py_index (replicas_E st) r);
      Tr <~ lift (py_index (temps st) r);
      acc <~ metropolis_accept (E_new - Er) Tr;
      if acc : bool then
        rc <~ lift (py_setitem (replicas_coords st) r prop);
        rE <~ lift (py_setitem (replicas_E st) r E_new);
        let better := E_new <? rs_best_E st in
        rand_ret {| replicas_coords := rc; replicas_E := rE;
                    temps := temps st;
                    rs_best_E := if better then E_new else rs_best_E st;
                    rs_best_coords :=
                      if better then prop else rs_best_coords st;
                    rs_energies := rs_energies st;
                    rs_best_energies := rs_best_energies st;
                    rs_even := rs_even st |}
      else rand_ret st
  end.

(** [energies.append(replicas_E[0]); best_energies.append(best_E)] *)
Definition remc_trace (st : remc_state) : result remc_state :=
  E0 ← py_index (replicas_E st) 0;
  Ok {| replicas_coords := replicas_coords st; replicas_E := replicas_E st;
        temps := temps st;
        rs_best_E := rs_best_E st; rs_best_coords := rs_best_coords st;
        rs_energies := rs_energies st ++ [E0];
        rs_best_energies := rs_best_energies st ++ [rs_best_E st];
        rs_even := rs_even st |}.

(** [delta = (1.0 / Tj - 1.0 / Ti) * (Ei - Ej)] *)
Definition exchange_delta (Ti Tj : float) (Ei Ej : Z) : float :=
  PrimFloat.mul (PrimFloat.sub (PrimFloat.div 1 Tj) (PrimFloat.div 1 Ti))
                (py_float (Ei - Ej)).

(** [acc = 1.0 if delta >= 0 else np.exp(delta)] *)
Definition exchange_acc (delta : float) : float :=
  if PrimFloat.leb 0 delta then 1%float else np_exp delta.

(** The two tuple assignments that swap the states of replicas [i], [j]. *)
Definition swap_replicas (st : remc_state) (i j : Z) : result remc_state :=
  cj ← py_index (replicas_coords st) j;
  ci ← py_index (replicas_coords st) i;
  rc ← py_setitem (replicas_coords st) i cj;
  rc ← py_setitem rc j ci;
  Ej ← py_index (replicas_E st) j;
  Ei ← py_index (replicas_E st) i;
  rE ← py_setitem (replicas_E st) i Ej;
  rE ← py_setitem rE j Ei;
  Ok {| replicas_coords := rc; replicas_E := rE; temps := temps st;
        rs_best_E := rs_best_E st; rs_best_coords := rs_best_coords st;
        rs_energies := rs_energies st;
        rs_best_energies := rs_best_energies st;
        rs_even := rs_even st |}.

(** The body of [for i in range(start, n_replicas - 1, 2)]. *)
Definition exchange_pair (st : remc_state) (i : Z) : Rand remc_state :=
  let j := i + 1 in
  Ei <~ lift (py_index (replicas_E st) i);
  Ej <~ lift (py_index (replicas_E st) j);
  Ti <~ lift (py_index (temps st) i);
  Tj <~ lift (py_index (temps st) j);
  let delta := exchange_delta Ti Tj Ei Ej in
  let acc := exchange_acc delta in
  u <~ rng_random;
  if PrimFloat.ltb u acc then lift (swap_replicas st i j)
  else rand_ret st.

Definition flip_even (st : remc_state) : remc_state :=
  {| replicas_coords := replicas_coords st; replicas_E := replicas_E st;
     temps := temps st;
     rs_best_E := rs_best_E st; rs_best_coords := rs_best_coords st;
     rs_energies := rs_energies st;
     rs_best_energies := rs_best_energies st;
     rs_even := negb (rs_even st) |}.

(** The exchange sweep run when [step % exchange_every == 0]. *)
Definition exchange_sweep (n_replicas : Z) (st : remc_state)
    : Rand remc_state :=
  let start := if rs_even st then 0 else 1 in
  st' <~ for_rand exchange_pair (py_range2 start (n_replicas - 1)) st;
  rand_ret (flip_even st').

(** The body of [for step in range(1, steps + 1)]. *)
Definition remc_step (hp_seq : string) (n_replicas exchange_every : Z)
    (move_mode : string) (rho : float) (st : remc_state) (step : Z)
    : Rand remc_state :=
  st <~ for_rand (replica_move hp_seq move_mode rho)
          (py_range 0 n_replicas) st;
  st <~ lift (remc_trace st);
  if exchange_every =? 0 then lift (Raise ZeroDivisionError)
  else if step mod exchange_every =? 0 then exchange_sweep n_replicas st
  else rand_ret st.

Definition run_remc (hp_seq : string) (steps n_replicas : Z)
    (tmin tmax : float) (exchange_every : Z) (move_mode : string)
    (rho : float) (seed : option Z) : result run_result :=
  let steps := Z.min steps 10000 in
  let n_replicas := Z.max 2 n_replicas in
  rng ← default_rng seed;
  let temps := np_linspace tmin tmax (Z.to_nat n_replicas) in
  let n := String.length hp_seq in
  let init_coords := initial_line n in
  init_E ← energy_hp init_coords hp_seq;
  let st0 := {| replicas_coords := replicate (Z.to_nat n_replicas) init_coords;
                replicas_E := replicate (Z.to_nat n_replicas) init_E;
                temps := temps;
                rs_best_E := init_E; rs_best_coords := init_coords;
                rs_energies := []; rs_best_energies := [];
                rs_even := true |} in
  '(st, _) ← for_rand
               (remc_step hp_seq n_replicas exchange_every move_mode rho)
               (py_range 1 (steps + 1)) st0 rng;
  final_coords ← py_index (replicas_coords st) 0;
  final_E ← py_index (replicas_E st) 0;
  let final_coords :=
    if rs_best_E st <? final_E then rs_best_coords st else final_coords in
  Ok {| final_coords := final_coords;
        best_coords := rs_best_coords st;
        energies := rs_energies st;
        best_energies := rs_best_energies st;
        best_energy := rs_best_E st |}.
End Drivers.

(** [min(l)] of a Python list: a [ValueError] on the empty list. *)
Definition py_min (l : list Z) : result Z :=
  match l with
  | [] => Raise ValueError
  | x :: l' => Ok (foldl Z.min x l')
  end.

(** A trace is monotonically non-increasing. *)
Definition non_increasing (l : list Z) : Prop :=
  ∀ i a b, l !! i = Some a → l !! S i = Some b → b <= a.

(* ===================================================================== *)
(** * Vocabulary of the proofs *)
(* ===================================================================== *)

(** ** The energy evaluator, without its control flow *)

(** Whether the neighbour cell [nb] of residue [i] is counted. *)
Definition nb_hit (occ : gmap Coord nat) (S : string) (i : nat) (nb : Coord)
    : bool :=
  match occ !! nb with
  | Some j =>
      seq_is_H S j && negb (Z.abs (Z.of_nat i - Z.of_nat j) =? 1) && (i <? j)%nat
  | None => false
  end.

(** The number of contacts residue [i] at cell [p] contributes. *)
Definition residue_hits (occ : gmap Coord nat) (S : string) (ip : nat * Coord)
    : nat :=
  if seq_is_H S ip.1
  then length (filter (λ nb, nb_hit occ S ip.1 nb) (neighbours4 ip.2))
  else 0%nat.

(** ** Computations that may raise and draw *)

(** [r] returns, and what it returns satisfies [P]. *)
Definition returns {A} (P : A → Prop) (r : result A) : Prop :=
  ∃ a, r = Ok a ∧ P a.

(** [m] returns from every generator state, with a value in [P]. *)
Definition draws `{Generator} {A} (P : A → Prop) (m : Rand A) : Prop :=
  ∀ g, ∃ a g', m g = Ok (a, g') ∧ P a.

(** Whenever [m] returns, the value is in [P]. *)
Definition yields `{Generator} {A} (P : A → Prop) (m : Rand A) : Prop :=
  ∀ g a g', m g = Ok (a, g') → P a.

(** What a move attempt on a chain of [n] residues may hand back: nothing,
    or a chain of [n] residues that [is_self_avoiding] accepts. *)
Definition proposal_ok (n : nat) (o : option Conf) : Prop :=
  ∀ c', o = Some c' → is_self_avoiding c' = true ∧ length c' = n.

(** ** Traces and loop invariants of the drivers *)

(** [best] is a lower bound of the non-increasing trace [l]. *)
Definition trace_lb (l : list Z) (best : Z) : Prop :=
  non_increasing l ∧ ∀ x, x ∈ l → best <= x.

(** ... and, once the trace has an entry, its last entry. *)
Definition trace_inv (l : list Z) (best : Z) : Prop :=
  trace_lb l best ∧ (l ≠ [] → last l = Some best).

(** What holds of the locals of [run_mc] between two statements of the
    step loop ... *)
Definition mc_pre (hp_seq : string) (st : mc_state) : Prop :=
  energy_hp (mc_best_coords st) hp_seq = Ok (mc_best_E st)
  ∧ length (mc_energies st) = length (mc_best_energies st)
  ∧ trace_lb (mc_best_energies st) (mc_best_E st).

(** ... and at the end of each iteration. *)
Definition mc_inv (hp_seq : string) (st : mc_state) : Prop :=
  energy_hp (mc_best_coords st) hp_seq = Ok (mc_best_E st)
  ∧ length (mc_energies st) = length (mc_best_energies st)
  ∧ trace_inv (mc_best_energies st) (mc_best_E st).

(** The shape of the replica arrays: [nrep] slots each, every replica a
    chain of [n] residues. *)
Definition remc_wf (n nrep : nat) (st : remc_state) : Prop :=
  length (replicas_coords st) = nrep
  ∧ length (replicas_E st) = nrep
  ∧ length (temps st) = nrep
  ∧ Forall (λ c, length c = n) (replicas_coords st).

Definition remc_pre (hp_seq : string) (st : remc_state) : Prop :=
  energy_hp (rs_best_coords st) hp_seq = Ok (rs_best_E st)
  ∧ length (rs_energies st) = length (rs_best_energies st)
  ∧ trace_lb (rs_best_energies st) (rs_best_E st).

Definition remc_inv (hp_seq : string) (st : remc_state) : Prop :=
  energy_hp (rs_best_coords st) hp_seq = Ok (rs_best_E st)
  ∧ length (rs_energies st) = length (rs_best_energies st)
  ∧ trace_inv (rs_best_energies st) (rs_best_E st).

(** [st'] differs from [st] in the replica arrays (and the parity flag)
    only: best record, traces and temperature ladder are those of [st]. *)
Definition same_record (st st' : remc_state) : Prop :=
  temps st' = temps st
  ∧ rs_best_E st' = rs_best_E st
  ∧ rs_best_coords st' = rs_best_coords st
  ∧ rs_energies st' = rs_energies st
  ∧ rs_best_energies st' = rs_best_energies st.

(** [st'] has the traces and the ladder of [st]. *)
Definition same_traces (st st' : remc_state) : Prop :=
  temps st' = temps st
  ∧ rs_energies st' = rs_energies st
  ∧ rs_best_energies st' = rs_best_energies st.

(** The number of iterations of [for t in range(steps)] once [steps] has
    been clipped by [steps = int(min(steps, 10_000))]. *)
Definition effective_steps (steps : Z) : nat :=
  length (py_range 0 (Z.min steps 10000)).

(** The facts about a returned result that the statements on the drivers
    are made of. *)
Definition best_record_ok (hp_seq : string) (steps : Z) (res : run_result)
    : Prop :=
  energy_hp (best_coords res) hp_seq = Ok (best_energy res)
  ∧ best_energy res <= 0
  ∧ (∀ x, x ∈ best_energies res → best_energy res <= x)
  ∧ (1 <= steps → py_min (best_energies res) = Ok (best_energy res)).

Definition traces_ok (steps : Z) (res : run_result) : Prop :=
  length (energies res) = length (best_energies res)
  ∧ length (energies res) = effective_steps steps
  ∧ Z.of_nat (effective_steps steps) <= 10000
  ∧ non_increasing (best_energies res).

(* ===================================================================== *)
(** * A concrete generator and concrete numerics *)
(* ===================================================================== *)

(** A counter-driven generator: [random()] walks through four values of
    [0, 1), [shuffle] keeps or reverses the sequence. *)
Definition counter_unit (s : nat) : float :=
  match (s mod 4)%nat with
  | 0%nat => 0.125%float
  | 1%nat => 0.625%float
  | 2%nat => 0.375%float
  | _ => 0.875%float
  end.

Definition counter_shuffle {A} (l : list A) (s : nat) : list A * nat :=
  (if Nat.even s then l else reverse l, S s).

Definition counter_seed (seed : option Z) : nat :=
  match seed with
  | Some z => Z.abs_nat z
  | None => 0%nat
  end.

Definition counter_gen : Generator :=
  {| gen_state := nat;
     gen_seed := counter_seed;
     gen_random := λ s, (counter_unit s, S s);
     gen_shuffle := @counter_shuffle;
     gen_permutation := @counter_shuffle;
     gen_random_ge_0 :=
       ltac:(intros s; cbn [fst]; unfold counter_unit;
             destruct (s mod 4)%nat as [|[|[|?]]]; reflexivity);
     gen_random_lt_1 :=
       ltac:(intros s; cbn [fst]; unfold counter_unit;
             destruct (s mod 4)%nat as [|[|[|?]]]; reflexivity);
     gen_shuffle_perm :=
       ltac:(intros A l s; unfold counter_shuffle; cbn [fst];
             destruct (Nat.even s);
             [reflexivity | apply reverse_Permutation]);
     gen_permutation_perm :=
       ltac:(intros A l s; unfold counter_shuffle; cbn [fst];
             destruct (Nat.even s);
             [reflexivity | apply reverse_Permutation]) |}.

(** [float(z)] for the integers of 63 bits, [exp] by its power series,
    [linspace] by the formula of the ladder. *)
Definition float_of_Z (z : Z) : float :=
  if z <? 0 then PrimFloat.opp (PrimFloat.of_uint63 (Uint63.of_Z (- z)))
  else PrimFloat.of_uint63 (Uint63.of_Z z).

Definition series_exp (x : float) : float :=
  let step (acc : float * float) (k : nat) :=
    let term := PrimFloat.div (PrimFloat.mul acc.2 x)
                              (float_of_Z (Z.of_nat k)) in
    (PrimFloat.add acc.1 term, term) in
  (foldl step (1%float, 1%float) (seq 1 30)).1.

Definition ladder (tmin tmax : float) (n : nat) : list float :=
  map (λ r, PrimFloat.add tmin
              (PrimFloat.mul (float_of_Z (Z.of_nat r))
                 (PrimFloat.div (PrimFloat.sub tmax tmin)
                                (float_of_Z (Z.of_nat n - 1)))))
      (seq 0 n).

Definition series_numeric : Numeric :=
  {| np_exp := series_exp;
     py_float := float_of_Z;
     np_linspace := ladder;
     np_linspace_length :=
       ltac:(intros a b n; unfold ladder;
             rewrite length_map; apply length_seq) |}.

(** Three replicas of a chain of four residues, before an odd sweep. *)
Definition ladder3_state : remc_state :=
  {| replicas_coords := [[(0,0); (1,0); (1,1); (0,1)];
                         [(0,0); (1,0); (2,0); (3,0)];
                         [(0,0); (1,0); (2,0); (2,1)]];
     replicas_E := [-1; 0; 0];
     temps := [0.5%float; 1%float; 1.5%float];
     rs_best_E := -1;
     rs_best_coords := [(0,0); (1,0); (1,1); (0,1)];
     rs_energies := [0; -1];
     rs_best_energies := [0; -1];
     rs_even := false |}.

(* ===================================================================== *)
(** * hp.py: the amino-acid input *)
(* ===================================================================== *)

(** Python [str] values are modelled by strings of 7-bit characters: on
    those [str.strip], [str.upper] and [str.replace] act as below.
    (Outside ASCII [upper] may change the length of a string, which the
    8-bit characters used here cannot express.) *)
Definition ascii_only (s : string) : Prop :=
  Forall (λ c, (nat_of_ascii c < 128)%nat) (list_ascii_of_string s).

(** [ch.isspace()]: tab, line feed, vertical tab, form feed, carriage
    return, the four separators 0x1c-0x1f and the space. *)
Definition py_isspace (c : ascii) : bool :=
  let n := nat_of_ascii c in
  ((9 <=? n) && (n <=? 13) || (28 <=? n) && (n <=? 32))%nat.

Fixpoint py_lstrip (l : list ascii) : list ascii :=
  match l with
  | c :: l' => if py_isspace c then py_lstrip l' else l
  | [] => []
  end.

(** [s.strip()] *)
Definition py_strip (l : list ascii) : list ascii :=
  reverse (py_lstrip (reverse (py_lstrip l))).

Definition py_upper_char (c : ascii) : ascii :=
  let n := nat_of_ascii c in
  if ((97 <=? n) && (n <=? 122))%nat then ascii_of_nat (n - 32) else c.

(** [s.upper()] *)
Definition py_upper (l : list ascii) : list ascii := map py_upper_char l.

(** [s.replace(" ", "")] *)
Definition py_remove_spaces (l : list ascii) : list ascii :=
  filter (λ c, c ≠ " "%char) l.

Definition HYDROPHOBIC : gset ascii :=
  list_to_set (list_ascii_of_string "VIFLMCW").
Definition POLAR : gset ascii :=
  list_to_set (list_ascii_of_string "DEKRHYSTNQGAP").
Definition VALID_AA : gset ascii := HYDROPHOBIC ∪ POLAR.

(** [AA_TO_HP = {aa: "H" for aa in HYDROPHOBIC}] followed by
    [AA_TO_HP.update({aa: "P" for aa in POLAR})]: the update wins on a
    common key. *)
Definition AA_TO_HP : gmap ascii ascii :=
  list_to_map ((λ aa, (aa, "P"%char)) <$> elements POLAR)
  ∪ list_to_map ((λ aa, (aa, "H"%char)) <$> elements HYDROPHOBIC).

(** What [convert_aa_to_hp] can raise: its two [ValueError]s, told apart
    by their message (the second carries the letter and its 1-based
    position), and the [KeyError] of a failed [AA_TO_HP[ch]]. *)
Inductive aa_error : Set :=
| HPInputForbidden
| InvalidLetter (ch : ascii) (position : nat)
| KeyError (ch : ascii).

Definition is_hp_chars (seq : list ascii) : bool :=
  let s := py_upper (py_strip seq) in
  forallb (λ ch, Ascii.eqb ch "H" || Ascii.eqb ch "P") s
  && (0 <? length s)%nat.

Definition is_hp_string (seq : string) : bool :=
  is_hp_chars (list_ascii_of_string seq).

(** The loop [for i, ch in enumerate(s)] of [convert_aa_to_hp], with the
    list [hp] built so far. *)
Fixpoint convert_letters (s : list (nat * ascii)) (hp : list ascii)
    : aa_error + list ascii :=
  match s with
  | [] => inr hp
  | (i, ch) :: rest =>
      if bool_decide (ch ∉ VALID_AA) then inl (InvalidLetter ch (i + 1))
      else match AA_TO_HP !! ch with
           | Some t => convert_letters rest (hp ++ [t])
           | None => inl (KeyError ch)
           end
  end.

(** The string [s] that [convert_aa_to_hp] works on. *)
Definition clean_aa (seq : string) : list ascii :=
  py_remove_spaces (py_upper (py_strip (list_ascii_of_string seq))).

Definition convert_aa_to_hp (seq : string) : aa_error + string :=
  let s := clean_aa seq in
  if is_hp_chars s then inl HPInputForbidden
  else match convert_letters (enumerate s) [] with
       | inl e => inl e
       | inr hp => inr (string_of_list_ascii hp)
       end.

(** The class of a letter of the table. *)
Definition hp_of_aa (c : ascii) : ascii :=
  if bool_decide (c ∈ HYDROPHOBIC) then "H"%char else "P"%char.

Definition hp_letter (c : ascii) : Prop := c = "H"%char ∨ c = "P"%char.

(** Neither end of [l] is a whitespace character. *)
Definition trimmed (l : list ascii) : Prop :=
  (∀ c, head l = Some c → py_isspace c = false)
  ∧ (∀ c, last l = Some c → py_isspace c = false).

(** The cleaned input is a non-empty string of H and P. *)
Definition hp_only (s : list ascii) : Prop := s ≠ [] ∧ Forall hp_letter s.

(** A map of the cells onto cells that is one-to-one and carries the four
    neighbours of a cell to the four neighbours of its image. *)
Definition lattice_symmetry (f : Coord → Coord) : Prop :=
  (∀ p q, f p = f q → p = q)
  ∧ ∀ p, neighbours4 (f p) ≡ₚ f <$> neighbours4 p.

(** The quarter turn and the mirror image. *)
Definition rot90 (p : Coord) : Coord := (- p.2, p.1).
Definition mirror (p : Coord) : Coord := (- p.1, p.2).

(** What an end move or a corner move returns: the chain with one residue
    put on another cell, two lattice steps away. *)
Definition one_residue_moved (C C' : Conf) : Prop :=
  ∃ k old new, C !! k = Some old ∧ new ≠ old ∧ manhattan old new = 2
               ∧ C' = <[k := new]> C ∧ is_self_avoiding C' = true.

(** The locals of [run_mc] at the end of an iteration: current and best
    conformation are chains of [len(hp_seq)] residues that
    [is_self_avoiding] accepts, [E] is the energy of the current one and
    the last entry of its trace, and the best trace is below the energy
    trace, entry by entry. *)
Definition mc_valid (hp_seq : string) (st : mc_state) : Prop :=
  length (mc_coords st) = String.length hp_seq
  ∧ is_self_avoiding (mc_coords st) = true
  ∧ energy_hp (mc_coords st) hp_seq = Ok (mc_E st)
  ∧ length (mc_best_coords st) = String.length hp_seq
  ∧ is_self_avoiding (mc_best_coords st) = true
  ∧ mc_best_E st <= mc_E st
  ∧ Forall2 Z.le (mc_best_energies st) (mc_energies st)
  ∧ Forall (λ e, e <= 0) (mc_energies st)
  ∧ (mc_energies st ≠ [] → last (mc_energies st) = Some (mc_E st)).

(** What a driver hands back: two chains of [len(hp_seq)] residues that
    [is_self_avoiding] accepts. *)
Definition result_valid (hp_seq : string) (res : run_result) : Prop :=
  length (final_coords res) = String.length hp_seq
  ∧ is_self_avoiding (final_coords res) = true
  ∧ length (best_coords res) = String.length hp_seq
  ∧ is_self_avoiding (best_coords res) = true.

(** The best trace is below the energy trace, which is at most 0. *)
Definition traces_ordered (res : run_result) : Prop :=
  ∀ k b e, best_energies res !! k = Some b → energies res !! k = Some e →
           b <= e ∧ e <= 0.

(** One replica of [run_remc] with its stored energy: a chain of
    [len(hp_seq)] residues that [is_self_avoiding] accepts, whose energy
    is the stored one, not below the best energy [best]. *)
Definition replica_valid (hp_seq : string) (best : Z) (c : Conf) (e : Z)
    : Prop :=
  length c = String.length hp_seq ∧ is_self_avoiding c = true
  ∧ energy_hp c hp_seq = Ok e ∧ best <= e.

(** The locals of [run_remc] between two statements of the step loop. *)
Definition remc_valid (hp_seq : string) (st : remc_state) : Prop :=
  Forall2 (replica_valid hp_seq (rs_best_E st))
          (replicas_coords st) (replicas_E st)
  ∧ length (rs_best_coords st) = String.length hp_seq
  ∧ is_self_avoiding (rs_best_coords st) = true
  ∧ energy_hp (rs_best_coords st) hp_seq = Ok (rs_best_E st)
  ∧ Forall2 Z.le (rs_best_energies st) (rs_energies st)
  ∧ Forall (λ e, e <= 0) (rs_energies st).

(** [max(l)] of a Python list of integers: a [ValueError] on the empty
    list. *)
Definition py_max_of (l : list Z) : result Z :=
  match l with
  | [] => Raise ValueError
  | x :: l' => Ok (foldl Z.max x l')
  end.

(** [_compute_bounds(coords, pad)], the tuple [(xmin, xmax, ymin, ymax)]. *)
Definition _compute_bounds (coords : Conf) (pad : Z)
    : result (Z * Z * Z * Z) :=
  let xs := map fst coords in
  let ys := map snd coords in
  min_x ← py_min xs;
  max_x ← py_max_of xs;
  min_y ← py_min ys;
  max_y ← py_max_of ys;
  Ok (min_x - pad, max_x + pad, min_y - pad, max_y + pad).

Lemma py_pos_Some len i k :
  py_pos len i = Some k → (k < len)%nat ∧
    (Z.of_nat k = if i <? 0 then i + Z.of_nat len else i).
Proof.
  unfold py_pos. intros Hk.
  destruct (i <? 0) eqn:Hi; case_match; simplify_eq; lia.
Qed.

Lemma py_pos_nonneg len i :
  0 <= i < Z.of_nat len → py_pos len i = Some (Z.to_nat i).
Proof.
  intros Hi. unfold py_pos.
  destruct (i <? 0) eqn:Hneg; [lia|].
  case_match; [done | lia].
Qed.

Lemma py_index_Ok {A} (l : list A) i x :
  py_index l i = Ok x → ∃ k, py_pos (length l) i = Some k ∧ l !! k = Some x.
Proof.
  unfold py_index. destruct (py_pos _ _) as [k|]; [|done].
  destruct (l !! k) eqn:E; [|done]. intros [= <-]. eauto.
Qed.

Lemma py_index_nonneg {A} (l : list A) i :
  0 <= i < Z.of_nat (length l) →
  ∃ x, py_index l i = Ok x ∧ l !! Z.to_nat i = Some x.
Proof.
  intros Hi. unfold py_index. rewrite py_pos_nonneg by done.
  destruct (lookup_lt_is_Some_2 l (Z.to_nat i)) as [x Hx]; [lia|].
  rewrite Hx. eauto.
Qed.

Lemma py_setitem_nonneg {A} (l : list A) i x :
  0 <= i < Z.of_nat (length l) →
  py_setitem l i x = Ok (<[Z.to_nat i := x]> l).
Proof. intros Hi. unfold py_setitem. by rewrite py_pos_nonneg. Qed.

Lemma py_setitem_Ok {A} (l l' : list A) i x :
  py_setitem l i x = Ok l' →
  ∃ k, py_pos (length l) i = Some k ∧ l' = <[k := x]> l.
Proof.
  unfold py_setitem. destruct (py_pos _ _) as [k|]; [|done].
  intros [= <-]. eauto.
Qed.

Lemma py_setitem_length {A} (l l' : list A) i x :
  py_setitem l i x = Ok l' → length l' = length l.
Proof.
  intros (k & _ & ->)%py_setitem_Ok. apply length_insert.
Qed.

Lemma elem_of_py_range a b i : i ∈ py_range a b ↔ a <= i < b.
Proof.
  unfold py_range. rewrite list_elem_of_fmap. split.
  - intros (k & -> & Hk). apply elem_of_seq in Hk. lia.
  - intros Hi. exists (Z.to_nat (i - a)). split; [lia|].
    apply elem_of_seq. lia.
Qed.

Lemma elem_of_py_range2 a b i :
  i ∈ py_range2 a b → a <= i < b.
Proof.
  unfold py_range2. rewrite list_elem_of_fmap.
  intros (k & -> & Hk). apply elem_of_seq in Hk.
  assert (Hpos : 0 < (b - a + 1) / 2) by lia.
  assert (Hle : 2 * ((b - a + 1) / 2) <= b - a + 1)
    by (apply Z.mul_div_le; lia).
  lia.
Qed.

Lemma length_py_range a b : length (py_range a b) = Z.to_nat (b - a).
Proof. unfold py_range. by rewrite length_map, length_seq. Qed.

(* ===================================================================== *)
(** * Lattice primitives *)
(* ===================================================================== *)

Lemma manhattan_sym p q : manhattan p q = manhattan q p.
Proof. unfold manhattan. lia. Qed.

Lemma elem_of_neighbours4 (p q : Coord) :
  q ∈ neighbours4 p ↔ manhattan p q = 1.
Proof.
  destruct p as [x y], q as [a b]. unfold neighbours4, manhattan; simpl.
  rewrite !elem_of_cons, elem_of_nil. split.
  - intros [?|[?|[?|[?|[]]]]]; simplify_eq; lia.
  - intros Hm.
    assert ((a = x + 1 ∧ b = y) ∨ (a = x - 1 ∧ b = y)
            ∨ (a = x ∧ b = y + 1) ∨ (a = x ∧ b = y - 1)) as Hc by lia.
    destruct Hc as [[-> ->]|[[-> ->]|[[-> ->]|[-> ->]]]]; auto.
Qed.

Lemma NoDup_neighbours4 p : NoDup (neighbours4 p).
Proof.
  destruct p as [x y]. unfold neighbours4.
  repeat (apply NoDup_cons; split;
          [rewrite ?elem_of_cons, elem_of_nil; intros H;
           repeat destruct H as [H|H]; try done; simplify_eq; lia|]).
  apply NoDup_nil_2.
Qed.

Lemma chain_connected_spec C :
  chain_connected C = true ↔ connectivity C.
Proof.
  unfold connectivity. induction C as [|p [|q C] IH].
  - split; [intros _ i ?? Hi; by destruct i | done].
  - split; [intros _ [|i] ?? ? Hi; by simplify_eq/= | done].
  - cbn [chain_connected].
    destruct (manhattan p q =? 1) eqn:Hpq; simpl.
    + rewrite IH. apply Z.eqb_eq in Hpq. split.
      * intros HC [|i] a b Ha Hb; simplify_eq/=; [done|].
        by apply (HC i).
      * intros HC i a b Ha Hb. by apply (HC (S i)).
    + apply Z.eqb_neq in Hpq. split; [done|].
      intros HC. destruct Hpq. by apply (HC 0%nat).
Qed.

Lemma size_list_to_set_le (l : list Coord) :
  (size (list_to_set l : gset Coord) ≤ length l)%nat.
Proof.
  induction l as [|x l IH]; cbn [list_to_set length].
  - by rewrite size_empty.
  - rewrite size_union_alt, size_singleton.
    assert (size (list_to_set l ∖ {[x]} : gset Coord)
            ≤ size (list_to_set l : gset Coord))%nat
      by (apply subseteq_size, subseteq_difference_l; reflexivity).
    lia.
Qed.

Lemma size_list_to_set_NoDup (l : list Coord) :
  size (list_to_set l : gset Coord) = length l ↔ NoDup l.
Proof.
  split; [|apply size_list_to_set].
  induction l as [|x l IH]; [intros; apply NoDup_nil_2|].
  cbn [list_to_set length]. intros Hsz.
  destruct (decide (x ∈ l)) as [Hin|Hnin].
  - exfalso.
    assert ({[x]} ∪ list_to_set l = (list_to_set l : gset Coord)) as Heq
      by (apply subseteq_union_1_L, singleton_subseteq_l;
          by apply elem_of_list_to_set).
    rewrite Heq in Hsz. pose proof (size_list_to_set_le l). lia.
  - apply NoDup_cons. split; [done|]. apply IH.
    rewrite size_union in Hsz
      by (apply disjoint_singleton_l; by rewrite elem_of_list_to_set).
    rewrite size_singleton in Hsz. lia.
Qed.

(** [is_self_avoiding] is exactly the two invariants of the data model. *)
Lemma is_self_avoiding_spec C :
  is_self_avoiding C = true ↔ connectivity C ∧ self_avoidance C.
Proof.
  unfold is_self_avoiding, self_avoidance.
  rewrite <- chain_connected_spec, <- size_list_to_set_NoDup.
  destruct (size _ =? _)%nat eqn:Hsz; simpl.
  - apply Nat.eqb_eq in Hsz. tauto.
  - apply Nat.eqb_neq in Hsz. split; [done | tauto].
Qed.

Lemma length_initial_line n : length (initial_line n) = n.
Proof. unfold initial_line. by rewrite length_map, length_seq. Qed.

(* ===================================================================== *)
(** * The occupancy table *)
(* ===================================================================== *)

Lemma enumerate_snoc {A} (l : list A) x :
  enumerate (l ++ [x]) = enumerate l ++ [(length l, x)].
Proof.
  unfold enumerate. rewrite imap_app. simpl. by rewrite Nat.add_0_r.
Qed.

Lemma occupancy_snoc C p :
  occupancy (C ++ [p]) = <[p := length C]> (occupancy C).
Proof. unfold occupancy. by rewrite enumerate_snoc, foldl_app. Qed.

Lemma occupancy_lookup_lt C a j :
  occupancy C !! a = Some j → C !! j = Some a.
Proof.
  revert j. induction C as [|p C IH] using rev_ind; intros j.
  - unfold occupancy. simpl. by rewrite lookup_empty.
  - rewrite occupancy_snoc, lookup_insert. case_decide as Hpa.
    + intros [= <-]. subst. by rewrite lookup_app_r, Nat.sub_diag.
    + intros Hj%IH. by apply lookup_app_l_Some.
Qed.

Lemma occupancy_lookup_NoDup C a j :
  NoDup C → occupancy C !! a = Some j ↔ C !! j = Some a.
Proof.
  intros HC. split; [apply occupancy_lookup_lt|]. revert j HC.
  induction C as [|p C IH] using rev_ind; intros j HC; [done|].
  apply NoDup_app in HC as (HC & Hp & _).
  rewrite occupancy_snoc, lookup_insert. intros Hj.
  apply lookup_app_Some in Hj as [Hj|[Hlen Hj]].
  - case_decide as Hpa; [|by apply IH].
    subst. exfalso. apply (Hp a); [|apply list_elem_of_singleton; done].
    by apply list_elem_of_lookup_2 in Hj.
  - destruct (j - length C)%nat as [|k] eqn:Hk; [|done].
    simplify_eq/=. rewrite decide_True by done. f_equal. lia.
Qed.

Lemma translate_snoc d C (p : Coord) :
  translate d (C ++ [p]) = translate d C ++ [(p.1 + d.1, p.2 + d.2)].
Proof. unfold translate. by rewrite map_app. Qed.

Lemma length_translate d C : length (translate d C) = length C.
Proof. unfold translate. by rewrite length_map. Qed.

Lemma occupancy_translate d C (a : Coord) :
  occupancy (translate d C) !! (a.1 + d.1, a.2 + d.2) = occupancy C !! a.
Proof.
  induction C as [|p C IH] using rev_ind; [done|].
  rewrite translate_snoc, !occupancy_snoc, !lookup_insert, length_translate, IH.
  destruct a as [a1 a2], p as [p1 p2]; simpl.
  repeat case_decide; simplify_eq; try done.
  exfalso. match goal with H : _ ≠ _ |- _ => apply H end. f_equal; lia.
Qed.

(* ===================================================================== *)
(** * The energy evaluator *)
(* ===================================================================== *)

Lemma string_get_lt (s : string) (i : nat) :
  (i < String.length s)%nat → is_Some (String.get i s).
Proof.
  revert i. induction s as [|c s IH]; intros i Hi; simpl in *; [lia|].
  destruct i as [|i]; [by eexists|]. apply IH. lia.
Qed.

Lemma str_index_lt (S : string) (i : nat) :
  (i < String.length S)%nat →
  ∃ c, str_index S i = Ok c ∧ seq_is_H S i = is_H c.
Proof.
  intros [c Hc]%string_get_lt. exists c.
  unfold str_index, seq_is_H. by rewrite Hc.
Qed.

Section energy_pure.
Variables (occ : gmap Coord nat) (S : string).
Hypothesis occ_bound : ∀ nb j, occ !! nb = Some j → (j < String.length S)%nat.

Lemma energy_nb_pure i E nb :
  energy_nb occ S i E nb = Ok (if nb_hit occ S i nb then E - 1 else E).
Proof using occ_bound.
  unfold energy_nb, nb_hit. destruct (occ !! nb) as [j|] eqn:Hj; [|done].
  destruct (str_index_lt S j) as (c & -> & ->); [by eapply occ_bound|].
  simpl. destruct (is_H c); simpl; [|done].
  destruct (Z.abs _ =? 1); simpl; [done|]. by destruct (i <? j)%nat.
Qed.

Lemma foldM_energy_nb i l E :
  foldM (energy_nb occ S i) l E
  = Ok (E - Z.of_nat (length (filter (λ nb, nb_hit occ S i nb) l))).
Proof using occ_bound.
  revert E. induction l as [|nb l IH]; intros E; simpl.
  - f_equal. lia.
  - rewrite energy_nb_pure. simpl. rewrite IH, filter_cons.
    destruct (nb_hit occ S i nb); simpl; f_equal; lia.
Qed.

Lemma energy_residue_pure E ip :
  (ip.1 < String.length S)%nat →
  energy_residue occ S E ip = Ok (E - Z.of_nat (residue_hits occ S ip)).
Proof using occ_bound.
  intros Hi. unfold energy_residue, residue_hits.
  destruct (str_index_lt S ip.1) as (c & -> & ->); [done|]. simpl.
  destruct (is_H c); simpl; [apply foldM_energy_nb|]. f_equal. lia.
Qed.

Lemma foldM_energy_residue l E :
  (∀ ip, ip ∈ l → (ip.1 < String.length S)%nat) →
  foldM (energy_residue occ S) l E
  = Ok (E - Z.of_nat (sum_list (residue_hits occ S <$> l))).
Proof using occ_bound.
  revert E. induction l as [|ip l IH]; intros E Hl; csimpl.
  - f_equal. lia.
  - rewrite energy_residue_pure by (apply Hl; left). csimpl.
    rewrite IH by (intros; apply Hl; by right). f_equal. lia.
Qed.
End energy_pure.

Lemma elem_of_enumerate {A} (l : list A) i x :
  (i, x) ∈ enumerate l ↔ l !! i = Some x.
Proof.
  unfold enumerate. rewrite elem_of_lookup_imap. split.
  - intros (j & y & [= -> ->] & Hj). done.
  - intros Hi. eauto.
Qed.

Lemma fst_enumerate {A} (l : list A) :
  (enumerate l).*1 = seq 0 (length l).
Proof.
  unfold enumerate. rewrite fmap_imap.
  rewrite <- (list_fmap_id (seq 0 (length l))).
  by rewrite <- (imap_seq_0 l id).
Qed.

(** With a sequence at least as long as the conformation no subscript
    fails and the evaluator returns minus the number of counted cells. *)
Lemma energy_hp_pure C S :
  (length C ≤ String.length S)%nat →
  energy_hp C S
  = Ok (- Z.of_nat (sum_list (residue_hits (occupancy C) S <$> enumerate C))).
Proof.
  intros Hlen. unfold energy_hp. rewrite foldM_energy_residue.
  - f_equal.
  - intros nb j Hj%occupancy_lookup_lt. apply lookup_lt_Some in Hj. lia.
  - intros [i p] Hip%elem_of_enumerate. apply lookup_lt_Some in Hip.
    simpl. lia.
Qed.

(** Whatever the arguments, a returned energy is never positive. *)
Lemma foldM_le {A} (f : Z → A → result Z) l E E' :
  (∀ a x b, f a x = Ok b → b <= a) → foldM f l E = Ok E' → E' <= E.
Proof.
  intros Hf. revert E. induction l as [|x l IH]; intros E; simpl.
  - intros [= <-]. lia.
  - destruct (f E x) as [E1|] eqn:H1; [|done]. simpl.
    intros HE'%IH. apply Hf in H1. lia.
Qed.

Lemma energy_nb_le occ S i E nb E' :
  energy_nb occ S i E nb = Ok E' → E' <= E.
Proof.
  unfold energy_nb. destruct (occ !! nb) as [j|]; [|intros [= <-]; lia].
  destruct (str_index S j); simpl; [|done].
  repeat case_match; intros [= <-]; lia.
Qed.

Lemma energy_hp_nonpos C S E : energy_hp C S = Ok E → E <= 0.
Proof.
  unfold energy_hp. apply foldM_le. intros a [i p] b.
  unfold energy_residue. simpl.
  destruct (str_index S i); [|done]. simpl.
  destruct (negb _); [intros [= <-]; lia|].
  apply foldM_le. intros ???. apply energy_nb_le.
Qed.

(** ** Counting the contact set *)

Lemma length_filter_fmap {A B} (f : A → B) (P : B → Prop)
    `{∀ x, Decision (P x)} (l : list A) :
  length (filter P (f <$> l)) = length (filter (λ x, P (f x)) l).
Proof.
  induction l as [|x l IH]; [done|]. csimpl.
  rewrite !filter_cons. destruct (decide (P (f x))); simpl; by rewrite IH.
Qed.

Lemma length_filter_list_prod {A B} (P : A * B → Prop)
    `{∀ x, Decision (P x)} (l1 : list A) (l2 : list B) :
  length (filter P (list_prod l1 l2))
  = sum_list ((λ i, length (filter (λ j, P (i, j)) l2)) <$> l1).
Proof.
  induction l1 as [|i l1 IH]; [done|].
  cbn [list_prod]. rewrite filter_app, length_app, IH. csimpl. f_equal.
  apply (length_filter_fmap (pair i) P).
Qed.

Lemma filter_none {A} (P : A → Prop) `{∀ x, Decision (P x)} (l : list A) :
  (∀ x, x ∈ l → ¬ P x) → filter P l = [].
Proof.
  induction l as [|x l IH]; intros Hl; [done|].
  rewrite filter_cons_False by (apply Hl; left).
  apply IH. intros y Hy. apply Hl. by right.
Qed.

(** The cells counted around residue [i] are, one for one, the residues
    [j] in contact with it: the conformation has no repeated cell. *)
Lemma residue_hits_contacts C S i p :
  NoDup C → C !! i = Some p →
  residue_hits (occupancy C) S (i, p)
  = length (filter (λ j, hh_contact C S (i, j)) (seq 0 (length C))).
Proof.
  intros HC Hi. unfold residue_hits. cbn [fst snd].
  destruct (seq_is_H S i) eqn:HSi.
  2:{ rewrite filter_none; [done|]. intros j _. unfold hh_contact.
      cbn [fst snd]. rewrite HSi. rewrite andb_false_r. simpl. tauto. }
  set (at_ := λ j : nat, default (0, 0) (C !! j)).
  rewrite <- (length_fmap at_ (filter _ (seq 0 (length C)))).
  apply Permutation_length, NoDup_Permutation.
  - apply NoDup_filter, NoDup_neighbours4.
  - apply NoDup_fmap_2_strong; [|apply NoDup_filter, NoDup_seq].
    intros x y [_ Hx]%list_elem_of_filter [_ Hy]%list_elem_of_filter.
    apply elem_of_seq in Hx, Hy.
    destruct (lookup_lt_is_Some_2 C x) as [qx Hqx]; [lia|].
    destruct (lookup_lt_is_Some_2 C y) as [qy Hqy]; [lia|].
    unfold at_. rewrite Hqx, Hqy. simpl. intros ->.
    by eapply NoDup_lookup.
  - intros a. rewrite list_elem_of_filter, list_elem_of_fmap.
    setoid_rewrite list_elem_of_filter. setoid_rewrite elem_of_seq.
    rewrite elem_of_neighbours4. unfold nb_hit, hh_contact. cbn [fst snd].
    split.
    + intros [Hhit Hpa].
      destruct (occupancy C !! a) as [j|] eqn:Hj; [|done].
      apply occupancy_lookup_lt in Hj as Hja.
      apply andb_prop_elim in Hhit as [Hhit Hij].
      apply andb_prop_elim in Hhit as [HSj Hne].
      apply Is_true_eq_true, Nat.ltb_lt in Hij.
      apply negb_prop_elim in Hne. rewrite Is_true_true, Z.eqb_eq in Hne.
      exists j. unfold at_. rewrite Hja. split; [done|].
      split; [|apply lookup_lt_Some in Hja; lia].
      rewrite Hi, HSi. apply Is_true_eq_true in HSj. rewrite HSj.
      apply Is_true_true.
      rewrite !andb_true_iff, !Nat.ltb_lt, Z.eqb_eq. repeat split; lia.
    + intros (j & -> & Hc & Hj). unfold at_.
      rewrite Hi, HSi in Hc.
      destruct (C !! j) as [q|] eqn:Hq;
        [|by rewrite andb_false_r in Hc].
      apply Is_true_true in Hc.
      rewrite !andb_true_iff, !Nat.ltb_lt, Z.eqb_eq in Hc.
      destruct Hc as ((((Hij & Hij') & _) & HSj) & Hm).
      split; [|done]. simpl.
      apply (occupancy_lookup_NoDup C q j HC) in Hq. rewrite Hq, HSj.
      apply Is_true_true.
      rewrite !andb_true_iff, negb_true_iff, Nat.ltb_lt, Z.eqb_neq.
      repeat split; lia.
Qed.

(** The evaluator counts the contact set of the data model. *)
Lemma energy_hp_contacts C S :
  NoDup C → (length C ≤ String.length S)%nat →
  energy_hp C S = Ok (- Z.of_nat (length (hh_contacts C S))).
Proof.
  intros HC Hlen. rewrite energy_hp_pure by done. do 3 f_equal.
  unfold hh_contacts.
  rewrite (length_filter_list_prod (λ ij, hh_contact C S ij)).
  set (cnt := λ i : nat, length (filter _ (seq 0 (length C)))).
  rewrite <- (fst_enumerate C), <- list_fmap_compose.
  f_equal. apply list_fmap_ext. intros k [i p] Hk. simpl. unfold cnt.
  apply residue_hits_contacts; [done|].
  apply elem_of_enumerate. by eapply list_elem_of_lookup_2.
Qed.

(** ** Translation *)

Lemma foldM_ext {A St} (f g : St → A → result St) l s :
  (∀ s x, x ∈ l → f s x = g s x) → foldM f l s = foldM g l s.
Proof.
  revert s. induction l as [|x l IH]; intros s Hfg; [done|]. simpl.
  rewrite Hfg by left. destruct (g s x); simpl; [|done].
  apply IH. intros. apply Hfg. by right.
Qed.

Lemma foldM_fmap {A B St} (f : St → B → result St) (h : A → B) l s :
  foldM f (h <$> l) s = foldM (λ s x, f s (h x)) l s.
Proof.
  revert s. induction l as [|x l IH]; intros s; [done|]. csimpl.
  destruct (f s (h x)); simpl; [apply IH|done].
Qed.

Lemma neighbours4_shift d p :
  neighbours4 (shift_by d p) = shift_by d <$> neighbours4 p.
Proof.
  destruct p as [x y], d as [dx dy]. unfold shift_by, neighbours4. csimpl.
  repeat (apply (f_equal2 cons); [apply (f_equal2 pair); lia|]). done.
Qed.

Lemma enumerate_translate d C :
  enumerate (translate d C) = prod_map id (shift_by d) <$> enumerate C.
Proof.
  unfold enumerate, translate.
  change (map ?f C) with (f <$> C). rewrite imap_fmap, fmap_imap.
  apply imap_ext. done.
Qed.

Lemma energy_hp_translate d C S :
  energy_hp (translate d C) S = energy_hp C S.
Proof.
  unfold energy_hp. rewrite enumerate_translate, foldM_fmap.
  apply foldM_ext. intros E [i p] _. unfold energy_residue.
  cbn -[shift_by neighbours4 foldM str_index].
  destruct (str_index S i) as [c|]; [|done].
  cbn -[shift_by neighbours4 foldM].
  destruct (negb (is_H c)); [done|].
  rewrite neighbours4_shift, foldM_fmap.
  apply foldM_ext. intros E' nb _. unfold energy_nb, shift_by.
  by rewrite (occupancy_translate d C nb).
Qed.

(* ===================================================================== *)
(** * Reasoning about computations that may raise and draw *)
(* ===================================================================== *)

Lemma returns_Ok {A} (P : A → Prop) a : P a → returns P (Ok a).
Proof. intros. by exists a. Qed.

Lemma returns_bind {A B} (P : A → Prop) (Q : B → Prop) m (k : A → result B) :
  returns P m → (∀ a, P a → returns Q (k a)) → returns Q (a ← m; k a).
Proof. intros (a & -> & Ha) Hk. by apply Hk. Qed.

Lemma returns_mono {A} (P Q : A → Prop) r :
  (∀ a, P a → Q a) → returns P r → returns Q r.
Proof. intros HPQ (a & -> & Ha). exists a. auto. Qed.

Lemma returns_py_index {A} (l : list A) i :
  0 <= i < Z.of_nat (length l) →
  returns (λ x, l !! Z.to_nat i = Some x) (py_index l i).
Proof. intros Hi. destruct (py_index_nonneg l i Hi) as (x & -> & Hx). by exists x. Qed.

Lemma returns_py_setitem {A} (l : list A) i x :
  0 <= i < Z.of_nat (length l) →
  returns (λ l', l' = <[Z.to_nat i := x]> l) (py_setitem l i x).
Proof. intros Hi. rewrite py_setitem_nonneg by done. by eexists. Qed.

Lemma returns_first_some {X R} (P : option R → Prop)
    (body : X → result (option R)) xs :
  P None → (∀ x, x ∈ xs → returns P (body x)) →
  returns P (first_some body xs).
Proof.
  intros HN. induction xs as [|x xs IH]; intros Hb; simpl.
  - by apply returns_Ok.
  - destruct (Hb x) as (r & -> & Hr); [left|]. simpl.
    destruct r as [v|]; [by apply returns_Ok|].
    apply IH. intros. apply Hb. by right.
Qed.

Section rand.
Context `{Generator}.

Lemma draws_ret {A} (P : A → Prop) a : P a → draws P (rand_ret a).
Proof. intros Ha g. by exists a, g. Qed.

Lemma draws_bind {A B} (P : A → Prop) (Q : B → Prop) m (k : A → Rand B) :
  draws P m → (∀ a, P a → draws Q (k a)) → draws Q (rand_bind m k).
Proof.
  intros Hm Hk g. unfold rand_bind.
  destruct (Hm g) as (a & g1 & -> & Ha). by apply Hk.
Qed.

Lemma draws_mono {A} (P Q : A → Prop) m :
  (∀ a, P a → Q a) → draws P m → draws Q m.
Proof. intros HPQ Hm g. destruct (Hm g) as (a & g' & ? & ?). eauto. Qed.

Lemma draws_lift {A} (P : A → Prop) r : returns P r → draws P (lift r).
Proof. intros (a & -> & Ha) g. by exists a, g. Qed.

Lemma draws_shuffle {A} (l : list A) :
  draws (λ l', l' ≡ₚ l) (rng_shuffle l).
Proof.
  intros g. unfold rng_shuffle.
  pose proof (gen_shuffle_perm A l g) as Hp.
  destruct (gen_shuffle l g) as [l' g']. by exists l', g'.
Qed.

Lemma draws_permutation {A} (l : list A) :
  draws (λ l', l' ≡ₚ l) (rng_permutation l).
Proof.
  intros g. unfold rng_permutation.
  pose proof (gen_permutation_perm A l g) as Hp.
  destruct (gen_permutation l g) as [l' g']. by exists l', g'.
Qed.

Lemma draws_random :
  draws (λ u, PrimFloat.ltb u 1 = true) rng_random.
Proof.
  intros g. unfold rng_random. pose proof (gen_random_lt_1 g) as Hu.
  destruct (gen_random g) as [u g']. by exists u, g'.
Qed.

Lemma draws_first_some {X R} (P : option R → Prop)
    (body : X → Rand (option R)) xs :
  P None → (∀ x, x ∈ xs → draws P (body x)) →
  draws P (first_some_rand body xs).
Proof.
  intros HN. induction xs as [|x xs IH]; intros Hb; simpl.
  - by apply draws_ret.
  - eapply draws_bind; [apply Hb; left|]. intros [v|] Hv.
    + by apply draws_ret.
    + apply IH. intros. apply Hb. by right.
Qed.

Lemma draws_for {X St} (I : St → Prop) (body : St → X → Rand St) xs st :
  (∀ st x, x ∈ xs → I st → draws I (body st x)) → I st →
  draws I (for_rand body xs st).
Proof.
  revert st. induction xs as [|x xs IH]; intros st Hb Hst; simpl.
  - by apply draws_ret.
  - eapply draws_bind; [apply Hb; [left|done]|]. intros st' Hst'.
    apply IH; [|done]. intros. apply Hb; [by right|done].
Qed.

Lemma yields_ret {A} (P : A → Prop) a : P a → yields P (rand_ret a).
Proof. intros Ha g a' g' [= <- <-]. done. Qed.

Lemma yields_bind {A B} (P : A → Prop) (Q : B → Prop) m (k : A → Rand B) :
  yields P m → (∀ a, P a → yields Q (k a)) → yields Q (rand_bind m k).
Proof.
  intros Hm Hk g b g'. unfold rand_bind.
  destruct (m g) as [[a g1]|] eqn:Hmg; [|done].
  apply Hk. by eapply Hm.
Qed.

Lemma yields_any {A} (m : Rand A) : yields (λ _, True) m.
Proof. by intros ???. Qed.

Lemma yields_lift {A} (P : A → Prop) r :
  (∀ a, r = Ok a → P a) → yields P (lift r).
Proof. intros Hr g a g'. unfold lift. destruct r; [|done]. intros [= <- <-]. auto. Qed.

Lemma yields_for {X St} (I : St → Prop) (body : St → X → Rand St) xs st :
  (∀ st x, x ∈ xs → I st → yields I (body st x)) → I st →
  yields I (for_rand body xs st).
Proof.
  revert st. induction xs as [|x xs IH]; intros st Hb Hst; simpl.
  - by apply yields_ret.
  - eapply yields_bind; [apply Hb; [left|done]|]. intros st' Hst'.
    apply IH; [|done]. intros. apply Hb; [by right|done].
Qed.

Lemma draws_yields {A} (P Q : A → Prop) m :
  draws P m → yields Q m → draws (λ a, P a ∧ Q a) m.
Proof.
  intros Hd Hy g. destruct (Hd g) as (a & g' & Hm & Ha).
  exists a, g'. repeat split; [done..|]. by eapply Hy.
Qed.
End rand.

(* ===================================================================== *)
(** * The move engine: every proposal passes is_self_avoiding *)
(* ===================================================================== *)

Lemma proposal_ok_None n : proposal_ok n None.
Proof. by intros c'. Qed.

Lemma proposal_ok_Some n c :
  is_self_avoiding c = true → length c = n → proposal_ok n (Some c).
Proof. by intros ?? c' [= <-]. Qed.

Lemma returns_gate (n : nat) (newc : Conf) :
  length newc = n →
  returns (proposal_ok n)
    (if is_self_avoiding newc then Ok (Some newc) else Ok None).
Proof.
  intros Hlen. destruct (is_self_avoiding newc) eqn:Hsa; apply returns_Ok.
  - by apply proposal_ok_Some.
  - apply proposal_ok_None.
Qed.

(** Peel one subscript read or write off the front of a computation. *)
Ltac read_index :=
  eapply returns_bind;
  [ apply returns_py_index; rewrite ?length_insert; try lia
  | intros ? ? ].
Ltac write_index :=
  eapply returns_bind;
  [ apply returns_py_setitem; rewrite ?length_insert; try lia
  | intros ? -> ].

Lemma end_place_ok newc end_idx cands :
  0 <= end_idx < Z.of_nat (length newc) →
  returns (proposal_ok (length newc)) (end_place newc end_idx cands).
Proof.
  revert newc. induction cands as [|cand rest IH]; intros newc Hi; simpl.
  - apply returns_Ok, proposal_ok_None.
  - write_index.
    destruct (is_self_avoiding _) eqn:Hsa.
    + apply returns_Ok, proposal_ok_Some; [done|apply length_insert].
    + specialize (IH (<[Z.to_nat end_idx := cand]> newc)).
      rewrite length_insert in IH. by apply IH.
Qed.

Lemma corner_place_ok coords i cands :
  0 <= i < Z.of_nat (length coords) →
  returns (proposal_ok (length coords)) (corner_place coords i cands).
Proof.
  intros Hi. induction cands as [|cand rest IH]; simpl.
  - apply returns_Ok, proposal_ok_None.
  - write_index.
    destruct (is_self_avoiding _) eqn:Hsa; [|done].
    apply returns_Ok, proposal_ok_Some; [done|apply length_insert].
Qed.

Lemma crankshaft_at_ok coords k :
  0 <= k → k + 3 < Z.of_nat (length coords) →
  returns (proposal_ok (length coords)) (crankshaft_at coords k).
Proof.
  intros Hk0 Hk3. unfold crankshaft_at.
  do 4 read_index.
  destruct (negb _); [apply returns_Ok, proposal_ok_None|].
  destruct (negb _); [apply returns_Ok, proposal_ok_None|].
  destruct (crankshaft_targets _ _ _) as [[cand1 cand2]|];
    [|apply returns_Ok, proposal_ok_None].
  destruct (forallb _ _); [|apply returns_Ok, proposal_ok_None].
  do 2 write_index.
  apply returns_gate. by rewrite !length_insert.
Qed.

Lemma pull_propagate_ok old m newc occ :
  length newc = length old → (m + 1 < length old)%nat →
  returns (λ vn, length vn.2 = length old) (pull_propagate old m newc occ).
Proof.
  revert newc occ. induction m as [|m IH]; intros newc occ Hlen Hm; simpl.
  - by apply returns_Ok.
  - do 2 read_index.
    destruct (_ && _); [by apply returns_Ok|].
    write_index.
    eapply (returns_bind (λ _, True)).
    { destruct (0 <=? Z.of_nat m - 1) eqn:Hj; [|by apply returns_Ok].
      apply Z.leb_le in Hj. do 2 read_index. by apply returns_Ok. }
    intros _ _. apply IH; [by rewrite length_insert | lia].
Qed.

Lemma pull_shift_ok coords occ0 i pi pip1 s :
  1 <= i → i + 1 < Z.of_nat (length coords) →
  returns (proposal_ok (length coords)) (pull_shift coords occ0 i pi pip1 s).
Proof.
  intros Hi1 Hi2. unfold pull_shift. destruct s as [sx sy].
  destruct (_ && _); [apply returns_Ok, proposal_ok_None|].
  eapply (returns_bind (λ _, True)).
  { destruct (0 <=? i - 1); [|by apply returns_Ok].
    read_index. by apply returns_Ok. }
  intros corner _. destruct corner.
  { write_index. apply returns_gate, length_insert. }
  destruct (bool_decide _); [apply returns_Ok, proposal_ok_None|].
  write_index.
  eapply (returns_bind (λ no, length no.1 = length coords)).
  { destruct (0 <=? i - 1).
    - write_index. read_index. apply returns_Ok. simpl.
      by rewrite !length_insert.
    - apply returns_Ok. simpl. by rewrite length_insert. }
  intros [newc occ] Hlen. simpl in Hlen.
  eapply (returns_bind (λ _, True)).
  { destruct (0 <=? i - 2) eqn:Hi; [|by apply returns_Ok].
    apply Z.leb_le in Hi. do 2 read_index. by apply returns_Ok. }
  intros stop _. destruct stop; [by apply returns_gate|].
  eapply returns_bind; [apply pull_propagate_ok; [done|lia]|].
  intros [valid newc'] Hlen'. simpl in Hlen'.
  destruct valid; simpl; [by apply returns_gate|].
  apply returns_Ok, proposal_ok_None.
Qed.

Section moves_ok.
Context `{Generator}.

Ltac draw_index :=
  eapply draws_bind;
  [ apply draws_lift, returns_py_index; try lia | intros ? ? ].
Ltac draw_shuffle :=
  eapply draws_bind; [ apply draws_shuffle | intros ? ?; cbv beta in * ].

Lemma end_move_at_ok coords occ end_idx :
  (2 ≤ length coords)%nat →
  end_idx = 0 ∨ end_idx = Z.of_nat (length coords) - 1 →
  draws (proposal_ok (length coords)) (end_move_at coords occ end_idx).
Proof.
  intros Hn He. unfold end_move_at.
  draw_index. { destruct (end_idx =? 0) eqn:?; lia. }
  draw_index. draw_shuffle.
  apply draws_lift, end_place_ok. lia.
Qed.

Lemma end_move_ok coords occ :
  (2 ≤ length coords)%nat →
  draws (proposal_ok (length coords)) (end_move coords occ).
Proof.
  intros Hn. unfold end_move.
  eapply draws_bind; [apply draws_permutation|]. intros ends Hends.
  apply draws_first_some; [apply proposal_ok_None|].
  intros e He. apply end_move_at_ok; [done|].
  rewrite Hends in He. apply elem_of_cons in He as [->|He]; [by left|].
  apply list_elem_of_singleton in He as ->. by right.
Qed.

Lemma corner_move_at_ok coords occ i :
  1 <= i → i + 1 < Z.of_nat (length coords) →
  draws (proposal_ok (length coords)) (corner_move_at coords occ i).
Proof.
  intros Hi1 Hi2. unfold corner_move_at.
  do 3 draw_index. draw_shuffle.
  apply draws_lift, corner_place_ok. lia.
Qed.

Lemma corner_move_ok coords occ :
  draws (proposal_ok (length coords)) (corner_move coords occ).
Proof.
  unfold corner_move. draw_shuffle.
  apply draws_first_some; [apply proposal_ok_None|].
  intros i Hi. match goal with H : _ ≡ₚ _ |- _ => rewrite H in Hi end.
  apply elem_of_py_range in Hi. apply corner_move_at_ok; lia.
Qed.

Lemma crankshaft_move_ok coords :
  draws (proposal_ok (length coords)) (crankshaft_move coords).
Proof.
  unfold crankshaft_move. draw_shuffle.
  apply draws_lift, returns_first_some; [apply proposal_ok_None|].
  intros k Hk. match goal with H : _ ≡ₚ _ |- _ => rewrite H in Hk end.
  apply elem_of_py_range in Hk. apply crankshaft_at_ok; lia.
Qed.

Lemma _attempt_vshd_ok coords :
  (2 ≤ length coords)%nat →
  draws (proposal_ok (length coords)) (_attempt_vshd coords).
Proof.
  intros Hn. unfold _attempt_vshd. draw_shuffle.
  apply draws_first_some; [apply proposal_ok_None|].
  intros [] _; simpl;
    auto using end_move_ok, corner_move_ok, crankshaft_move_ok.
Qed.

Lemma pull_at_ok coords occ0 i :
  1 <= i → i + 1 < Z.of_nat (length coords) →
  draws (proposal_ok (length coords)) (pull_at coords occ0 i).
Proof.
  intros Hi1 Hi2. unfold pull_at. do 2 draw_index.
  destruct (negb _); [apply draws_ret, proposal_ok_None|].
  draw_shuffle.
  apply draws_lift, returns_first_some; [apply proposal_ok_None|].
  intros s _. by apply pull_shift_ok.
Qed.

Lemma _attempt_pull_ok coords :
  draws (proposal_ok (length coords)) (_attempt_pull coords).
Proof.
  unfold _attempt_pull.
  destruct (_ <? 3); [apply draws_ret, proposal_ok_None|].
  draw_shuffle.
  apply draws_first_some; [apply proposal_ok_None|].
  intros i Hi. match goal with H : _ ≡ₚ _ |- _ => rewrite H in Hi end.
  apply elem_of_py_range in Hi. apply pull_at_ok; lia.
Qed.

(** From a chain of at least two residues and with one of the three
    modes, [attempt_move] returns: no proposal, or a chain of the same
    length that passed [is_self_avoiding]. *)
Lemma attempt_move_ok rho coords mode :
  (2 ≤ length coords)%nat → known_mode mode = true →
  draws (proposal_ok (length coords)) (attempt_move rho coords mode).
Proof.
  intros Hn Hmode. unfold attempt_move. rewrite Hmode. simpl.
  destruct (String.eqb mode "vshd"); [by apply _attempt_vshd_ok|].
  destruct (String.eqb mode "pull"); [by apply _attempt_pull_ok|].
  eapply draws_bind; [apply draws_random|]. intros u _.
  destruct (PrimFloat.ltb u rho).
  - eapply draws_bind; [apply _attempt_pull_ok|]. intros [r|] Hr.
    + by apply draws_ret.
    + by apply _attempt_vshd_ok.
  - eapply draws_bind; [by apply _attempt_vshd_ok|]. intros [r|] Hr.
    + by apply draws_ret.
    + apply _attempt_pull_ok.
Qed.

Lemma attempt_move_unknown rho coords mode g :
  known_mode mode = false →
  attempt_move rho coords mode g = Raise ValueError.
Proof. intros Hmode. unfold attempt_move. by rewrite Hmode. Qed.
End moves_ok.

(** ** The crankshaft guard *)

(** Three unit steps end at an odd Manhattan distance. *)
Lemma manhattan_three_steps (p0 p1 p2 p3 : Coord) :
  manhattan p0 p1 = 1 → manhattan p1 p2 = 1 → manhattan p2 p3 = 1 →
  manhattan p0 p3 = 1 ∨ manhattan p0 p3 = 3.
Proof.
  destruct p0 as [x0 y0], p1 as [x1 y1], p2 as [x2 y2], p3 as [x3 y3].
  unfold manhattan; simpl. intros H1 H2 H3.
  assert ((x1 = x0 + 1 ∧ y1 = y0) ∨ (x1 = x0 - 1 ∧ y1 = y0)
          ∨ (x1 = x0 ∧ y1 = y0 + 1) ∨ (x1 = x0 ∧ y1 = y0 - 1)) as Ha by lia.
  assert ((x2 = x1 + 1 ∧ y2 = y1) ∨ (x2 = x1 - 1 ∧ y2 = y1)
          ∨ (x2 = x1 ∧ y2 = y1 + 1) ∨ (x2 = x1 ∧ y2 = y1 - 1)) as Hb by lia.
  assert ((x3 = x2 + 1 ∧ y3 = y2) ∨ (x3 = x2 - 1 ∧ y3 = y2)
          ∨ (x3 = x2 ∧ y3 = y2 + 1) ∨ (x3 = x2 ∧ y3 = y2 - 1)) as Hc by lia.
  clear H1 H2 H3.
  destruct Ha as [[-> ->]|[[-> ->]|[[-> ->]|[-> ->]]]];
  destruct Hb as [[-> ->]|[[-> ->]|[[-> ->]|[-> ->]]]];
  destruct Hc as [[-> ->]|[[-> ->]|[[-> ->]|[-> ->]]]]; lia.
Qed.

Lemma connectivity_window C k p0 p3 :
  connectivity C → C !! k = Some p0 → C !! (k + 3)%nat = Some p3 →
  Z.odd (manhattan p0 p3) = true ∧ manhattan p0 p3 ≠ 2.
Proof.
  intros HC H0 H3.
  destruct (lookup_lt_is_Some_2 C (k + 1)) as [p1 H1];
    [apply lookup_lt_Some in H3; lia|].
  destruct (lookup_lt_is_Some_2 C (k + 2)) as [p2 H2];
    [apply lookup_lt_Some in H3; lia|].
  replace (k + 1)%nat with (S k) in H1 by lia.
  replace (k + 2)%nat with (S (S k)) in H2 by lia.
  replace (k + 3)%nat with (S (S (S k))) in H3 by lia.
  destruct (manhattan_three_steps p0 p1 p2 p3) as [-> | ->];
    eauto using HC; by split.
Qed.

Lemma crankshaft_at_connected C k :
  connectivity C → 0 <= k → k + 3 < Z.of_nat (length C) →
  crankshaft_at C k = Ok None.
Proof.
  intros HC Hk0 Hk3. unfold crankshaft_at.
  destruct (py_index_nonneg C k) as (p0 & -> & H0); [lia|].
  destruct (py_index_nonneg C (k + 1)) as (p1 & -> & H1); [lia|].
  destruct (py_index_nonneg C (k + 2)) as (p2 & -> & H2); [lia|].
  destruct (py_index_nonneg C (k + 3)) as (p3 & -> & H3); [lia|].
  simpl.
  replace (Z.to_nat (k + 3)) with (Z.to_nat k + 3)%nat in H3 by lia.
  destruct (connectivity_window C _ p0 p3 HC H0 H3) as [_ Hne].
  apply Z.eqb_neq in Hne. rewrite Hne. simpl.
  by destruct (negb _).
Qed.

Section vshd_sources.
Context `{Generator}.

Lemma crankshaft_move_connected C :
  connectivity C → draws (λ o, o = None) (crankshaft_move C).
Proof.
  intros HC. unfold crankshaft_move.
  eapply draws_bind; [apply draws_shuffle|]. intros order Horder.
  apply draws_lift. simpl in Horder.
  assert (∀ k, k ∈ order → crankshaft_at C k = Ok None) as Hall.
  { intros k Hk. rewrite Horder in Hk. apply elem_of_py_range in Hk.
    apply crankshaft_at_connected; [done|lia..]. }
  clear Horder. induction order as [|k order IH]; [by apply returns_Ok|].
  simpl. rewrite Hall by left. simpl. apply IH.
  intros. apply Hall. by right.
Qed.

(** A proposal returned by a first-success loop was returned by one of
    the bodies. *)
Lemma first_some_rand_source {X R} (body : X → Rand (option R)) xs g v g' :
  first_some_rand body xs g = Ok (Some v, g') →
  ∃ x g1, x ∈ xs ∧ body x g1 = Ok (Some v, g').
Proof.
  revert g. induction xs as [|x xs IH]; intros g; simpl.
  - by intros [= ].
  - unfold rand_bind at 1.
    destruct (body x g) as [[[r|] g1]|] eqn:Hb; [| |done].
    + intros [= -> ->]. exists x, g. split; [left|done].
    + intros (y & g2 & Hy & Hb')%IH. exists y, g2. split; [by right|done].
Qed.

Lemma _attempt_vshd_source C g c' g' :
  connectivity C →
  _attempt_vshd C g = Ok (Some c', g') →
  ∃ kind g1, (kind = KEnd ∨ kind = KCorner)
             ∧ vshd_move C (list_to_set C) kind g1 = Ok (Some c', g').
Proof.
  intros HC. unfold _attempt_vshd, rand_bind, rng_shuffle.
  destruct (gen_shuffle _ g) as [kinds g0].
  intros (kind & g1 & _ & Hk)%first_some_rand_source.
  exists kind, g1. split; [|done].
  destruct kind; auto. exfalso. simpl in Hk.
  destruct (crankshaft_move_connected C HC g1) as (o & g2 & Ho & ->).
  congruence.
Qed.
End vshd_sources.

(* ===================================================================== *)
(** * Traces *)
(* ===================================================================== *)

Lemma trace_lb_nil best : trace_lb [] best.
Proof. split; [intros i ?? Hi; by destruct i | by intros x Hx%elem_of_nil]. Qed.

Lemma trace_inv_nil best : trace_inv [] best.
Proof. split; [apply trace_lb_nil | done]. Qed.

Lemma trace_lb_le l b b' : trace_lb l b → b' <= b → trace_lb l b'.
Proof.
  intros [Hni Hlb] Hle. split; [done|]. intros x Hx%Hlb. lia.
Qed.

Lemma trace_inv_snoc l b : trace_lb l b → trace_inv (l ++ [b]) b.
Proof.
  intros [Hni Hlb]. split; [split|].
  - intros i a c Ha Hc.
    destruct (decide (S i < length l)%nat) as [Hlt|Hge].
    + rewrite lookup_app_l in Ha, Hc by lia. by eapply Hni.
    + assert (S i = length l) as Hi.
      { apply lookup_lt_Some in Hc. rewrite length_app in Hc. simpl in Hc. lia. }
      rewrite lookup_app_l in Ha by lia.
      rewrite lookup_app_r in Hc by lia.
      rewrite Hi, Nat.sub_diag in Hc. simplify_eq/=.
      apply Hlb. by eapply list_elem_of_lookup_2.
  - intros x [Hx| ->%list_elem_of_singleton]%elem_of_app; [by apply Hlb|lia].
  - intros _. by rewrite last_snoc.
Qed.

Lemma trace_inv_lb l b : trace_inv l b → trace_lb l b.
Proof. by intros []. Qed.

Lemma foldl_min_spec x l :
  foldl Z.min x l <= x
  ∧ (∀ y, y ∈ l → foldl Z.min x l <= y)
  ∧ (foldl Z.min x l = x ∨ foldl Z.min x l ∈ l).
Proof.
  revert x. induction l as [|y l IH]; intros x; simpl.
  - split; [lia|]. split; [by intros ? ?%elem_of_nil | by left].
  - destruct (IH (Z.min x y)) as (H1 & H2 & H3). split; [lia|]. split.
    + intros z [->|Hz]%elem_of_cons; [lia | by apply H2].
    + destruct H3 as [H3|H3]; [|right; by right].
      destruct (Z.min_spec x y) as [[_ Hm]|[_ Hm]].
      * left. congruence.
      * right. rewrite H3, Hm. left.
Qed.

(** The last entry of a non-empty best-so-far trace is its minimum. *)
Lemma py_min_trace l b : trace_inv l b → l ≠ [] → py_min l = Ok b.
Proof.
  intros [[_ Hlb] Hlast] Hne. specialize (Hlast Hne).
  assert (b ∈ l) as Hb.
  { apply last_Some in Hlast as [l' ->].
    apply elem_of_app. right. by apply list_elem_of_singleton. }
  destruct l as [|x l]; [done|]. simpl. f_equal.
  destruct (foldl_min_spec x l) as (H1 & H2 & H3).
  apply Z.le_antisymm.
  - apply elem_of_cons in Hb as [->|Hb]; [done | by apply H2].
  - apply Hlb. destruct H3 as [-> | H3]; [left | by right].
Qed.

Lemma py_range_nil a b : b <= a → py_range a b = [].
Proof. intros Hab. unfold py_range. by replace (Z.to_nat (b - a)) with 0%nat by lia. Qed.

Section loops.
Context `{Generator}.

Lemma yields_for_rel {X St} (R : St → St → Prop)
    (body : St → X → Rand St) xs st :
  (∀ s, R s s) → (∀ a b c, R a b → R b c → R a c) →
  (∀ s x, x ∈ xs → yields (R s) (body s x)) →
  yields (R st) (for_rand body xs st).
Proof.
  intros Hrefl Htrans Hb. apply yields_for; [|done].
  intros s x Hx Hs g s' g' Hs'. eapply Htrans; [done|]. by eapply Hb.
Qed.

(** A loop whose body keeps [I] and adds one to the measure [μ]. *)
Lemma yields_for_count {X St} (I : St → Prop) (μ : St → nat)
    (body : St → X → Rand St) xs st :
  (∀ s x, x ∈ xs → I s → yields (λ s', I s' ∧ μ s' = S (μ s)) (body s x)) →
  I st →
  yields (λ s', I s' ∧ μ s' = (μ st + length xs)%nat) (for_rand body xs st).
Proof.
  revert st. induction xs as [|x xs IH]; intros st Hb Hst; simpl.
  - apply yields_ret. split; [done|lia].
  - eapply yields_bind; [apply Hb; [left|done]|]. intros s1 [Hs1 Hc].
    intros g s' g' Hs'. eapply IH in Hs' as [? ?]; [split; [done|lia]| |done].
    intros. apply Hb; [by right|done].
Qed.

Lemma yields_and {A} (P Q : A → Prop) m :
  yields P m → yields Q m → yields (λ a, P a ∧ Q a) m.
Proof. intros HP HQ g a g' Hm. split; [by eapply HP | by eapply HQ]. Qed.

Lemma yields_mono {A} (P Q : A → Prop) m :
  (∀ a, P a → Q a) → yields P m → yields Q m.
Proof. intros HPQ Hm g a g' Hg. eapply HPQ, Hm. done. Qed.
End loops.

(** ** The straight line has no contact *)

Lemma initial_line_lookup n i p :
  initial_line n !! i = Some p → p = (Z.of_nat i, 0).
Proof.
  unfold initial_line. change (map ?f ?l) with (f <$> l).
  rewrite list_lookup_fmap. intros Hp.
  destruct (seq 0 n !! i) as [k|] eqn:Hk; [|done].
  apply lookup_seq in Hk as [-> _]. by simplify_eq/=.
Qed.

Lemma NoDup_initial_line n : NoDup (initial_line n).
Proof.
  unfold initial_line. change (map ?f ?l) with (f <$> l).
  apply NoDup_fmap_2; [|apply NoDup_seq].
  intros i j [= Hij]. lia.
Qed.

Lemma energy_hp_line S :
  energy_hp (initial_line (String.length S)) S = Ok 0.
Proof.
  rewrite energy_hp_contacts;
    [|apply NoDup_initial_line | by rewrite length_initial_line].
  unfold hh_contacts. rewrite filter_none; [done|].
  intros [i j] _ Hc. unfold hh_contact in Hc. cbn [fst snd] in Hc.
  destruct (initial_line _ !! i) as [p|] eqn:Hp;
    [|by rewrite andb_false_r in Hc].
  destruct (initial_line _ !! j) as [q|] eqn:Hq;
    [|by rewrite andb_false_r in Hc].
  apply initial_line_lookup in Hp as ->.
  apply initial_line_lookup in Hq as ->.
  apply Is_true_true in Hc.
  rewrite !andb_true_iff, !Nat.ltb_lt, Z.eqb_eq in Hc.
  unfold manhattan in Hc. simpl in Hc. lia.
Qed.

(* ===================================================================== *)
(** * The Metropolis driver *)
(* ===================================================================== *)

Lemma mc_inv_pre hp_seq st : mc_inv hp_seq st → mc_pre hp_seq st.
Proof. intros (? & ? & ?%trace_inv_lb). by unfold mc_pre. Qed.

Lemma mc_trace_inv hp_seq st : mc_pre hp_seq st → mc_inv hp_seq (mc_trace st).
Proof.
  intros (HE & Hlen & Hlb). unfold mc_inv, mc_trace. simpl.
  split; [done|]. split; [by rewrite !length_app, Hlen|].
  by apply trace_inv_snoc.
Qed.

Lemma mc_accept_pre hp_seq st proposal E_new :
  energy_hp proposal hp_seq = Ok E_new →
  mc_pre hp_seq st → mc_pre hp_seq (mc_accept st proposal E_new).
Proof.
  intros HEn (HE & Hlen & Hlb). unfold mc_pre, mc_accept.
  destruct (E_new <? mc_best_E st) eqn:Hlt; simpl; [|by auto].
  apply Z.ltb_lt in Hlt. split; [done|]. split; [done|].
  eapply trace_lb_le; [done|lia].
Qed.

Section mc.
Context `{Generator} `{Numeric}.

Lemma metropolis_accept_draws delta_E T :
  draws (λ _, True) (metropolis_accept delta_E T).
Proof.
  unfold metropolis_accept. destruct (delta_E <=? 0); [by apply draws_ret|].
  eapply draws_bind; [apply draws_random|]. intros u _. by apply draws_ret.
Qed.

Lemma mc_step_inv hp_seq temperature move_mode rho st t :
  mc_inv hp_seq st →
  yields (mc_inv hp_seq) (mc_step hp_seq temperature move_mode rho st t).
Proof.
  intros Hst%mc_inv_pre. unfold mc_step.
  eapply yields_bind; [apply yields_any|]. intros [proposal|] _.
  - eapply yields_bind;
      [apply (yields_lift (λ e, energy_hp proposal hp_seq = Ok e)); auto|].
    intros E_new HEn. eapply yields_bind; [apply yields_any|].
    intros [] _; apply yields_ret, mc_trace_inv; [|done].
    by apply mc_accept_pre.
  - by apply yields_ret, mc_trace_inv.
Qed.

Lemma mc_step_count hp_seq temperature move_mode rho st t :
  yields (λ st', length (mc_energies st') = S (length (mc_energies st)))
         (mc_step hp_seq temperature move_mode rho st t).
Proof.
  assert (∀ s, length (mc_energies (mc_trace s))
               = S (length (mc_energies s))) as Htr.
  { intros s. unfold mc_trace. simpl. rewrite length_app. simpl. lia. }
  assert (∀ s p e, mc_energies (mc_accept s p e) = mc_energies s) as Hacc.
  { intros s p e. unfold mc_accept. by destruct (_ <? _). }
  unfold mc_step.
  eapply yields_bind; [apply yields_any|]. intros [proposal|] _.
  - eapply yields_bind; [apply yields_any|]. intros E_new _.
    eapply yields_bind; [apply yields_any|].
    intros [] _; apply yields_ret; by rewrite Htr, ?Hacc.
  - apply yields_ret, Htr.
Qed.

Lemma mc_step_draws hp_seq temperature move_mode rho st t (n : nat) :
  (2 ≤ n)%nat → (n ≤ String.length hp_seq)%nat →
  known_mode move_mode = true →
  length (mc_coords st) = n →
  draws (λ st', length (mc_coords st') = n)
        (mc_step hp_seq temperature move_mode rho st t).
Proof.
  intros Hn Hhp Hmode Hlen. unfold mc_step.
  eapply draws_bind; [apply attempt_move_ok; [lia|done]|].
  rewrite Hlen. intros [proposal|] Hp.
  - destruct (Hp proposal eq_refl) as [_ Hlp].
    eapply draws_bind.
    { apply draws_lift. rewrite energy_hp_pure by lia.
      by apply (returns_Ok (λ _, True)). }
    intros E_new _. eapply draws_bind; [apply metropolis_accept_draws|].
    intros [] _; apply draws_ret; [|done].
    unfold mc_trace, mc_accept. by destruct (_ <? _).
  - by apply draws_ret.
Qed.

(** Every run of [run_mc] that returns satisfies the trace invariants. *)
Lemma run_mc_post hp_seq steps temperature move_mode rho seed res :
  run_mc hp_seq steps temperature move_mode rho seed = Ok res →
  energy_hp (best_coords res) hp_seq = Ok (best_energy res)
  ∧ length (energies res) = length (best_energies res)
  ∧ length (energies res) = Z.to_nat (Z.min steps 10000)
  ∧ trace_inv (best_energies res) (best_energy res).
Proof.
  unfold run_mc, default_rng. destruct (seed_accepted seed); [|done].
  simpl. rewrite energy_hp_line. simpl.
  set (st0 := {| mc_coords := _ |}).
  destruct (for_rand _ _ st0 _) as [[st g]|] eqn:Hloop; [|done].
  simpl. intros [= <-]. simpl.
  assert (mc_inv hp_seq st0) as Hst0.
  { split; [apply energy_hp_line|]. split; [done|apply trace_inv_nil]. }
  apply (yields_for_count (mc_inv hp_seq) (λ s, length (mc_energies s)))
    in Hloop as [(HE & Hlen & Htr) Hcnt]; [| |done].
  2:{ intros s x _ Hs. apply yields_and; [by apply mc_step_inv|].
      apply mc_step_count. }
  split; [done|]. split; [done|]. split; [|done].
  rewrite Hcnt, length_py_range. simpl. lia.
Qed.

(** [run_mc] returns when the mode is one of the three, the sequence has
    at least two residues and the seed is one NumPy accepts. *)
Lemma run_mc_returns hp_seq steps temperature move_mode rho seed :
  known_mode move_mode = true → (2 ≤ String.length hp_seq)%nat →
  seed_accepted seed = true →
  ∃ res, run_mc hp_seq steps temperature move_mode rho seed = Ok res.
Proof.
  intros Hmode Hn Hseed. unfold run_mc, default_rng. rewrite Hseed. simpl.
  rewrite energy_hp_line. simpl.
  set (st0 := {| mc_coords := _ |}).
  edestruct (draws_for (λ st, length (mc_coords st) = String.length hp_seq)
               (mc_step hp_seq temperature move_mode rho)
               (py_range 0 (Z.min steps 10000)) st0)
    as (st & g & -> & _).
  - intros. by apply mc_step_draws.
  - apply length_initial_line.
  - simpl. eauto.
Qed.

(** Without a step to run, nothing is drawn and nothing is checked. *)
Lemma run_mc_no_step hp_seq steps temperature move_mode rho seed :
  steps <= 0 → seed_accepted seed = true →
  run_mc hp_seq steps temperature move_mode rho seed
  = Ok {| final_coords := initial_line (String.length hp_seq);
          best_coords := initial_line (String.length hp_seq);
          energies := []; best_energies := []; best_energy := 0 |}.
Proof.
  intros Hs Hseed. unfold run_mc, default_rng. rewrite Hseed. simpl.
  rewrite energy_hp_line. simpl.
  rewrite py_range_nil by lia. done.
Qed.

(** A seed that [default_rng] refuses ends the run before the loop. *)
Lemma run_mc_negative_seed hp_seq steps temperature move_mode rho seed :
  seed_accepted seed = false →
  run_mc hp_seq steps temperature move_mode rho seed = Raise ValueError.
Proof. intros Hseed. unfold run_mc, default_rng. by rewrite Hseed. Qed.

(** An unknown mode is found out by the first move attempt; the error is
    the one a refused seed gives. *)
Lemma run_mc_unknown_mode hp_seq steps temperature move_mode rho seed :
  1 <= steps → known_mode move_mode = false →
  run_mc hp_seq steps temperature move_mode rho seed = Raise ValueError.
Proof.
  intros Hs Hmode. unfold run_mc, default_rng.
  destruct (seed_accepted seed); [|done]. simpl.
  rewrite energy_hp_line. simpl.
  unfold py_range.
  destruct (Z.to_nat (Z.min steps 10000 - 0)) as [|k] eqn:Hk; [lia|].
  simpl. unfold rand_bind at 1. unfold mc_step at 1.
  unfold rand_bind at 1. by rewrite attempt_move_unknown.
Qed.
End mc.

(* ===================================================================== *)
(** * The replica-exchange driver *)
(* ===================================================================== *)

Lemma same_record_refl st : same_record st st.
Proof. by repeat split. Qed.

Lemma same_record_trans a b c :
  same_record a b → same_record b c → same_record a c.
Proof.
  intros (?&?&?&?&?) (?&?&?&?&?). repeat split; congruence.
Qed.

Lemma same_traces_refl st : same_traces st st.
Proof. by repeat split. Qed.

Lemma same_traces_trans a b c :
  same_traces a b → same_traces b c → same_traces a c.
Proof. intros (?&?&?) (?&?&?). repeat split; congruence. Qed.

Lemma same_record_inv hp_seq st st' :
  same_record st st' → remc_inv hp_seq st → remc_inv hp_seq st'.
Proof.
  intros (_ & HE & HC & He & Hb) (? & ? & ?). unfold remc_inv.
  by rewrite HE, HC, He, Hb.
Qed.

Lemma swap_replicas_Ok st i j st' :
  swap_replicas st i j = Ok st' → same_record st st'.
Proof.
  unfold swap_replicas. intros Hs.
  repeat match type of Hs with
         | (_ ← ?m; _) = Ok _ => destruct m; simpl in Hs; [|done]
         end.
  simplify_eq. by repeat split.
Qed.

Lemma swap_replicas_wf n nrep st i j :
  remc_wf n nrep st →
  0 <= i < Z.of_nat nrep → 0 <= j < Z.of_nat nrep →
  returns (remc_wf n nrep) (swap_replicas st i j).
Proof.
  intros (Hc & HE & HT & Hall) Hi Hj. unfold swap_replicas.
  eapply returns_bind; [apply returns_py_index; lia|]. intros cj Hcj.
  eapply returns_bind; [apply returns_py_index; lia|]. intros ci Hci.
  eapply returns_bind; [apply returns_py_setitem; lia|]. intros ? ->.
  eapply returns_bind;
    [apply returns_py_setitem; rewrite length_insert; lia|]. intros ? ->.
  eapply returns_bind; [apply returns_py_index; lia|]. intros Ej HEj.
  eapply returns_bind; [apply returns_py_index; lia|]. intros Ei HEi.
  eapply returns_bind; [apply returns_py_setitem; lia|]. intros ? ->.
  eapply returns_bind;
    [apply returns_py_setitem; rewrite length_insert; lia|]. intros ? ->.
  apply returns_Ok. unfold remc_wf. simpl. rewrite !length_insert.
  repeat split; try done.
  apply Forall_insert; [apply Forall_insert; [done|]|].
  - apply (Forall_lookup_1 _ _ _ _ Hall Hcj).
  - apply (Forall_lookup_1 _ _ _ _ Hall Hci).
Qed.

Lemma remc_trace_inv hp_seq st st' :
  remc_pre hp_seq st → remc_trace st = Ok st' → remc_inv hp_seq st'.
Proof.
  intros (HE & Hlen & Hlb). unfold remc_trace.
  destruct (py_index _ 0) as [E0|]; simpl; [|done]. intros [= <-].
  unfold remc_inv. simpl. split; [done|].
  split; [by rewrite !length_app, Hlen|]. by apply trace_inv_snoc.
Qed.

Lemma remc_trace_count st st' :
  remc_trace st = Ok st' →
  length (rs_energies st') = S (length (rs_energies st)).
Proof.
  unfold remc_trace. destruct (py_index _ 0) as [E0|]; simpl; [|done].
  intros [= <-]. simpl. rewrite length_app. simpl. lia.
Qed.

Lemma remc_trace_wf n nrep st :
  (1 ≤ nrep)%nat → remc_wf n nrep st →
  returns (remc_wf n nrep) (remc_trace st).
Proof.
  intros Hn (Hc & HE & HT & Hall). unfold remc_trace.
  eapply returns_bind; [apply returns_py_index; lia|]. intros E0 _.
  by apply returns_Ok.
Qed.

Lemma py_index_replicate {A} (n : nat) (x : A) i :
  0 <= i < Z.of_nat n → py_index (replicate n x) i = Ok x.
Proof.
  intros Hi.
  destruct (py_index_nonneg (replicate n x) i) as (y & -> & Hy).
  - by rewrite length_replicate.
  - apply lookup_replicate in Hy as [-> _]. done.
Qed.

Section remc.
Context `{Generator} `{Numeric}.

(** ** What every returning run satisfies *)

Lemma replica_move_pre hp_seq move_mode rho st r :
  remc_pre hp_seq st →
  yields (λ st', remc_pre hp_seq st' ∧ same_traces st st')
         (replica_move hp_seq move_mode rho st r).
Proof.
  intros Hst. pose proof Hst as (HE & Hlen & Hlb). unfold replica_move.
  eapply yields_bind; [apply yields_any|]. intros cr _.
  eapply yields_bind; [apply yields_any|]. intros [prop|] _;
    [|apply yields_ret; split; [done|apply same_traces_refl]].
  eapply yields_bind;
    [apply (yields_lift (λ e, energy_hp prop hp_seq = Ok e)); auto|].
  intros E_new HEn.
  eapply yields_bind; [apply yields_any|]. intros Er _.
  eapply yields_bind; [apply yields_any|]. intros Tr _.
  eapply yields_bind; [apply yields_any|]. intros [] _;
    [|apply yields_ret; split; [done|apply same_traces_refl]].
  eapply yields_bind; [apply yields_any|]. intros rc _.
  eapply yields_bind; [apply yields_any|]. intros rE _.
  apply yields_ret. split; [|by repeat split].
  unfold remc_pre. simpl.
  destruct (E_new <? rs_best_E st) eqn:Hlt; [|done].
  apply Z.ltb_lt in Hlt. split; [done|]. split; [done|].
  eapply trace_lb_le; [done|lia].
Qed.

Lemma replica_moves_pre hp_seq move_mode rho st rs :
  remc_pre hp_seq st →
  yields (λ st', remc_pre hp_seq st' ∧ same_traces st st')
         (for_rand (replica_move hp_seq move_mode rho) rs st).
Proof.
  intros Hst. apply yields_for; [|split; [done|apply same_traces_refl]].
  intros s r _ [Hs Hss]. eapply yields_mono; [|by apply replica_move_pre].
  intros s' [Hs' Hss']. split; [done|]. by eapply same_traces_trans.
Qed.

Lemma exchange_pair_record st i :
  yields (same_record st) (exchange_pair st i).
Proof.
  unfold exchange_pair.
  do 4 (eapply yields_bind; [apply yields_any|]; intros ? _).
  eapply yields_bind; [apply yields_any|]. intros u _.
  destruct (PrimFloat.ltb _ _).
  - apply yields_lift. intros st'. apply swap_replicas_Ok.
  - apply yields_ret, same_record_refl.
Qed.

Lemma exchange_sweep_record n_replicas st :
  yields (same_record st) (exchange_sweep n_replicas st).
Proof.
  unfold exchange_sweep. eapply yields_bind.
  - apply (yields_for_rel same_record);
      eauto using same_record_refl, same_record_trans.
    intros. apply exchange_pair_record.
  - intros st' Hst'. apply yields_ret.
    eapply same_record_trans; [done|]. by repeat split.
Qed.

Lemma remc_step_inv hp_seq n_replicas exchange_every move_mode rho st step :
  remc_inv hp_seq st →
  yields (λ st', remc_inv hp_seq st'
                 ∧ length (rs_energies st') = S (length (rs_energies st)))
         (remc_step hp_seq n_replicas exchange_every move_mode rho st step).
Proof.
  intros (HE & Hlen & Hlb%trace_inv_lb). unfold remc_step.
  eapply yields_bind; [by apply replica_moves_pre|].
  intros st1 [Hst1 (_ & Hen & _)].
  eapply yields_bind.
  { apply (yields_lift (λ s, remc_trace st1 = Ok s)). auto. }
  intros st2 Hst2.
  pose proof (remc_trace_inv _ _ _ Hst1 Hst2) as Hinv2.
  pose proof (remc_trace_count _ _ Hst2) as Hcnt. rewrite Hen in Hcnt.
  destruct (exchange_every =? 0); [by apply yields_lift|].
  destruct (step mod exchange_every =? 0); [|by apply yields_ret].
  eapply yields_mono; [|apply exchange_sweep_record].
  intros st3 Hrec. split; [by eapply same_record_inv|].
  destruct Hrec as (_ & _ & _ & -> & _). done.
Qed.

(** ** When a run returns *)

Lemma replica_move_draws hp_seq move_mode rho st r (n nrep : nat) :
  (2 ≤ n)%nat → (n ≤ String.length hp_seq)%nat →
  known_mode move_mode = true →
  0 <= r < Z.of_nat nrep → remc_wf n nrep st →
  draws (remc_wf n nrep) (replica_move hp_seq move_mode rho st r).
Proof.
  intros Hn Hhp Hmode Hr Hwf. pose proof Hwf as (Hc & HE & HT & Hall).
  unfold replica_move.
  eapply draws_bind; [apply draws_lift, returns_py_index; lia|].
  intros cr Hcr. cbv beta in Hcr.
  pose proof (Forall_lookup_1 _ _ _ _ Hall Hcr) as Hlen. cbv beta in Hlen.
  eapply draws_bind; [apply attempt_move_ok; [lia|done]|].
  rewrite Hlen. intros [prop|] Hp; [|by apply draws_ret].
  destruct (Hp prop eq_refl) as [_ Hlp].
  eapply draws_bind.
  { apply draws_lift. rewrite energy_hp_pure by lia.
    by apply (returns_Ok (λ _, True)). }
  intros E_new _.
  eapply draws_bind; [apply draws_lift, returns_py_index; lia|].
  intros Er _.
  eapply draws_bind; [apply draws_lift, returns_py_index; lia|].
  intros Tr _.
  eapply draws_bind; [apply metropolis_accept_draws|].
  intros [] _; [|by apply draws_ret].
  eapply draws_bind; [apply draws_lift, returns_py_setitem; lia|].
  intros rc ->.
  eapply draws_bind; [apply draws_lift, returns_py_setitem; lia|].
  intros rE ->.
  apply draws_ret. unfold remc_wf. simpl. rewrite !length_insert.
  repeat split; try done. by apply Forall_insert.
Qed.

Lemma exchange_pair_draws st i (n nrep : nat) :
  0 <= i → i + 1 < Z.of_nat nrep → remc_wf n nrep st →
  draws (remc_wf n nrep) (exchange_pair st i).
Proof.
  intros Hi0 Hi1 Hwf. pose proof Hwf as (Hc & HE & HT & Hall).
  unfold exchange_pair.
  do 4 (eapply draws_bind;
        [apply draws_lift, returns_py_index; lia|]; intros ? _).
  eapply draws_bind; [apply draws_random|]. intros u _.
  destruct (PrimFloat.ltb _ _); [|by apply draws_ret].
  apply draws_lift, swap_replicas_wf; [done|lia..].
Qed.

Lemma exchange_sweep_draws n_replicas st (n nrep : nat) :
  n_replicas = Z.of_nat nrep → remc_wf n nrep st →
  draws (remc_wf n nrep) (exchange_sweep n_replicas st).
Proof.
  intros -> Hwf. unfold exchange_sweep.
  eapply draws_bind.
  - apply (draws_for (remc_wf n nrep)); [|done].
    intros s i Hi%elem_of_py_range2 Hs.
    apply exchange_pair_draws; [destruct (rs_even st); lia|lia|done].
  - intros st' Hst'. by apply draws_ret.
Qed.

Lemma remc_step_draws hp_seq n_replicas exchange_every move_mode rho st step
    (n nrep : nat) :
  (2 ≤ n)%nat → (n ≤ String.length hp_seq)%nat →
  known_mode move_mode = true → exchange_every ≠ 0 →
  n_replicas = Z.of_nat nrep → (1 ≤ nrep)%nat →
  remc_wf n nrep st →
  draws (remc_wf n nrep)
    (remc_step hp_seq n_replicas exchange_every move_mode rho st step).
Proof.
  intros Hn Hhp Hmode Hex -> Hrep Hwf. unfold remc_step.
  eapply draws_bind.
  { apply (draws_for (remc_wf n nrep)); [|done].
    intros s r Hr%elem_of_py_range Hs.
    by apply (replica_move_draws _ _ _ _ _ n nrep). }
  intros st1 Hst1.
  eapply draws_bind; [by apply draws_lift, remc_trace_wf|].
  intros st2 Hst2.
  destruct (exchange_every =? 0) eqn:Hz; [by apply Z.eqb_eq in Hz|].
  destruct (step mod exchange_every =? 0); [|by apply draws_ret].
  by apply exchange_sweep_draws.
Qed.

(** ** The whole run *)

Lemma run_remc_post hp_seq steps n_replicas tmin tmax exchange_every
    move_mode rho seed res :
  run_remc hp_seq steps n_replicas tmin tmax exchange_every move_mode rho seed
  = Ok res →
  energy_hp (best_coords res) hp_seq = Ok (best_energy res)
  ∧ length (energies res) = length (best_energies res)
  ∧ length (energies res) = Z.to_nat (Z.min steps 10000)
  ∧ trace_inv (best_energies res) (best_energy res).
Proof.
  unfold run_remc, default_rng. destruct (seed_accepted seed); [|done].
  simpl. rewrite energy_hp_line. simpl.
  set (st0 := {| replicas_coords := _ |}).
  destruct (for_rand _ _ st0 _) as [[st g]|] eqn:Hloop; [|done]. simpl.
  destruct (py_index (replicas_coords st) 0) as [fc|]; [|done]. simpl.
  destruct (py_index (replicas_E st) 0) as [fE|]; [|done]. simpl.
  intros [= <-]. simpl.
  assert (remc_inv hp_seq st0) as Hst0.
  { split; [apply energy_hp_line|]. split; [done|apply trace_inv_nil]. }
  apply (yields_for_count (remc_inv hp_seq) (λ s, length (rs_energies s)))
    in Hloop as [(HE & Hlen & Htr) Hcnt]; [| |done].
  2:{ intros s x _ Hs. by apply remc_step_inv. }
  split; [done|]. split; [done|]. split; [|done].
  rewrite Hcnt, length_py_range. simpl. lia.
Qed.

Lemma run_remc_returns hp_seq steps n_replicas tmin tmax exchange_every
    move_mode rho seed :
  known_mode move_mode = true → (2 ≤ String.length hp_seq)%nat →
  seed_accepted seed = true → exchange_every ≠ 0 →
  ∃ res, run_remc hp_seq steps n_replicas tmin tmax exchange_every
           move_mode rho seed = Ok res.
Proof.
  intros Hmode Hn Hseed Hex. unfold run_remc, default_rng. rewrite Hseed.
  simpl. rewrite energy_hp_line. simpl.
  set (nrep := Z.to_nat (Z.max 2 n_replicas)).
  set (st0 := {| replicas_coords := _ |}).
  edestruct (draws_for (remc_wf (String.length hp_seq) nrep)
               (remc_step hp_seq (Z.max 2 n_replicas) exchange_every
                  move_mode rho)
               (py_range 1 (Z.min steps 10000 + 1)) st0)
    as (st & g & -> & (Hc & HE & _)).
  - intros. apply remc_step_draws; try done; unfold nrep; lia.
  - unfold remc_wf, st0. simpl.
    rewrite !length_replicate, np_linspace_length.
    repeat split; try done.
    apply Forall_replicate, length_initial_line.
  - simpl.
    destruct (py_index_nonneg (replicas_coords st) 0) as (fc & -> & _);
      [unfold nrep in Hc; lia|].
    destruct (py_index_nonneg (replicas_E st) 0) as (fE & -> & _);
      [unfold nrep in HE; lia|].
    simpl. eauto.
Qed.

Lemma run_remc_no_step hp_seq steps n_replicas tmin tmax exchange_every
    move_mode rho seed :
  steps <= 0 → seed_accepted seed = true →
  run_remc hp_seq steps n_replicas tmin tmax exchange_every move_mode rho seed
  = Ok {| final_coords := initial_line (String.length hp_seq);
          best_coords := initial_line (String.length hp_seq);
          energies := []; best_energies := []; best_energy := 0 |}.
Proof.
  intros Hs Hseed. unfold run_remc, default_rng. rewrite Hseed. simpl.
  rewrite energy_hp_line. simpl.
  rewrite py_range_nil by lia. simpl.
  rewrite !py_index_replicate by lia. done.
Qed.

Lemma run_remc_negative_seed hp_seq steps n_replicas tmin tmax exchange_every
    move_mode rho seed :
  seed_accepted seed = false →
  run_remc hp_seq steps n_replicas tmin tmax exchange_every move_mode rho seed
  = Raise ValueError.
Proof. intros Hseed. unfold run_remc, default_rng. by rewrite Hseed. Qed.

Lemma run_remc_unknown_mode hp_seq steps n_replicas tmin tmax exchange_every
    move_mode rho seed :
  1 <= steps → known_mode move_mode = false →
  run_remc hp_seq steps n_replicas tmin tmax exchange_every move_mode rho seed
  = Raise ValueError.
Proof.
  intros Hs Hmode. unfold run_remc, default_rng.
  destruct (seed_accepted seed); [|done]. simpl.
  rewrite energy_hp_line. simpl.
  unfold py_range at 1.
  destruct (Z.to_nat (Z.min steps 10000 + 1 - 1)) as [|k] eqn:Hk; [lia|].
  simpl. unfold rand_bind at 1. unfold remc_step at 1.
  unfold rand_bind at 1. unfold py_range at 1.
  destruct (Z.to_nat (Z.max 2 n_replicas - 0)) as [|m] eqn:Hm; [lia|].
  simpl. unfold rand_bind at 1. unfold replica_move at 1.
  unfold rand_bind at 1. simpl.
  rewrite py_index_replicate by lia. simpl.
  unfold rand_bind at 1. by rewrite attempt_move_unknown.
Qed.
End remc.

(* ===================================================================== *)
(** * A concrete generator and concrete numerics *)
(* ===================================================================== *)

Lemma counter_unit_ge_0 s : PrimFloat.leb 0 (counter_unit s) = true.
Proof. unfold counter_unit. destruct (s mod 4)%nat as [|[|[|?]]]; reflexivity. Qed.

Lemma counter_unit_lt_1 s : PrimFloat.ltb (counter_unit s) 1 = true.
Proof. unfold counter_unit. destruct (s mod 4)%nat as [|[|[|?]]]; reflexivity. Qed.

Lemma counter_shuffle_perm A (l : list A) s : (counter_shuffle l s).1 ≡ₚ l.
Proof.
  unfold counter_shuffle. simpl. destruct (Nat.even s); [done|].
  apply reverse_Permutation.
Qed.

Lemma length_ladder a b n : length (ladder a b n) = n.
Proof. unfold ladder. by rewrite length_map, length_seq. Qed.

Example series_exp_0 : series_exp 0 = 1%float.
Proof. vm_compute. reflexivity. Qed.

Example run_mc_sample :
  ∃ res, @run_mc counter_gen series_numeric "HHPH" 6 1 "hybrid" 0.5 (Some 1)
         = Ok res.
Proof. vm_compute. eauto. Qed.

Lemma effective_steps_eq steps :
  effective_steps steps = Z.to_nat (Z.min steps 10000).
Proof. unfold effective_steps. rewrite length_py_range. lia. Qed.

Lemma elem_of_hh_contacts C S i j :
  (i, j) ∈ hh_contacts C S ↔
    (i < j)%nat ∧ (j > i + 1)%nat
    ∧ String.get i S = Some "H"%char ∧ String.get j S = Some "H"%char
    ∧ ∃ p q, C !! i = Some p ∧ C !! j = Some q ∧ manhattan p q = 1.
Proof.
  unfold hh_contacts. rewrite list_elem_of_filter, list_elem_of_In, in_prod_iff.
  rewrite <- !list_elem_of_In, !elem_of_seq.
  unfold hh_contact, seq_is_H, is_H. cbn [fst snd].
  rewrite Is_true_true, !andb_true_iff, !Nat.ltb_lt. split.
  - intros [((((Hij & Hij') & Hi) & Hj) & Hm) _].
    destruct (String.get i S) as [ci|]; [|done].
    destruct (String.get j S) as [cj|]; [|done].
    apply Ascii.eqb_eq in Hi as ->. apply Ascii.eqb_eq in Hj as ->.
    destruct (C !! i) as [p|]; [|done]. destruct (C !! j) as [q|]; [|done].
    apply Z.eqb_eq in Hm. repeat split; [lia..|]. eauto.
  - intros (Hij & Hij' & Hi & Hj & p & q & Hp & Hq & Hm).
    rewrite Hi, Hj, Hp, Hq, Z.eqb_eq. repeat split; try done; try lia.
    + apply lookup_lt_Some in Hp. lia.
    + apply lookup_lt_Some in Hq. lia.
Qed.

Lemma NoDup_list_prod {A B} (l1 : list A) (l2 : list B) :
  NoDup l1 → NoDup l2 → NoDup (list_prod l1 l2).
Proof.
  intros H1 H2. induction H1 as [|x l1 Hx H1 IH]; [apply NoDup_nil_2|].
  cbn [list_prod]. apply NoDup_app. split; [|split; [|done]].
  - change (map ?f ?l) with (f <$> l). apply NoDup_fmap_2; [|done].
    by intros ?? [= ].
  - intros [a b] Hab Hin. change (map ?f ?l) with (f <$> l) in Hab.
    apply list_elem_of_fmap in Hab as (y & [= -> ->] & _).
    apply list_elem_of_In, in_prod_iff in Hin as [Hin _].
    by apply list_elem_of_In in Hin.
Qed.

Lemma NoDup_hh_contacts C S : NoDup (hh_contacts C S).
Proof.
  unfold hh_contacts. apply NoDup_filter, NoDup_list_prod; apply NoDup_seq.
Qed.

(* ===================================================================== *)
(** * The move engine *)
(* ===================================================================== *)

(** C1. From a conformation of the data model (at least two residues,
    consecutive cells at Manhattan distance 1, cells pairwise distinct)
    and with a mode among vshd, pull and hybrid, [attempt_move] returns;
    it returns either no proposal or a chain of the same length that
    again satisfies connectivity and self-avoidance. *)
Theorem attempt_move_preserves_invariants `{Generator}
    (rho : float) (C : Conf) (mode : string) (g : gen_state) :
  (2 ≤ length C)%nat → connectivity C → self_avoidance C →
  mode = "vshd"%string ∨ mode = "pull"%string ∨ mode = "hybrid"%string →
  ∃ o g', attempt_move rho C mode g = Ok (o, g')
          ∧ (o = None
             ∨ ∃ C', o = Some C' ∧ length C' = length C
                     ∧ connectivity C' ∧ self_avoidance C').
Proof.
  intros Hn _ _ Hmode.
  assert (known_mode mode = true) as Hknown
    by (destruct Hmode as [->|[->| ->]]; reflexivity).
  destruct (attempt_move_ok rho C mode Hn Hknown g) as (o & g' & Hrun & Ho).
  exists o, g'. split; [done|].
  destruct o as [C'|]; [right|by left].
  destruct (Ho C' eq_refl) as [Hsa Hlen].
  apply is_self_avoiding_spec in Hsa as [Hconn Hdistinct]. eauto 6.
Qed.

Lemma attempt_move_preserves_invariants_witness :
  ∃ o g', @attempt_move counter_gen 0.5 [(0,0); (1,0); (2,0)] "hybrid" 0%nat
          = Ok (o, g')
          ∧ (o = None
             ∨ ∃ C', o = Some C' ∧ length C' = length [(0,0); (1,0); (2,0)]
                     ∧ connectivity C' ∧ self_avoidance C').
Proof.
  apply (@attempt_move_preserves_invariants counter_gen).
  - simpl. lia.
  - apply chain_connected_spec. reflexivity.
  - apply size_list_to_set_NoDup. vm_compute. reflexivity.
  - right. right. reflexivity.
Defined.

(** C2. In a connected chain the end points of any window of four
    consecutive residues are at an odd Manhattan distance, so the guard
    [manhattan(p0, p3) == 2] never holds: the crankshaft body yields no
    proposal at any [k], the crankshaft sub-move returns no proposal, and
    a proposal returned by [_attempt_vshd] was returned by the end or the
    corner sub-move. *)
Theorem crankshaft_never_proposes `{Generator} (C : Conf) :
  connectivity C →
  (∀ k p0 p3, C !! k = Some p0 → C !! (k + 3)%nat = Some p3 →
              Z.odd (manhattan p0 p3) = true ∧ manhattan p0 p3 ≠ 2)
  ∧ (∀ k, k ∈ py_range 0 (Z.of_nat (length C) - 3) →
          crankshaft_at C k = Ok None)
  ∧ (∀ g, ∃ g', crankshaft_move C g = Ok (None, g'))
  ∧ (∀ g C' g', _attempt_vshd C g = Ok (Some C', g') →
       ∃ kind g1, (kind = KEnd ∨ kind = KCorner)
                  ∧ vshd_move C (list_to_set C) kind g1 = Ok (Some C', g')).
Proof.
  intros HC. split; [|split; [|split]].
  - intros k p0 p3. by apply connectivity_window.
  - intros k Hk%elem_of_py_range. apply crankshaft_at_connected; [done|lia..].
  - intros g. destruct (crankshaft_move_connected C HC g) as (o & g' & Hg & ->).
    by exists g'.
  - intros g C' g'. by apply _attempt_vshd_source.
Qed.

Lemma crankshaft_never_proposes_witness :
  let C := [(0,0); (1,0); (1,1); (0,1); (0,2)] in
  (∀ k p0 p3, C !! k = Some p0 → C !! (k + 3)%nat = Some p3 →
              Z.odd (manhattan p0 p3) = true ∧ manhattan p0 p3 ≠ 2)
  ∧ (∀ k, k ∈ py_range 0 (Z.of_nat (length C) - 3) →
          crankshaft_at C k = Ok None)
  ∧ (∀ g, ∃ g', @crankshaft_move counter_gen C g = Ok (None, g'))
  ∧ (∀ g C' g', @_attempt_vshd counter_gen C g = Ok (Some C', g') →
       ∃ kind g1, (kind = KEnd ∨ kind = KCorner)
                  ∧ @vshd_move counter_gen C (list_to_set C) kind g1
                    = Ok (Some C', g')).
Proof.
  apply (@crankshaft_never_proposes counter_gen).
  apply chain_connected_spec. reflexivity.
Defined.

(** C10. On [(0,0), (1,0), (2,0)] the end move at end 0, whose anchor is
    (1,0), has the two candidate placements (1,1) and (1,-1): of the four
    neighbours of the anchor, (2,0) is occupied and (0,0) is the current
    cell.  The move always returns, and what it returns is one of the two
    chains with the end at a candidate, each connected and
    self-avoiding. *)
Theorem end_move_line3_candidates :
  let C := [(0,0); (1,0); (2,0)] in
  end_candidates (list_to_set C) (1,0) (0,0) = [(1,1); (1,-1)]
  ∧ ∀ (G : Generator) (g : gen_state),
      ∃ C' g', end_move_at C (list_to_set C) 0 g = Ok (Some C', g')
               ∧ (C' = [(1,1); (1,0); (2,0)] ∨ C' = [(1,-1); (1,0); (2,0)])
               ∧ connectivity C' ∧ self_avoidance C'.
Proof.
  intros C.
  assert (end_candidates (list_to_set C) (1,0) (0,0) = [(1,1); (1,-1)]) as Hc
    by (vm_compute; reflexivity).
  split; [done|]. intros G g.
  unfold end_move_at, rand_bind, lift, rng_shuffle.
  change (if 0 =? 0 then 1 else _) with 1.
  change (py_index C 1) with (Ok (1, 0) : result Coord).
  change (py_index C 0) with (Ok (0, 0) : result Coord).
  cbv beta iota. rewrite Hc.
  pose proof (gen_shuffle_perm _ [(1,1); (1,-1)] g) as Hperm.
  destruct (gen_shuffle [(1,1); (1,-1)] g) as [cands g']. simpl in Hperm.
  assert (∃ c rest, cands = c :: rest ∧ (c = (1,1) ∨ c = (1,-1)))
    as (c & rest & -> & Hcand).
  { destruct cands as [|c rest]; [by apply Permutation_nil_l in Hperm|].
    exists c, rest. split; [done|].
    assert (c ∈ [(1, 1); (1, -1)]) as Hin by (rewrite <- Hperm; left).
    apply elem_of_cons in Hin as [->|Hin]; [by left|].
    apply list_elem_of_singleton in Hin as ->. by right. }
  destruct Hcand as [-> | ->].
  - exists [(1,1); (1,0); (2,0)], g'. split; [reflexivity|].
    split; [by left|]. by apply is_self_avoiding_spec.
  - exists [(1,-1); (1,0); (2,0)], g'. split; [reflexivity|].
    split; [by right|]. by apply is_self_avoiding_spec.
Qed.

(** C10, as stated: the move does not have three candidate placements. *)
Lemma end_move_line3_not_three :
  length (end_candidates (list_to_set [(0,0); (1,0); (2,0)]) (1,0) (0,0))
  ≠ 3%nat.
Proof. vm_compute. discriminate. Qed.

(* ===================================================================== *)
(** * The energy evaluator *)
(* ===================================================================== *)

(** C3. For a conformation (cells pairwise distinct) and a sequence of the
    same length, [energy_hp] returns minus the cardinality of the set of
    index pairs [(i, j)] with [i < j], [j > i + 1], [S[i] = S[j] = H] and
    the two cells at Manhattan distance 1; that integer is at most 0; and
    the U-shape with "HHHH" has the single contact (0, 3) and energy -1. *)
Theorem energy_hp_counts_contacts (C : Conf) (S : string) :
  self_avoidance C → length C = String.length S →
  energy_hp C S = Ok (- Z.of_nat (length (hh_contacts C S)))
  ∧ - Z.of_nat (length (hh_contacts C S)) <= 0
  ∧ NoDup (hh_contacts C S)
  ∧ (∀ i j, (i, j) ∈ hh_contacts C S ↔
       (i < j)%nat ∧ (j > i + 1)%nat
       ∧ String.get i S = Some "H"%char ∧ String.get j S = Some "H"%char
       ∧ ∃ p q, C !! i = Some p ∧ C !! j = Some q ∧ manhattan p q = 1)
  ∧ hh_contacts [(0,0); (1,0); (1,1); (0,1)] "HHHH" = [(0, 3)%nat]
  ∧ energy_hp [(0,0); (1,0); (1,1); (0,1)] "HHHH" = Ok (-1).
Proof.
  intros HC Hlen. split; [|split; [|split; [|split; [|split]]]].
  - apply energy_hp_contacts; [done|lia].
  - lia.
  - apply NoDup_hh_contacts.
  - intros i j. apply elem_of_hh_contacts.
  - vm_compute. reflexivity.
  - vm_compute. reflexivity.
Qed.

Lemma energy_hp_counts_contacts_witness :
  let C := [(0,0); (1,0); (1,1); (0,1)] in
  let S := "HHHH"%string in
  energy_hp C S = Ok (- Z.of_nat (length (hh_contacts C S)))
  ∧ - Z.of_nat (length (hh_contacts C S)) <= 0
  ∧ NoDup (hh_contacts C S)
  ∧ (∀ i j, (i, j) ∈ hh_contacts C S ↔
       (i < j)%nat ∧ (j > i + 1)%nat
       ∧ String.get i S = Some "H"%char ∧ String.get j S = Some "H"%char
       ∧ ∃ p q, C !! i = Some p ∧ C !! j = Some q ∧ manhattan p q = 1)
  ∧ hh_contacts [(0,0); (1,0); (1,1); (0,1)] "HHHH" = [(0, 3)%nat]
  ∧ energy_hp [(0,0); (1,0); (1,1); (0,1)] "HHHH" = Ok (-1).
Proof.
  apply energy_hp_counts_contacts.
  - apply size_list_to_set_NoDup. vm_compute. reflexivity.
  - reflexivity.
Defined.

(** The hypothesis on the cells is used: on a list with a repeated cell
    the occupancy table keeps the later index only, and the contact of
    residue 0 with residue 2 goes uncounted. *)
Example energy_hp_repeated_cell :
  energy_hp [(0,0); (9,9); (1,0); (1,0)] "HHHH" = Ok (-1)
  ∧ hh_contacts [(0,0); (9,9); (1,0); (1,0)] "HHHH" = [(0, 2)%nat; (0, 3)%nat].
Proof. split; vm_compute; reflexivity. Qed.

(** A sequence shorter than the chain makes a subscript fail. *)
Example energy_hp_short_sequence :
  energy_hp [(0,0); (1,0); (1,1); (0,1)] "HHH" = Raise IndexError.
Proof. vm_compute. reflexivity. Qed.

(** C9. Translating every coordinate of a conformation by a fixed vector
    [(dx, dy)], that is replacing [C] by [[(x+dx, y+dy) for (x, y) in C]],
    does not change what [energy_hp] returns. *)
Theorem energy_hp_translation_invariant (C : Conf) (S : string) (dx dy : Z) :
  translate (dx, dy) C = map (λ '(x, y), (x + dx, y + dy)) C
  ∧ energy_hp (translate (dx, dy) C) S = energy_hp C S.
Proof.
  split; [|apply energy_hp_translate].
  unfold translate. apply map_ext. by intros [x y].
Qed.

(* ===================================================================== *)
(** * The acceptance rule *)
(* ===================================================================== *)

(** C8. For [delta_E <= 0] [metropolis_accept] answers [True] and leaves
    the generator where it was; for [delta_E > 0] it draws one [u] of
    [0, 1) and answers whether [u < exp(-delta_E / T')], where [T'] is [T]
    unless [T] is below the floor [1e-12], and then the floor. *)
Theorem metropolis_accept_rule `{Generator} `{Numeric}
    (delta_E : Z) (T : float) (g : gen_state) :
  (delta_E <= 0 → metropolis_accept delta_E T g = Ok (true, g))
  ∧ (0 < delta_E →
     let u := (gen_random g).1 in
     let T' := if PrimFloat.ltb T 1e-12 then 1e-12%float else T in
     PrimFloat.leb 0 u = true ∧ PrimFloat.ltb u 1 = true
     ∧ metropolis_accept delta_E T g
       = Ok (PrimFloat.ltb u
               (np_exp (PrimFloat.div (PrimFloat.opp (py_float delta_E)) T')),
             (gen_random g).2)).
Proof.
  unfold metropolis_accept. split.
  - intros Hd. apply Z.leb_le in Hd. by rewrite Hd.
  - intros Hd. apply Z.leb_gt in Hd. rewrite Hd.
    split; [apply gen_random_ge_0|]. split; [apply gen_random_lt_1|].
    unfold rand_bind, rng_random, rand_ret, py_max.
    by destruct (gen_random g).
Qed.

(* ===================================================================== *)
(** * The drivers *)
(* ===================================================================== *)

Lemma post_best_record hp_seq steps res :
  energy_hp (best_coords res) hp_seq = Ok (best_energy res)
  ∧ length (energies res) = length (best_energies res)
  ∧ length (energies res) = Z.to_nat (Z.min steps 10000)
  ∧ trace_inv (best_energies res) (best_energy res) →
  best_record_ok hp_seq steps res.
Proof.
  intros (HE & Hlen & Hcnt & Htr). split; [done|].
  split; [by eapply energy_hp_nonpos|]. split; [apply Htr|].
  intros Hs. apply py_min_trace; [done|].
  intros Hnil. rewrite Hlen, Hnil in Hcnt. simpl in Hcnt. lia.
Qed.

Lemma post_traces hp_seq steps res :
  energy_hp (best_coords res) hp_seq = Ok (best_energy res)
  ∧ length (energies res) = length (best_energies res)
  ∧ length (energies res) = Z.to_nat (Z.min steps 10000)
  ∧ trace_inv (best_energies res) (best_energy res) →
  traces_ok steps res.
Proof.
  intros (HE & Hlen & Hcnt & Htr). unfold traces_ok.
  rewrite effective_steps_eq. split; [done|]. split; [done|].
  split; [lia|]. apply Htr.
Qed.

(** C4, as stated: with "HHHH" and no step the trace of best energies is
    empty, so it has no minimum for [best_energy] to be equal to. *)
Lemma best_energy_min_fails_without_steps :
  ∃ res, @run_mc counter_gen series_numeric "HHHH" 0 1 "hybrid" 0.5 None
         = Ok res
         ∧ best_energies res = []
         ∧ py_min (best_energies res) = Raise ValueError
         ∧ py_min (best_energies res) ≠ Ok (best_energy res).
Proof. eexists. split; [vm_compute; reflexivity|]. by simpl. Qed.

(** C4. Whatever [run_mc] or [run_remc] returns, [best_energy] is the
    energy of [best_coords], is at most 0 and is a lower bound of
    [best_energies]; when at least one step was asked for it is
    [min(best_energies)].  With a seed that [default_rng] accepts, both
    return for a known mode on at least two residues (with a non-zero
    exchange period), and for "HHHH" with [steps = 0] both return the
    straight line, empty traces and [best_energy = 0]. *)
Theorem best_energy_is_energy_of_best `{Generator} `{Numeric}
    (hp_seq : string) (steps n_replicas : Z) (temperature tmin tmax : float)
    (exchange_every : Z) (move_mode : string) (rho : float) (seed : option Z) :
  let mc := run_mc hp_seq steps temperature move_mode rho seed in
  let remc := run_remc hp_seq steps n_replicas tmin tmax exchange_every
                move_mode rho seed in
  let line4 := [(0,0); (1,0); (2,0); (3,0)] in
  let start := {| final_coords := line4; best_coords := line4;
                  energies := []; best_energies := []; best_energy := 0 |} in
  (∀ res, mc = Ok res → best_record_ok hp_seq steps res)
  ∧ (∀ res, remc = Ok res → best_record_ok hp_seq steps res)
  ∧ (seed_accepted seed = true →
     (known_mode move_mode = true → (2 ≤ String.length hp_seq)%nat →
      (∃ res, mc = Ok res) ∧ (exchange_every ≠ 0 → ∃ res, remc = Ok res))
     ∧ run_mc "HHHH" 0 temperature move_mode rho seed = Ok start
     ∧ run_remc "HHHH" 0 n_replicas tmin tmax exchange_every move_mode rho
         seed = Ok start).
Proof.
  intros mc remc line4 start. split; [|split].
  - intros res Hres. by eapply post_best_record, run_mc_post.
  - intros res Hres. by eapply post_best_record, run_remc_post.
  - intros Hseed. split; [|split].
    + intros Hmode Hn. split; [by apply run_mc_returns|].
      intros Hex. by apply run_remc_returns.
    + by rewrite run_mc_no_step.
    + by rewrite run_remc_no_step.
Qed.

(** C7. The two traces of a returned result have the same length, the
    number of iterations of the step loop, which is at most 10 000
    whatever [steps] is; [best_energies] is non-increasing.  With a seed
    that [default_rng] accepts, both drivers return for a known mode on at
    least two residues (with a non-zero exchange period). *)
Theorem traces_have_effective_length `{Generator} `{Numeric}
    (hp_seq : string) (steps n_replicas : Z) (temperature tmin tmax : float)
    (exchange_every : Z) (move_mode : string) (rho : float) (seed : option Z) :
  let mc := run_mc hp_seq steps temperature move_mode rho seed in
  let remc := run_remc hp_seq steps n_replicas tmin tmax exchange_every
                move_mode rho seed in
  (∀ res, mc = Ok res → traces_ok steps res)
  ∧ (∀ res, remc = Ok res → traces_ok steps res)
  ∧ (seed_accepted seed = true →
     known_mode move_mode = true → (2 ≤ String.length hp_seq)%nat →
     (∃ res, mc = Ok res) ∧ (exchange_every ≠ 0 → ∃ res, remc = Ok res)).
Proof.
  intros mc remc. split; [|split].
  - intros res Hres. by eapply post_traces, run_mc_post.
  - intros res Hres. by eapply post_traces, run_remc_post.
  - intros Hseed Hmode Hn. split; [by apply run_mc_returns|].
    intros Hex. by apply run_remc_returns.
Qed.

(** C5, as stated: no step at all, a negative temperature with rho = 2,
    and a ladder with [tmin > tmax] are all run to a result. *)
Lemma invalid_parameters_accepted :
  (∃ res, @run_mc counter_gen series_numeric "HHHH" 0 1 "hybrid" 0.5 None
          = Ok res)
  ∧ (∃ res, @run_mc counter_gen series_numeric "HHHH" 3 (-1) "hybrid" 2 None
            = Ok res)
  ∧ (∃ res, @run_remc counter_gen series_numeric
              "HHHH" 3 2 2 0.5 1 "hybrid" 0.5 None = Ok res).
Proof. repeat split; vm_compute; eauto. Qed.

(** C5. The core rejects two parameters, both with a [ValueError]: an
    unknown move mode, on which [attempt_move] raises and so does a
    driver as soon as one step runs, and a seed that
    [np.random.default_rng] refuses (a negative integer), on which a
    driver raises before its loop.  Nothing else is checked: with a seed
    that is accepted and [steps <= 0] both drivers return the initial
    record whatever the other parameters are, and with a known mode on at
    least two residues they return for every temperature, every [tmin],
    [tmax] and every rho. *)
Theorem only_mode_and_seed_are_rejected `{Generator} `{Numeric}
    (hp_seq : string) (steps n_replicas : Z) (temperature tmin tmax : float)
    (exchange_every : Z) (move_mode : string) (rho : float) (seed : option Z) :
  let mc := run_mc hp_seq steps temperature move_mode rho seed in
  let remc := run_remc hp_seq steps n_replicas tmin tmax exchange_every
                move_mode rho seed in
  let line := initial_line (String.length hp_seq) in
  let start := {| final_coords := line; best_coords := line;
                  energies := []; best_energies := []; best_energy := 0 |} in
  (known_mode move_mode = false →
     (∀ C g, attempt_move rho C move_mode g = Raise ValueError)
     ∧ (1 <= steps → mc = Raise ValueError ∧ remc = Raise ValueError))
  ∧ (seed_accepted seed = false →
     mc = Raise ValueError ∧ remc = Raise ValueError)
  ∧ (seed_accepted seed = true →
     (steps <= 0 → mc = Ok start ∧ remc = Ok start)
     ∧ (known_mode move_mode = true → (2 ≤ String.length hp_seq)%nat →
        (∃ res, mc = Ok res) ∧ (exchange_every ≠ 0 → ∃ res, remc = Ok res))).
Proof.
  intros mc remc line start. split; [|split].
  - intros Hmode. split; [intros; by apply attempt_move_unknown|].
    intros Hs. split; [by apply run_mc_unknown_mode|].
    by apply run_remc_unknown_mode.
  - intros Hseed.
    split; [by apply run_mc_negative_seed | by apply run_remc_negative_seed].
  - intros Hseed. split.
    + intros Hs.
      split; [by apply run_mc_no_step | by apply run_remc_no_step].
    + intros Hmode Hn. split; [by apply run_mc_returns|].
      intros Hex. by apply run_remc_returns.
Qed.

(** ** The exchange sweep *)

(** The state after the two tuple assignments of an accepted exchange. *)
Lemma swap_replicas_nonneg st i j Ci Cj Ei Ej :
  0 <= i → 0 <= j →
  replicas_coords st !! Z.to_nat i = Some Ci →
  replicas_coords st !! Z.to_nat j = Some Cj →
  replicas_E st !! Z.to_nat i = Some Ei →
  replicas_E st !! Z.to_nat j = Some Ej →
  swap_replicas st i j
  = Ok {| replicas_coords :=
            <[Z.to_nat j := Ci]> (<[Z.to_nat i := Cj]> (replicas_coords st));
          replicas_E :=
            <[Z.to_nat j := Ei]> (<[Z.to_nat i := Ej]> (replicas_E st));
          temps := temps st;
          rs_best_E := rs_best_E st; rs_best_coords := rs_best_coords st;
          rs_energies := rs_energies st;
          rs_best_energies := rs_best_energies st;
          rs_even := rs_even st |}.
Proof.
  intros Hi Hj HCi HCj HEi HEj. unfold swap_replicas.
  pose proof (lookup_lt_Some _ _ _ HCi). pose proof (lookup_lt_Some _ _ _ HCj).
  pose proof (lookup_lt_Some _ _ _ HEi). pose proof (lookup_lt_Some _ _ _ HEj).
  destruct (py_index_nonneg (replicas_coords st) j) as (? & -> & ?); [lia|].
  destruct (py_index_nonneg (replicas_coords st) i) as (? & -> & ?); [lia|].
  destruct (py_index_nonneg (replicas_E st) j) as (? & -> & ?); [lia|].
  destruct (py_index_nonneg (replicas_E st) i) as (? & -> & ?); [lia|].
  simplify_eq. simpl.
  rewrite (py_setitem_nonneg (replicas_coords st)) by lia. simpl.
  rewrite (py_setitem_nonneg (<[Z.to_nat i := Cj]> (replicas_coords st)))
    by (rewrite length_insert; lia). simpl.
  rewrite (py_setitem_nonneg (replicas_E st)) by lia. simpl.
  rewrite (py_setitem_nonneg (<[Z.to_nat i := Ej]> (replicas_E st)))
    by (rewrite length_insert; lia). done.
Qed.

(** C6. For a pair [(i, i+1)] of the replica arrays, [exchange_pair]
    computes [delta = (1/Tj - 1/Ti) * (Ei - Ej)], draws one [u] and
    accepts iff [u < acc], with [acc = 1] when [delta >= 0]: such an
    exchange is always accepted.  An accepted exchange puts the
    conformation and the energy of each of the two replicas in the slot of
    the other and leaves every other slot as it was; a refused one changes
    nothing.  Either way the temperature ladder, the best record and the
    traces are unchanged, and so they are after a whole sweep. *)
Theorem exchange_pair_swaps `{Generator} `{Numeric}
    (n nrep : nat) (st : remc_state) (i : Z) (g : gen_state) :
  remc_wf n nrep st → 0 <= i → i + 1 < Z.of_nat nrep →
  let ki := Z.to_nat i in
  let kj := Z.to_nat (i + 1) in
  ∃ Ci Cj Ei Ej Ti Tj,
    replicas_coords st !! ki = Some Ci ∧ replicas_coords st !! kj = Some Cj
    ∧ replicas_E st !! ki = Some Ei ∧ replicas_E st !! kj = Some Ej
    ∧ temps st !! ki = Some Ti ∧ temps st !! kj = Some Tj
    ∧ let delta :=
        PrimFloat.mul (PrimFloat.sub (PrimFloat.div 1 Tj) (PrimFloat.div 1 Ti))
                      (py_float (Ei - Ej)) in
      let u := (gen_random g).1 in
      let accepted :=
        PrimFloat.ltb u (if PrimFloat.leb 0 delta then 1%float
                         else np_exp delta) in
      (PrimFloat.leb 0 delta = true → accepted = true)
      ∧ ∃ st', exchange_pair st i g = Ok (st', (gen_random g).2)
          ∧ temps st' = temps st
          ∧ same_record st st'
          ∧ (if accepted then
               replicas_coords st' !! ki = Some Cj
               ∧ replicas_coords st' !! kj = Some Ci
               ∧ replicas_E st' !! ki = Some Ej
               ∧ replicas_E st' !! kj = Some Ei
               ∧ ∀ r, r ≠ ki → r ≠ kj →
                   replicas_coords st' !! r = replicas_coords st !! r
                   ∧ replicas_E st' !! r = replicas_E st !! r
             else st' = st)
          ∧ ∀ n_replicas s g0 s' g1,
              exchange_sweep n_replicas s g0 = Ok (s', g1) →
              temps s' = temps s ∧ same_record s s'.
Proof.
  intros (Hc & HE & HT & _) Hi0 Hi1 ki kj.
  destruct (py_index_nonneg (replicas_coords st) i) as (Ci & _ & HCi); [lia|].
  destruct (py_index_nonneg (replicas_coords st) (i + 1)) as (Cj & _ & HCj);
    [lia|].
  destruct (py_index_nonneg (replicas_E st) i) as (Ei & HEi' & HEi); [lia|].
  destruct (py_index_nonneg (replicas_E st) (i + 1)) as (Ej & HEj' & HEj);
    [lia|].
  destruct (py_index_nonneg (temps st) i) as (Ti & HTi' & HTi); [lia|].
  destruct (py_index_nonneg (temps st) (i + 1)) as (Tj & HTj' & HTj); [lia|].
  exists Ci, Cj, Ei, Ej, Ti, Tj. do 6 (split; [done|]).
  intros delta u accepted. split.
  { intros Hd. unfold accepted. rewrite Hd. apply gen_random_lt_1. }
  unfold exchange_pair, rand_bind, lift, rng_random, rand_ret.
  rewrite HEi', HEj', HTi', HTj'.
  fold delta. unfold exchange_delta, exchange_acc. fold delta.
  subst u. destruct (gen_random g) as [u g'] eqn:Hg. cbn [fst snd] in *.
  fold accepted.
  assert (∀ n_replicas s g0 s' g1,
            exchange_sweep n_replicas s g0 = Ok (s', g1) →
            temps s' = temps s ∧ same_record s s') as Hsweep.
  { intros nr s g0 s' g1 Hs. apply exchange_sweep_record in Hs.
    split; [apply Hs|done]. }
  destruct accepted eqn:Hacc.
  - rewrite (swap_replicas_nonneg st i (i + 1) Ci Cj Ei Ej) by (done || lia).
    eexists. split; [reflexivity|]. cbn [temps replicas_coords replicas_E].
    split; [done|]. split; [by repeat split|].
    fold ki kj. assert (ki ≠ kj) by (unfold ki, kj; lia).
    apply lookup_lt_Some in HCi as HCi_lt. apply lookup_lt_Some in HCj as HCj_lt.
    apply lookup_lt_Some in HEi as HEi_lt. apply lookup_lt_Some in HEj as HEj_lt.
    split; [|done].
    split; [by rewrite list_lookup_insert_ne, list_lookup_insert_eq by done|].
    split; [by rewrite list_lookup_insert_eq by (by rewrite length_insert)|].
    split; [by rewrite list_lookup_insert_ne, list_lookup_insert_eq by done|].
    split; [by rewrite list_lookup_insert_eq by (by rewrite length_insert)|].
    intros r Hri Hrj. by rewrite !list_lookup_insert_ne by done.
  - exists st. split; [done|]. split; [done|].
    split; [apply same_record_refl|]. done.
Qed.

Lemma ladder3_state_wf : remc_wf 4 3 ladder3_state.
Proof.
  unfold remc_wf, ladder3_state. cbn [replicas_coords replicas_E temps].
  split; [reflexivity|]. split; [reflexivity|]. split; [reflexivity|].
  repeat (apply Forall_cons; split; [reflexivity|]). apply Forall_nil_2.
Qed.

Lemma exchange_pair_swaps_witness :
  remc_wf 4 3 ladder3_state ∧ 0 <= 1 ∧ 1 + 1 < Z.of_nat 3
  ∧ ∃ Ci Cj Ei Ej Ti Tj,
    replicas_coords ladder3_state !! 1%nat = Some Ci
    ∧ replicas_coords ladder3_state !! 2%nat = Some Cj
    ∧ replicas_E ladder3_state !! 1%nat = Some Ei
    ∧ replicas_E ladder3_state !! 2%nat = Some Ej
    ∧ temps ladder3_state !! 1%nat = Some Ti
    ∧ temps ladder3_state !! 2%nat = Some Tj
    ∧ ∃ st', @exchange_pair counter_gen series_numeric ladder3_state 1 0%nat
             = Ok (st', 1%nat)
          ∧ temps st' = temps ladder3_state
          ∧ same_record ladder3_state st'.
Proof.
  split; [apply ladder3_state_wf|]. split; [lia|]. split; [simpl; lia|].
  destruct (@exchange_pair_swaps counter_gen series_numeric 4 3
              ladder3_state 1 0%nat ladder3_state_wf)
    as (Ci & Cj & Ei & Ej & Ti & Tj & HCi & HCj & HEi & HEj & HTi & HTj & _
        & st' & Hrun & Htemps & Hrec & _); [lia | simpl; lia |].
  exists Ci, Cj, Ei, Ej, Ti, Tj.
  repeat (split; [assumption|]).
  exists st'. split; [exact Hrun|]. split; [exact Htemps | exact Hrec].
Defined.

Lemma elem_of_VALID_AA ch :
  ch ∈ VALID_AA ↔ ch ∈ list_ascii_of_string "VIFLMCWDEKRHYSTNQGAP".
Proof.
  unfold VALID_AA, HYDROPHOBIC, POLAR.
  rewrite elem_of_union, !elem_of_list_to_set. simpl.
  rewrite !elem_of_cons, !elem_of_nil. tauto.
Qed.

Lemma AA_TO_HP_lookup ch :
  ch ∈ VALID_AA → AA_TO_HP !! ch = Some (hp_of_aa ch).
Proof.
  rewrite elem_of_VALID_AA. simpl. rewrite !elem_of_cons, elem_of_nil.
  intros H. repeat (destruct H as [->|H]; [vm_compute; reflexivity|]).
  destruct H.
Qed.

Lemma hp_of_aa_letter c : hp_letter (hp_of_aa c).
Proof. unfold hp_of_aa, hp_letter. case_bool_decide; auto. Qed.

(** The loop over the letters, started at position [k] with [hp] built. *)
Lemma convert_letters_spec (k : nat) (s hp : list ascii) :
  match convert_letters (imap (λ i c, ((k + i)%nat, c)) s) hp with
  | inr out => Forall (λ c, c ∈ VALID_AA) s ∧ out = hp ++ (fmap hp_of_aa s)
  | inl (InvalidLetter ch pos) =>
      ∃ i, pos = S (k + i) ∧ s !! i = Some ch ∧ (ch ∉ VALID_AA)
           ∧ Forall (λ c, c ∈ VALID_AA) (take i s)
  | inl _ => False
  end.
Proof.
  revert k hp. induction s as [|c s IH]; intros k hp.
  - simpl. split; [constructor | by rewrite app_nil_r].
  - cbn [imap convert_letters]. case_bool_decide as Hc.
    + exists 0%nat. rewrite Nat.add_0_r, Nat.add_1_r.
      repeat split; done.
    + rewrite (AA_TO_HP_lookup c Hc).
      specialize (IH (S k) (hp ++ [hp_of_aa c])).
      assert (imap ((λ i c, ((k + i)%nat, c)) ∘ S) s
              = imap (λ i c, ((S k + i)%nat, c)) s) as ->
        by (apply imap_ext; intros; simpl; f_equal; lia).
      destruct (convert_letters _ _) as [[|ch pos|]|out]; try done.
      * destruct IH as (i & -> & Hi & Hch & Hall). exists (S i).
        split; [f_equal; lia|]. split; [done|]. split; [done|].
        simpl. by constructor.
      * destruct IH as [Hall ->]. split; [by constructor|].
        by rewrite <- app_assoc.
Qed.

Lemma py_isspace_upper c : py_isspace (py_upper_char c) = py_isspace c.
Proof. by destruct c as [[] [] [] [] [] [] [] []]. Qed.

Lemma py_upper_char_idemp c : py_upper_char (py_upper_char c) = py_upper_char c.
Proof. by destruct c as [[] [] [] [] [] [] [] []]. Qed.

Lemma py_lstrip_upper l : py_lstrip (py_upper l) = py_upper (py_lstrip l).
Proof.
  induction l as [|c l IH]; [done|]. simpl.
  rewrite py_isspace_upper. by destruct (py_isspace c).
Qed.

Lemma py_upper_reverse l : py_upper (reverse l) = reverse (py_upper l).
Proof. unfold py_upper. change (map ?f ?x) with (f <$> x). by rewrite fmap_reverse. Qed.

Lemma py_strip_upper l : py_strip (py_upper l) = py_upper (py_strip l).
Proof.
  unfold py_strip.
  by rewrite py_lstrip_upper, <- py_upper_reverse, py_lstrip_upper,
    py_upper_reverse.
Qed.

(** On a string of H and P, cleaning changes nothing. *)
Lemma py_lstrip_letters l :
  Forall hp_letter l → py_lstrip l = l.
Proof. intros [|c l' [-> | ->] _]; reflexivity. Qed.

Lemma clean_letters l :
  Forall hp_letter l →
  py_strip l = l ∧ py_upper l = l ∧ py_remove_spaces l = l.
Proof.
  intros Hl. split; [|split].
  - unfold py_strip. rewrite (py_lstrip_letters l Hl).
    rewrite py_lstrip_letters by by apply Forall_reverse.
    apply reverse_involutive.
  - induction Hl as [|c l [-> | ->] _ IH]; simpl; [done|by f_equal..].
  - induction Hl as [|c l [-> | ->] _ IH]; [done|..];
      unfold py_remove_spaces in *; rewrite filter_cons_True by done;
      by f_equal.
Qed.

Lemma is_hp_chars_spec l :
  is_hp_chars l = true ↔
    py_strip l ≠ [] ∧ Forall hp_letter (py_upper (py_strip l)).
Proof.
  unfold is_hp_chars. rewrite andb_true_iff, forallb_forall, Nat.ltb_lt.
  rewrite Forall_forall. unfold hp_letter.
  assert (length (py_upper (py_strip l)) = length (py_strip l)) as ->
    by apply length_map.
  split.
  - intros [Hall Hlen].
    split; [destruct (py_strip l); simpl in Hlen; [lia|done]|].
    intros c Hc%list_elem_of_In%Hall.
    apply orb_true_iff in Hc as [Hc|Hc]; apply Ascii.eqb_eq in Hc; auto.
  - intros [Hne Hall]. split; [|destruct (py_strip l); simpl; [done|lia]].
    intros c Hc%list_elem_of_In%Hall. apply orb_true_iff.
    destruct Hc as [-> | ->]; auto.
Qed.

(** ** Stripping *)

Lemma py_lstrip_head l c : head (py_lstrip l) = Some c → py_isspace c = false.
Proof.
  induction l as [|x l IH]; [done|]. simpl.
  destruct (py_isspace x) eqn:Hx; [done|]. by intros [= <-].
Qed.

Lemma py_lstrip_suffix l : ∃ pre, l = pre ++ py_lstrip l.
Proof.
  induction l as [|x l [pre IH]]; [by exists []|]. simpl.
  destruct (py_isspace x); [|by exists []].
  exists (x :: pre). simpl. by f_equal.
Qed.

Lemma py_lstrip_last l c :
  last (py_lstrip l) = Some c → last l = Some c.
Proof.
  destruct (py_lstrip_suffix l) as [pre Hl]. intros Hc. rewrite Hl.
  destruct (py_lstrip l) as [|y r] using rev_ind; [done|].
  rewrite last_snoc in Hc. rewrite app_assoc, last_snoc. done.
Qed.

Lemma py_lstrip_id l :
  (∀ c, head l = Some c → py_isspace c = false) → py_lstrip l = l.
Proof.
  destruct l as [|x l]; [done|]. intros Hh. simpl.
  by rewrite (Hh x eq_refl).
Qed.

Lemma head_reverse (l : list ascii) : head (reverse l) = last l.
Proof.
  destruct l as [|x l] using rev_ind; [done|].
  by rewrite reverse_snoc, last_snoc.
Qed.

Lemma last_reverse' (l : list ascii) : last (reverse l) = head l.
Proof. by rewrite <- head_reverse, reverse_involutive. Qed.

Lemma py_strip_trimmed l : trimmed (py_strip l).
Proof.
  unfold py_strip. split; intros c.
  - rewrite head_reverse. intros Hc%py_lstrip_last.
    rewrite last_reverse' in Hc. by eapply py_lstrip_head.
  - rewrite last_reverse'. apply py_lstrip_head.
Qed.

Lemma py_strip_id l : trimmed l → py_strip l = l.
Proof.
  intros [Hh Hl]. unfold py_strip. rewrite (py_lstrip_id l Hh).
  rewrite py_lstrip_id; [apply reverse_involutive|].
  intros c. rewrite head_reverse. apply Hl.
Qed.

Lemma trimmed_upper l : trimmed l → trimmed (py_upper l).
Proof.
  intros Hl. rewrite <- (py_strip_id l Hl), <- py_strip_upper.
  apply py_strip_trimmed.
Qed.

Lemma py_upper_idemp l : py_upper (py_upper l) = py_upper l.
Proof.
  unfold py_upper. rewrite map_map. apply map_ext, py_upper_char_idemp.
Qed.

Lemma isspace_space c : c = " "%char → py_isspace c = true.
Proof. by intros ->. Qed.

Lemma trimmed_remove_spaces l : trimmed l → trimmed (py_remove_spaces l).
Proof.
  intros [Hh Hl]. unfold py_remove_spaces. split; intros c Hc.
  - destruct l as [|x l]; [done|].
    specialize (Hh x eq_refl).
    rewrite filter_cons_True in Hc by (intros ->; done).
    by simplify_eq/=.
  - destruct l as [|x l] using rev_ind; [done|].
    rewrite last_snoc in Hl. specialize (Hl x eq_refl).
    rewrite filter_app, filter_cons_True, filter_nil in Hc
      by (intros ->; done).
    rewrite last_snoc in Hc. by simplify_eq.
Qed.

Lemma py_upper_remove_spaces l :
  py_upper (py_remove_spaces l) = py_remove_spaces (py_upper l).
Proof.
  unfold py_remove_spaces. induction l as [|c l IH]; [done|]. simpl.
  assert (c = " "%char ↔ py_upper_char c = " "%char) as Hsp
    by (destruct c as [[] [] [] [] [] [] [] []]; split; by intros [= ]).
  destruct (decide (c = " "%char)) as [Hc|Hc].
  - rewrite !filter_cons_False by tauto. done.
  - rewrite !filter_cons_True by tauto. simpl. by f_equal.
Qed.

(** Cleaning a cleaned string changes nothing. *)
Lemma clean_aa_fixed seq :
  let s := clean_aa seq in py_strip s = s ∧ py_upper s = s.
Proof.
  unfold clean_aa. split.
  - apply py_strip_id, trimmed_remove_spaces, trimmed_upper, py_strip_trimmed.
  - by rewrite py_upper_remove_spaces, py_upper_idemp.
Qed.

Lemma is_hp_chars_clean seq :
  is_hp_chars (clean_aa seq) = true ↔
    clean_aa seq ≠ [] ∧ Forall hp_letter (clean_aa seq).
Proof.
  rewrite is_hp_chars_spec. destruct (clean_aa_fixed seq) as [-> ->]. done.
Qed.

Example convert_sample :
  convert_aa_to_hp "  mkvl a-q " = inl (InvalidLetter "-" 6)
  ∧ convert_aa_to_hp "  mkvl aq " = inr "HPHHPP"%string
  ∧ convert_aa_to_hp " hp " = inl HPInputForbidden
  ∧ convert_aa_to_hp "" = inr ""%string
  ∧ convert_aa_to_hp "MKXL" = inl (InvalidLetter "X" 3).
Proof. repeat split; vm_compute; reflexivity. Qed.

Lemma convert_aa_to_hp_cases (seq : string) :
  let s := clean_aa seq in
  match convert_aa_to_hp seq with
  | inl HPInputForbidden => hp_only s
  | inl (InvalidLetter ch pos) =>
      ¬ hp_only s
      ∧ ∃ i, pos = S i ∧ s !! i = Some ch ∧ (ch ∉ VALID_AA)
             ∧ Forall (λ c, c ∈ VALID_AA) (take i s)
  | inl (KeyError _) => False
  | inr hp =>
      ¬ hp_only s ∧ Forall (λ c, c ∈ VALID_AA) s
      ∧ list_ascii_of_string hp = hp_of_aa <$> s
      ∧ String.length hp = length s
  end.
Proof.
  intros s. unfold convert_aa_to_hp. fold s.
  destruct (is_hp_chars s) eqn:Hhp.
  - by apply is_hp_chars_clean.
  - assert (¬ hp_only s) as Hno.
    { intros H%is_hp_chars_clean. unfold s in Hhp. congruence. }
    pose proof (convert_letters_spec 0 s []) as Hspec.
    change (imap _ s) with (enumerate s) in Hspec.
    destruct (convert_letters (enumerate s) []) as [[|ch pos|]|out];
      [done| |done|].
    + split; [done|]. destruct Hspec as (i & -> & ?). by exists i.
    + destruct Hspec as [Hall ->]. simpl.
      rewrite list_ascii_of_string_of_list_ascii.
      repeat split; try done.
      rewrite <- (length_fmap hp_of_aa s).
      generalize (hp_of_aa <$> s). intros l.
      induction l as [|c l IH]; simpl; congruence.
Qed.

(** X1. The outcome of [convert_aa_to_hp] on an ASCII input, read on the
    cleaned string [s] (stripped, upper-cased, spaces removed): it raises
    the HP-input error exactly when [s] is a non-empty string of H and P;
    otherwise it raises on the first letter outside the table of twenty,
    with the 1-based position of that letter in [s]; otherwise it returns
    the string that has H where [s] has one of VIFLMCW and P elsewhere.
    [AA_TO_HP[ch]] never fails. *)
Theorem convert_aa_to_hp_outcome (seq : string) :
  ascii_only seq →
  let s := clean_aa seq in
  match convert_aa_to_hp seq with
  | inl HPInputForbidden => hp_only s
  | inl (InvalidLetter ch pos) =>
      ¬ hp_only s
      ∧ ∃ i, pos = S i ∧ s !! i = Some ch ∧ (ch ∉ VALID_AA)
             ∧ Forall (λ c, c ∈ VALID_AA) (take i s)
  | inl (KeyError _) => False
  | inr hp =>
      ¬ hp_only s ∧ Forall (λ c, c ∈ VALID_AA) s
      ∧ list_ascii_of_string hp = hp_of_aa <$> s
      ∧ String.length hp = length s
  end.
Proof. intros _. apply convert_aa_to_hp_cases. Qed.

Lemma ascii_only_sample : ascii_only " mkvl aq ".
Proof.
  unfold ascii_only. simpl.
  repeat (apply Forall_cons; split; [apply Nat.ltb_lt; reflexivity|]).
  apply Forall_nil_2.
Qed.

Lemma convert_aa_to_hp_outcome_witness :
  ascii_only " mkvl aq "
  ∧ let s := clean_aa " mkvl aq " in
    match convert_aa_to_hp " mkvl aq " with
    | inl HPInputForbidden => hp_only s
    | inl (InvalidLetter ch pos) =>
        ¬ hp_only s
        ∧ ∃ i, pos = S i ∧ s !! i = Some ch ∧ (ch ∉ VALID_AA)
               ∧ Forall (λ c, c ∈ VALID_AA) (take i s)
    | inl (KeyError _) => False
    | inr hp =>
        ¬ hp_only s ∧ Forall (λ c, c ∈ VALID_AA) s
        ∧ list_ascii_of_string hp = hp_of_aa <$> s
        ∧ String.length hp = length s
    end.
Proof.
  split; [apply ascii_only_sample|].
  apply convert_aa_to_hp_outcome, ascii_only_sample.
Defined.

Lemma Forall_hp_letter_fmap s : Forall hp_letter (hp_of_aa <$> s).
Proof. apply Forall_fmap, Forall_forall. intros c _. apply hp_of_aa_letter. Qed.

Lemma clean_aa_letters hp :
  Forall hp_letter (list_ascii_of_string hp) →
  clean_aa hp = list_ascii_of_string hp.
Proof.
  intros Hl. unfold clean_aa.
  destruct (clean_letters _ Hl) as (-> & -> & ->). done.
Qed.

(** X2. What [convert_aa_to_hp] returns is never accepted back: a returned
    string that is not empty is an HP string, and converting it raises
    the HP-input error. *)
Theorem convert_aa_to_hp_output_rejected (seq hp : string) :
  ascii_only seq →
  convert_aa_to_hp seq = inr hp → hp ≠ ""%string →
  ascii_only hp ∧ is_hp_string hp = true
  ∧ convert_aa_to_hp hp = inl HPInputForbidden.
Proof.
  intros Hseq Hrun Hne.
  pose proof (convert_aa_to_hp_cases seq) as Hout.
  rewrite Hrun in Hout. destruct Hout as (_ & _ & Hhp & _).
  assert (Forall hp_letter (list_ascii_of_string hp)) as Hl
    by (rewrite Hhp; apply Forall_hp_letter_fmap).
  assert (list_ascii_of_string hp ≠ []) as Hne'.
  { intros Hnil. apply Hne.
    by rewrite <- (string_of_list_ascii_of_string hp), Hnil. }
  split; [|split].
  - unfold ascii_only. eapply Forall_impl; [exact Hl|].
    by intros c [-> | ->]; apply Nat.ltb_lt.
  - unfold is_hp_string. apply is_hp_chars_spec.
    destruct (clean_letters _ Hl) as (-> & -> & _). done.
  - unfold convert_aa_to_hp.
    assert (is_hp_chars (clean_aa hp) = true) as ->; [|done].
    apply is_hp_chars_clean. by rewrite clean_aa_letters.
Qed.

Lemma convert_aa_to_hp_output_rejected_witness :
  ascii_only " mkvl aq "
  ∧ convert_aa_to_hp " mkvl aq " = inr "HPHHPP"%string
  ∧ "HPHHPP"%string ≠ ""%string
  ∧ ascii_only "HPHHPP" ∧ is_hp_string "HPHHPP" = true
  ∧ convert_aa_to_hp "HPHHPP" = inl HPInputForbidden.
Proof.
  split; [apply ascii_only_sample|]. split; [vm_compute; reflexivity|].
  split; [discriminate|].
  apply (convert_aa_to_hp_output_rejected " mkvl aq ");
    [apply ascii_only_sample | vm_compute; reflexivity | discriminate].
Defined.

(** X3. The conversion does not look at the case of the letters: two ASCII
    inputs with the same upper-case form have the same outcome. *)
Theorem convert_aa_to_hp_ignores_case (seq1 seq2 : string) :
  ascii_only seq1 → ascii_only seq2 →
  py_upper (list_ascii_of_string seq1) = py_upper (list_ascii_of_string seq2) →
  convert_aa_to_hp seq1 = convert_aa_to_hp seq2.
Proof.
  intros _ _ Hup. unfold convert_aa_to_hp, clean_aa.
  by rewrite <- !py_strip_upper, Hup.
Qed.

Lemma ascii_only_sample_upper : ascii_only " MKVL AQ ".
Proof.
  unfold ascii_only. simpl.
  repeat (apply Forall_cons; split; [apply Nat.ltb_lt; reflexivity|]).
  apply Forall_nil_2.
Qed.

Lemma convert_aa_to_hp_ignores_case_witness :
  ascii_only " mkvl aq " ∧ ascii_only " MKVL AQ "
  ∧ convert_aa_to_hp " mkvl aq " = convert_aa_to_hp " MKVL AQ ".
Proof.
  split; [apply ascii_only_sample|]. split; [apply ascii_only_sample_upper|].
  apply convert_aa_to_hp_ignores_case;
    [apply ascii_only_sample | apply ascii_only_sample_upper | reflexivity].
Defined.

Lemma py_lstrip_blank l :
  Forall (λ c, py_isspace c = true) l → py_lstrip l = [].
Proof. induction 1 as [|c l Hc _ IH]; [done|]. simpl. by rewrite Hc. Qed.

(** X4. An input without a letter (empty, or whitespace only) is not an
    error for [convert_aa_to_hp]: it returns the empty string. *)
Theorem convert_aa_to_hp_blank (seq : string) :
  ascii_only seq →
  Forall (λ c, py_isspace c = true) (list_ascii_of_string seq) →
  convert_aa_to_hp seq = inr ""%string.
Proof.
  intros _ Hblank. unfold convert_aa_to_hp, clean_aa, py_strip.
  by rewrite (py_lstrip_blank _ Hblank).
Qed.

Lemma convert_aa_to_hp_blank_witness :
  ascii_only "   "
  ∧ Forall (λ c, py_isspace c = true) (list_ascii_of_string "   ")
  ∧ convert_aa_to_hp "   " = inr ""%string.
Proof.
  assert (ascii_only "   ") as Ha.
  { unfold ascii_only. simpl.
    repeat (apply Forall_cons; split; [apply Nat.ltb_lt; reflexivity|]).
    apply Forall_nil_2. }
  assert (Forall (λ c, py_isspace c = true) (list_ascii_of_string "   ")) as Hb.
  { simpl. repeat (apply Forall_cons; split; [reflexivity|]).
    apply Forall_nil_2. }
  split; [exact Ha|]. split; [exact Hb|].
  exact (convert_aa_to_hp_blank "   " Ha Hb).
Defined.

(* ===================================================================== *)
(** * More on the lattice primitives and the energy evaluator *)
(* ===================================================================== *)

(** X5. [neighbours4(p)] lists, without repetition, exactly the four cells
    at Manhattan distance 1 from [p]; being a neighbour is symmetric. *)
Theorem neighbours4_unit_distance (p q : Coord) :
  (q ∈ neighbours4 p ↔ manhattan p q = 1)
  ∧ (q ∈ neighbours4 p ↔ p ∈ neighbours4 q)
  ∧ NoDup (neighbours4 p) ∧ length (neighbours4 p) = 4%nat
  ∧ p ∉ neighbours4 p.
Proof.
  split; [apply elem_of_neighbours4|]. split; [|split; [|split]].
  - by rewrite !elem_of_neighbours4, manhattan_sym.
  - apply NoDup_neighbours4.
  - by destruct p.
  - rewrite elem_of_neighbours4. unfold manhattan. lia.
Qed.

(** X6. [is_self_avoiding] answers [True] exactly on the chains whose
    consecutive cells are at Manhattan distance 1 and whose cells are
    pairwise distinct; in particular on the empty chain and on a single
    cell. *)
Theorem is_self_avoiding_iff_invariants (C : Conf) :
  (is_self_avoiding C = true ↔
     (∀ i p q, C !! i = Some p → C !! S i = Some q → manhattan p q = 1)
     ∧ (∀ i j p, C !! i = Some p → C !! j = Some p → i = j))
  ∧ is_self_avoiding [] = true
  ∧ ∀ p, is_self_avoiding [p] = true.
Proof.
  split; [|split; [reflexivity|]].
  - rewrite is_self_avoiding_spec. unfold connectivity, self_avoidance.
    by rewrite NoDup_alt.
  - intros p. apply is_self_avoiding_spec. split.
    + intros [|i] ?? ? Hq; simplify_eq/=.
    + apply NoDup_singleton.
Qed.

Lemma connectivity_initial_line n : connectivity (initial_line n).
Proof.
  intros i p q Hp%initial_line_lookup Hq%initial_line_lookup. subst.
  unfold manhattan. simpl. lia.
Qed.

(** X7. [initial_line(n)] is the chain [(0,0), (1,0), ..., (n-1,0)]: it has
    [n] cells, cell [i] is [(i, 0)], and [is_self_avoiding] accepts it. *)
Theorem initial_line_is_valid (n : nat) :
  length (initial_line n) = n
  ∧ (∀ i, (i < n)%nat → initial_line n !! i = Some (Z.of_nat i, 0))
  ∧ is_self_avoiding (initial_line n) = true.
Proof.
  split; [apply length_initial_line|]. split.
  - intros i Hi.
    destruct (lookup_lt_is_Some_2 (initial_line n) i) as [p Hp];
      [by rewrite length_initial_line|].
    by rewrite Hp, (initial_line_lookup _ _ _ Hp).
  - apply is_self_avoiding_spec. split;
      [apply connectivity_initial_line | apply NoDup_initial_line].
Qed.

Lemma hh_contact_line n S ij : hh_contact (initial_line n) S ij = false.
Proof.
  apply not_true_is_false. intros Hc. unfold hh_contact in Hc.
  rewrite !andb_true_iff in Hc. destruct Hc as [Hc Hm].
  destruct (initial_line _ !! ij.1) as [p|] eqn:Hp; [|done].
  destruct (initial_line _ !! ij.2) as [q|] eqn:Hq; [|done].
  apply initial_line_lookup in Hp as ->.
  apply initial_line_lookup in Hq as ->.
  rewrite !Nat.ltb_lt in Hc. apply Z.eqb_eq in Hm.
  unfold manhattan in Hm. simpl in Hm. lia.
Qed.

(** X8. The straight line has energy 0 for every sequence that is at least
    as long as the line. *)
Theorem energy_hp_initial_line (n : nat) (S : string) :
  (n ≤ String.length S)%nat → energy_hp (initial_line n) S = Ok 0.
Proof.
  intros Hn. rewrite energy_hp_contacts;
    [|apply NoDup_initial_line | by rewrite length_initial_line].
  unfold hh_contacts. rewrite filter_none; [done|].
  intros ij _. rewrite hh_contact_line. simpl. tauto.
Qed.

Lemma energy_hp_initial_line_witness :
  (3 ≤ String.length "HPPH")%nat ∧ energy_hp (initial_line 3) "HPPH" = Ok 0.
Proof.
  split; [simpl; lia|]. apply energy_hp_initial_line. simpl. lia.
Defined.

(** ** When the evaluator raises *)

Lemma foldM_raise {A St} (f : St → A → result St) l s e :
  (∀ s x e', f s x = Raise e' → e' = e) →
  (∃ x, x ∈ l ∧ ∀ s, f s x = Raise e) →
  foldM f l s = Raise e.
Proof.
  intros Hf (x0 & Hx0 & Hraise). revert s.
  induction l as [|x l IH]; intros s; [by apply elem_of_nil in Hx0|].
  simpl. apply elem_of_cons in Hx0 as [<-|Hx0].
  - by rewrite Hraise.
  - destruct (f s x) as [s'|e'] eqn:Hfx; simpl; [by apply IH|].
    f_equal. by eapply Hf.
Qed.

Lemma str_index_raise S i e : str_index S i = Raise e → e = IndexError.
Proof. unfold str_index. destruct (String.get i S); by intros [= ]. Qed.

Lemma foldM_only_raises {A St} (f : St → A → result St) l s e0 e :
  (∀ s x e, f s x = Raise e → e = e0) → foldM f l s = Raise e → e = e0.
Proof.
  intros Hf. revert s. induction l as [|x l IH]; intros s; [done|]. simpl.
  destruct (f s x) as [s'|e'] eqn:Hfx; simpl; [apply IH|].
  intros [= <-]. by eapply Hf.
Qed.

Lemma energy_nb_raise occ S i E nb e :
  energy_nb occ S i E nb = Raise e → e = IndexError.
Proof.
  unfold energy_nb. destruct (occ !! nb) as [j|]; [|done].
  destruct (str_index S j) as [c|e'] eqn:Hj; simpl.
  - repeat case_match; done.
  - intros [= <-]. by eapply str_index_raise.
Qed.

Lemma energy_residue_raise occ S E ip e :
  energy_residue occ S E ip = Raise e → e = IndexError.
Proof.
  unfold energy_residue.
  destruct (str_index S ip.1) as [c|e'] eqn:Hi; simpl.
  - destruct (negb _); [done|]. apply foldM_only_raises.
    intros ???. apply energy_nb_raise.
  - intros [= <-]. by eapply str_index_raise.
Qed.

Lemma string_get_ge (s : string) (i : nat) :
  (String.length s ≤ i)%nat → String.get i s = None.
Proof.
  revert i. induction s as [|c s IH]; intros i Hi; simpl in *; [done|].
  destruct i as [|i]; [lia|]. apply IH. lia.
Qed.

Lemma energy_hp_short_sequence_raises (C : Conf) (S : string) :
  (String.length S < length C)%nat → energy_hp C S = Raise IndexError.
Proof.
  intros Hlen. unfold energy_hp. apply foldM_raise.
  - intros E ip e. apply energy_residue_raise.
  - destruct (lookup_lt_is_Some_2 C (String.length S)) as [p Hp]; [done|].
    exists (String.length S, p). split; [by apply elem_of_enumerate|].
    intros E. unfold energy_residue, str_index. simpl.
    by rewrite string_get_ge.
Qed.

(** X9. [energy_hp] returns exactly when the sequence is at least as long as
    the chain (symbols beyond the chain are not looked at); on a shorter
    sequence it raises [IndexError]. *)
Theorem energy_hp_returns_iff (C : Conf) (S : string) :
  ((length C ≤ String.length S)%nat → ∃ E, energy_hp C S = Ok E ∧ E <= 0)
  ∧ ((String.length S < length C)%nat → energy_hp C S = Raise IndexError).
Proof.
  split.
  - intros Hlen. rewrite energy_hp_pure by done.
    eexists. split; [reflexivity|lia].
  - apply energy_hp_short_sequence_raises.
Qed.

(** ** Symmetries of the lattice *)

Lemma occupancy_fmap (f : Coord → Coord) C a :
  (∀ p q, f p = f q → p = q) →
  occupancy (f <$> C) !! f a = occupancy C !! a.
Proof.
  intros Hinj. induction C as [|p C IH] using rev_ind; [done|].
  rewrite fmap_app. simpl.
  rewrite !occupancy_snoc, !lookup_insert, length_fmap, IH.
  repeat case_decide; try done; subst; try done.
  exfalso. eauto.
Qed.

Lemma enumerate_fmap {A B} (f : A → B) (l : list A) :
  enumerate (f <$> l) = prod_map id f <$> enumerate l.
Proof.
  unfold enumerate. rewrite imap_fmap, fmap_imap. by apply imap_ext.
Qed.

Lemma residue_hits_symmetry f C S i p :
  lattice_symmetry f →
  residue_hits (occupancy (f <$> C)) S (i, f p)
  = residue_hits (occupancy C) S (i, p).
Proof.
  intros [Hinj Hnb]. unfold residue_hits. cbn [fst snd].
  destruct (seq_is_H S i); [|done].
  rewrite (Permutation_length (filter_Permutation _ _ _ (Hnb p))).
  rewrite length_filter_fmap. f_equal. apply list_filter_iff.
  intros nb. unfold nb_hit. by rewrite occupancy_fmap.
Qed.

Lemma energy_hp_symmetry f C S :
  lattice_symmetry f → energy_hp (f <$> C) S = energy_hp C S.
Proof.
  intros Hf.
  destruct (decide (length C ≤ String.length S)%nat) as [Hlen|Hlen].
  - rewrite !energy_hp_pure by (by rewrite ?length_fmap).
    rewrite enumerate_fmap, <- list_fmap_compose. do 4 f_equal.
    apply list_fmap_ext. intros k [i p] _. simpl.
    by apply residue_hits_symmetry.
  - rewrite !energy_hp_short_sequence_raises;
      [done | lia | rewrite length_fmap; lia].
Qed.

Lemma lattice_symmetry_rot90 : lattice_symmetry rot90.
Proof.
  split.
  - intros [x y] [a b] [= ]. f_equal; lia.
  - intros [x y]. unfold rot90, neighbours4. csimpl.
    replace (- (y + 1)) with (- y - 1) by lia.
    replace (- (y - 1)) with (- y + 1) by lia.
    apply NoDup_Permutation.
    + apply (NoDup_neighbours4 (- y, x)).
    + repeat (apply NoDup_cons; split;
              [rewrite ?elem_of_cons, elem_of_nil; intros H;
               repeat destruct H as [H|H]; try done; simplify_eq; lia|]).
      apply NoDup_nil_2.
    + intros q. rewrite !elem_of_cons, !elem_of_nil. tauto.
Qed.

Lemma lattice_symmetry_mirror : lattice_symmetry mirror.
Proof.
  split.
  - intros [x y] [a b] [= ]. f_equal; lia.
  - intros [x y]. unfold mirror, neighbours4. csimpl.
    replace (- (x + 1)) with (- x - 1) by lia.
    replace (- (x - 1)) with (- x + 1) by lia.
    apply perm_swap.
Qed.

Lemma lattice_symmetry_shift d : lattice_symmetry (shift_by d).
Proof.
  split.
  - intros [x y] [a b] [= ]. f_equal; lia.
  - intros p. by rewrite neighbours4_shift.
Qed.

Lemma lattice_symmetry_compose f g :
  lattice_symmetry f → lattice_symmetry g → lattice_symmetry (f ∘ g).
Proof.
  intros [Hf Hfn] [Hg Hgn]. split.
  - intros p q Hpq. by apply Hg, Hf.
  - intros p. simpl. by rewrite Hfn, Hgn, <- list_fmap_compose.
Qed.

(** X10. A symmetry of the square lattice applied to every cell of a chain
    does not change what [energy_hp] returns; the quarter turn, the mirror
    image, the translations and their compositions are such symmetries. *)
Theorem energy_hp_lattice_symmetry (f : Coord → Coord) (C : Conf) (S : string) :
  lattice_symmetry f →
  energy_hp (map f C) S = energy_hp C S
  ∧ lattice_symmetry rot90 ∧ lattice_symmetry mirror
  ∧ (∀ d, lattice_symmetry (shift_by d))
  ∧ (∀ g, lattice_symmetry g → lattice_symmetry (f ∘ g)).
Proof.
  intros Hf. split; [by apply energy_hp_symmetry|].
  split; [apply lattice_symmetry_rot90|].
  split; [apply lattice_symmetry_mirror|].
  split; [apply lattice_symmetry_shift|].
  intros g. by apply lattice_symmetry_compose.
Qed.

Lemma energy_hp_lattice_symmetry_witness :
  let C := [(0,0); (1,0); (1,1); (0,1)] in
  lattice_symmetry rot90
  ∧ energy_hp (map rot90 C) "HHHH" = energy_hp C "HHHH".
Proof.
  split; [apply lattice_symmetry_rot90|].
  apply (energy_hp_lattice_symmetry rot90), lattice_symmetry_rot90.
Defined.

(* ===================================================================== *)
(** * What a move changes *)
(* ===================================================================== *)

Lemma rbind_Ok {A B} (m : result A) (k : A → result B) b :
  (a ← m; k a) = Ok b → ∃ a, m = Ok a ∧ k a = Ok b.
Proof. destruct m as [a|e]; [|done]. intros Hk. by exists a. Qed.

Lemma manhattan_two_neighbours (a x y : Coord) :
  manhattan a x = 1 → manhattan a y = 1 → x ≠ y → manhattan x y = 2.
Proof.
  destruct a as [a1 a2], x as [x1 x2], y as [y1 y2].
  unfold manhattan. simpl. intros Hx Hy Hne.
  assert (x1 ≠ y1 ∨ x2 ≠ y2) as Hd.
  { destruct (decide (x1 = y1)) as [->|]; [|by left].
    right. intros ->. done. }
  lia.
Qed.

Lemma py_pos_of_nat len (k k' : nat) :
  py_pos len (Z.of_nat k) = Some k' → k' = k.
Proof. intros [_ Hk]%py_pos_Some. destruct (Z.of_nat k <? 0) eqn:?; lia. Qed.

Lemma end_place_source newc e k cands c' :
  py_pos (length newc) e = Some k →
  end_place newc e cands = Ok (Some c') →
  ∃ cand, cand ∈ cands ∧ c' = <[k := cand]> newc
          ∧ is_self_avoiding c' = true.
Proof.
  revert newc. induction cands as [|cand rest IH]; intros newc Hk; [done|].
  cbn [end_place]. unfold py_setitem. rewrite Hk.
  change (mbind ?f (Ok ?x)) with (f x). cbv beta.
  destruct (is_self_avoiding (<[k:=cand]> newc)) eqn:Hsa.
  - intros [= <-]. exists cand. split; [left|done].
  - intros Hrest. apply IH in Hrest as (cand' & Hin & -> & Hsa');
      [|by rewrite length_insert].
    exists cand'. split; [by right|].
    rewrite list_insert_insert_eq in *. done.
Qed.

Lemma corner_place_source coords i k cands c' :
  py_pos (length coords) i = Some k →
  corner_place coords i cands = Ok (Some c') →
  ∃ cand, cand ∈ cands ∧ c' = <[k := cand]> coords
          ∧ is_self_avoiding c' = true.
Proof.
  intros Hk. induction cands as [|cand rest IH]; [done|].
  cbn [corner_place]. unfold py_setitem. rewrite Hk.
  change (mbind ?f (Ok ?x)) with (f x). cbv beta.
  destruct (is_self_avoiding (<[k:=cand]> coords)) eqn:Hsa.
  - intros [= <-]. exists cand. split; [left|done].
  - intros (cand' & Hin & ? & ?)%IH. exists cand'. split; [by right|done].
Qed.

Lemma elem_of_end_candidates occ anchor cur cand :
  cand ∈ end_candidates occ anchor cur →
  cand ≠ cur ∧ manhattan anchor cand = 1.
Proof.
  unfold end_candidates. rewrite !list_elem_of_filter, elem_of_neighbours4.
  tauto.
Qed.

Lemma elem_of_corner_candidates occ im1 ip1 cur cand :
  cand ∈ corner_candidates occ im1 ip1 cur →
  cand ≠ cur ∧ manhattan im1 cand = 1 ∧ manhattan ip1 cand = 1.
Proof.
  unfold corner_candidates.
  rewrite !list_elem_of_filter, elem_of_elements, elem_of_intersection.
  rewrite !elem_of_list_to_set, !elem_of_neighbours4. tauto.
Qed.

Section move_sources.
Context `{Generator}.

Lemma rand_bind_Ok {A B} (m : Rand A) (k : A → Rand B) g b g' :
  rand_bind m k g = Ok (b, g') →
  ∃ a g1, m g = Ok (a, g1) ∧ k a g1 = Ok (b, g').
Proof.
  unfold rand_bind. destruct (m g) as [[a g1]|e]; [|done].
  intros Hk. by exists a, g1.
Qed.

Lemma lift_Ok {A} (r : result A) g a g' :
  lift r g = Ok (a, g') → r = Ok a ∧ g' = g.
Proof. unfold lift. destruct r; [|done]. by intros [= -> ->]. Qed.

Lemma rng_shuffle_Ok {A} (l : list A) g l' g' :
  rng_shuffle l g = Ok (l', g') → l' ≡ₚ l.
Proof.
  unfold rng_shuffle. intros [= Hg]. rewrite <- (gen_shuffle_perm A l g).
  by rewrite Hg.
Qed.

Lemma rng_permutation_Ok {A} (l : list A) g l' g' :
  rng_permutation l g = Ok (l', g') → l' ≡ₚ l.
Proof.
  unfold rng_permutation. intros [= Hg].
  rewrite <- (gen_permutation_perm A l g). by rewrite Hg.
Qed.

Lemma end_move_at_source C occ e g C' g' :
  connectivity C →
  e = 0 ∨ e = Z.of_nat (length C) - 1 →
  end_move_at C occ e g = Ok (Some C', g') → one_residue_moved C C'.
Proof.
  intros HC He. unfold end_move_at.
  intros (anchor & g1 & [Ha ->]%lift_Ok & Hrun)%rand_bind_Ok.
  apply rand_bind_Ok in Hrun as (cur & g2 & [Hcur ->]%lift_Ok & Hrun).
  apply rand_bind_Ok in Hrun as (cands & g3 & Hperm%rng_shuffle_Ok & Hrun).
  apply lift_Ok in Hrun as [Hplace _].
  apply py_index_Ok in Ha as (ka & Hka & Hanchor).
  apply py_index_Ok in Hcur as (k & Hk & Hold).
  apply (end_place_source _ _ k) in Hplace as (new & Hin & -> & Hsa);
    [|done].
  rewrite Hperm in Hin. apply elem_of_end_candidates in Hin as [Hne Hd].
  exists k, cur, new. repeat split; try done.
  apply (manhattan_two_neighbours anchor); [|done|done].
  apply py_pos_Some in Hka as [Hka_lt Hka], Hk as [Hk_lt Hk].
  destruct He as [-> | ->].
  - simpl in *. assert (ka = 1%nat ∧ k = 0%nat) as [-> ->] by lia.
    rewrite manhattan_sym. by eapply HC.
  - destruct (_ - 1 =? 0) eqn:He0.
    + apply Z.eqb_eq in He0. simpl in *.
      assert (length C = 1%nat) by lia. lia.
    + apply Z.eqb_neq in He0.
      destruct (_ - 1 <? 0) eqn:?; [lia|].
      destruct (_ - 2 <? 0) eqn:?; [lia|].
      assert (k = S ka) as -> by lia. by eapply HC.
Qed.

Lemma corner_move_at_source C occ i g C' g' :
  connectivity C → 1 <= i →
  corner_move_at C occ i g = Ok (Some C', g') → one_residue_moved C C'.
Proof.
  intros HC Hi. unfold corner_move_at.
  intros (im1 & g1 & [Him1 ->]%lift_Ok & Hrun)%rand_bind_Ok.
  apply rand_bind_Ok in Hrun as (ip1 & g2 & [Hip1 ->]%lift_Ok & Hrun).
  apply rand_bind_Ok in Hrun as (cur & g3 & [Hcur ->]%lift_Ok & Hrun).
  apply rand_bind_Ok in Hrun as (cands & g4 & Hperm%rng_shuffle_Ok & Hrun).
  apply lift_Ok in Hrun as [Hplace _].
  apply py_index_Ok in Him1 as (km & Hkm & Hm).
  apply py_index_Ok in Hcur as (k & Hk & Hold).
  apply (corner_place_source _ _ k) in Hplace as (new & Hin & -> & Hsa);
    [|done].
  rewrite Hperm in Hin.
  apply elem_of_corner_candidates in Hin as (Hne & Hd & _).
  exists k, cur, new. repeat split; try done.
  apply (manhattan_two_neighbours im1); [|done|done].
  apply py_pos_Some in Hkm as [_ Hkm], Hk as [_ Hk].
  destruct (i - 1 <? 0) eqn:?; [lia|]. destruct (i <? 0) eqn:?; [lia|].
  assert (k = S km) as -> by lia. by eapply HC.
Qed.

(** X11. On a connected chain a VSHD attempt that returns a proposal has
    moved exactly one residue, to a cell at Manhattan distance 2 from the
    one it was on (a diagonal step or two straight steps); every other
    residue stays, and the proposal passed [is_self_avoiding]. *)
Theorem vshd_moves_one_residue (C C' : Conf) (g g' : gen_state) :
  connectivity C →
  _attempt_vshd C g = Ok (Some C', g') →
  ∃ k old new,
    C !! k = Some old ∧ C' !! k = Some new
    ∧ new ≠ old ∧ manhattan old new = 2
    ∧ (∀ j, j ≠ k → C' !! j = C !! j)
    ∧ length C' = length C ∧ is_self_avoiding C' = true.
Proof.
  intros HC Hrun.
  apply _attempt_vshd_source in Hrun as (kind & g1 & Hkind & Hrun); [|done].
  assert (one_residue_moved C C') as (k & old & new & Hold & Hne & Hd & -> & Hsa).
  { destruct Hkind as [-> | ->]; simpl in Hrun.
    - unfold end_move in Hrun.
      apply rand_bind_Ok in Hrun as (ends & g2 & Hp%rng_permutation_Ok & Hrun).
      apply first_some_rand_source in Hrun as (e & g3 & He & Hrun).
      eapply end_move_at_source; [exact HC| |exact Hrun].
      rewrite Hp in He. apply elem_of_cons in He as [->|He]; [by left|].
      apply list_elem_of_singleton in He as ->. by right.
    - unfold corner_move in Hrun.
      apply rand_bind_Ok in Hrun as (order & g2 & Hp%rng_shuffle_Ok & Hrun).
      apply first_some_rand_source in Hrun as (i & g3 & Hi & Hrun).
      eapply corner_move_at_source; [exact HC| |exact Hrun].
      rewrite Hp in Hi. apply elem_of_py_range in Hi. lia. }
  exists k, old, new. apply lookup_lt_Some in Hold as Hlt.
  repeat split; try done.
  - by apply list_lookup_insert_eq.
  - intros j Hj. by apply list_lookup_insert_ne.
  - apply length_insert.
Qed.
End move_sources.

(** ** The pull move *)

Lemma py_pos_nonneg_inv len i k :
  0 <= i → py_pos len i = Some k → k = Z.to_nat i ∧ (k < len)%nat.
Proof.
  intros Hi [Hlt Hk]%py_pos_Some. destruct (i <? 0) eqn:?; lia.
Qed.

Lemma py_setitem_nonneg_Ok {A} (l l' : list A) i x :
  0 <= i → py_setitem l i x = Ok l' →
  l' = <[Z.to_nat i := x]> l ∧ (Z.to_nat i < length l)%nat.
Proof.
  intros Hi (k & Hk & ->)%py_setitem_Ok.
  by apply py_pos_nonneg_inv in Hk as [-> ?].
Qed.

Lemma first_some_source {X R} (body : X → result (option R)) xs v :
  first_some body xs = Ok (Some v) → ∃ x, x ∈ xs ∧ body x = Ok (Some v).
Proof.
  induction xs as [|x xs IH]; [done|]. simpl.
  intros ([r|] & Hb & Hrest)%rbind_Ok.
  - simplify_eq. exists x. split; [left|done].
  - apply IH in Hrest as (y & Hy & Hby). exists y. split; [by right|done].
Qed.

(** The propagation loop writes below index [m] only. *)
Lemma pull_propagate_frame old m newc occ valid newc' :
  pull_propagate old m newc occ = Ok (valid, newc') →
  length newc' = length newc
  ∧ ∀ k, (m ≤ k)%nat → newc' !! k = newc !! k.
Proof.
  revert newc occ. induction m as [|m IH]; intros newc occ.
  - simpl. by intros [= _ <-].
  - cbn [pull_propagate].
    intros (target & _ & Hrun)%rbind_Ok.
    apply rbind_Ok in Hrun as (cur & _ & Hrun).
    destruct (_ && _); [by simplify_eq|].
    apply rbind_Ok in Hrun as (newc1 & Hset & Hrun).
    apply rbind_Ok in Hrun as (_ & _ & Hrun).
    apply py_setitem_nonneg_Ok in Hset as [-> Hlt]; [|lia].
    apply IH in Hrun as [Hlen Hframe].
    rewrite length_insert in Hlen. split; [done|].
    intros k Hk. rewrite Hframe by lia.
    apply list_lookup_insert_ne. lia.
Qed.

(** One orientation of the pull at pivot [i]: the pivot goes to the cell
    [L], nothing above the pivot is written. *)
Lemma pull_shift_frame coords occ0 i pi pip1 sx sy c' :
  1 <= i →
  pull_shift coords occ0 i pi pip1 (sx, sy) = Ok (Some c') →
  c' !! Z.to_nat i = Some (pip1.1 + sx, pip1.2 + sy)
  ∧ length c' = length coords
  ∧ (∀ k, (Z.to_nat i < k)%nat → c' !! k = coords !! k)
  ∧ is_self_avoiding c' = true.
Proof.
  intros Hi. unfold pull_shift.
  destruct (_ && _); [done|].
  intros (corner & _ & Hrun)%rbind_Ok. destruct corner.
  { apply rbind_Ok in Hrun as (newc & Hset & Hgate).
    apply py_setitem_nonneg_Ok in Hset as [-> Hlt]; [|lia].
    destruct (is_self_avoiding _) eqn:Hsa; [|done]. simplify_eq.
    rewrite length_insert. repeat split; try done.
    - by apply list_lookup_insert_eq.
    - intros k Hk. apply list_lookup_insert_ne. lia. }
  destruct (bool_decide _); [done|].
  apply rbind_Ok in Hrun as (newc1 & Hset & Hrun).
  apply py_setitem_nonneg_Ok in Hset as [-> Hlt]; [|lia].
  apply rbind_Ok in Hrun as ([newc2 occ2] & Hprev & Hrun).
  assert (newc2 = <[Z.to_nat (i - 1) := (pi.1 + sx, pi.2 + sy)]>
                    (<[Z.to_nat i := (pip1.1 + sx, pip1.2 + sy)]> coords))
    as ->.
  { destruct (0 <=? i - 1) eqn:Hi1; [|apply Z.leb_gt in Hi1; lia].
    apply rbind_Ok in Hprev as (n2 & Hset & Hq).
    apply rbind_Ok in Hq as (q & _ & [= <- _]).
    by apply py_setitem_nonneg_Ok in Hset as [-> _]; [|lia]. }
  set (newc2 := <[Z.to_nat (i - 1) := _]> _) in *.
  assert (newc2 !! Z.to_nat i = Some (pip1.1 + sx, pip1.2 + sy)
          ∧ length newc2 = length coords
          ∧ ∀ k, (Z.to_nat i < k)%nat → newc2 !! k = coords !! k)
    as (Hpivot & Hlen & Hframe).
  { unfold newc2. rewrite !length_insert. repeat split.
    - rewrite list_lookup_insert_ne by lia. by apply list_lookup_insert_eq.
    - intros k Hk. rewrite !list_lookup_insert_ne by lia. done. }
  apply rbind_Ok in Hrun as (stop & _ & Hrun). destruct stop.
  { destruct (is_self_avoiding newc2) eqn:Hsa; [|done]. by simplify_eq. }
  apply rbind_Ok in Hrun as ([valid newc3] & Hprop & Hgate).
  apply pull_propagate_frame in Hprop as [Hlen3 Hframe3].
  destruct valid; simpl in Hgate; [|done].
  destruct (is_self_avoiding newc3) eqn:Hsa; [|done]. simplify_eq.
  repeat split; try done.
  - rewrite Hframe3 by lia. done.
  - congruence.
  - intros k Hk. rewrite Hframe3 by lia. by apply Hframe.
Qed.

Section pull_sources.
Context `{Generator}.

Lemma pull_at_source C occ0 i g C' g' :
  1 <= i → pull_at C occ0 i g = Ok (Some C', g') →
  ∃ old new, C !! Z.to_nat i = Some old ∧ C' !! Z.to_nat i = Some new
    ∧ manhattan old new = 2
    ∧ length C' = length C
    ∧ (∀ k, (Z.to_nat i < k)%nat → C' !! k = C !! k)
    ∧ is_self_avoiding C' = true.
Proof.
  intros Hi. unfold pull_at.
  intros (pi & g1 & [Hpi ->]%lift_Ok & Hrun)%rand_bind_Ok.
  apply rand_bind_Ok in Hrun as (pip1 & g2 & [Hpip1 ->]%lift_Ok & Hrun).
  destruct (negb _) eqn:Hunit; [done|].
  apply negb_false_iff, Z.eqb_eq in Hunit.
  apply rand_bind_Ok in Hrun as (shifts & g3 & Hperm%rng_shuffle_Ok & Hrun).
  apply lift_Ok in Hrun as [Hrun _].
  apply first_some_source in Hrun as ([sx sy] & Hs & Hrun).
  apply pull_shift_frame in Hrun as (Hnew & Hlen & Hframe & Hsa); [|done].
  apply py_index_Ok in Hpi as (k & Hk & Hold).
  apply py_pos_nonneg_inv in Hk as [-> _]; [|lia].
  eexists _, _. split; [exact Hold|]. split; [exact Hnew|].
  split; [|done].
  rewrite Hperm in Hs. destruct pi as [x y], pip1 as [a b].
  unfold manhattan. simpl in *.
  apply elem_of_cons in Hs as [[= -> ->]|Hs];
    [|apply list_elem_of_singleton in Hs as [= -> ->]]; lia.
Qed.

(** X12. A pull attempt that returns a proposal has moved its pivot residue
    [i], an interior residue, diagonally (to a cell at Manhattan distance
    2) and has written no residue above the pivot: the part of the chain
    after the pivot, and with it the last residue, stays where it was.
    The proposal has the length of the chain and passed
    [is_self_avoiding]. *)
Theorem pull_moves_pivot_keeps_tail (C C' : Conf) (g g' : gen_state) :
  _attempt_pull C g = Ok (Some C', g') →
  (3 ≤ length C)%nat
  ∧ (∃ i old new,
       (1 ≤ i)%nat ∧ (i + 1 < length C)%nat
       ∧ C !! i = Some old ∧ C' !! i = Some new ∧ manhattan old new = 2
       ∧ ∀ k, (i < k)%nat → C' !! k = C !! k)
  ∧ last C' = last C
  ∧ length C' = length C ∧ is_self_avoiding C' = true.
Proof.
  unfold _attempt_pull. destruct (_ <? 3) eqn:Hn; [done|].
  apply Z.ltb_ge in Hn.
  intros (order & g1 & Hperm%rng_shuffle_Ok & Hrun)%rand_bind_Ok.
  apply first_some_rand_source in Hrun as (i & g2 & Hi & Hrun).
  rewrite Hperm in Hi. apply elem_of_py_range in Hi.
  apply pull_at_source in Hrun
    as (old & new & Hold & Hnew & Hd & Hlen & Hframe & Hsa); [|lia].
  split; [lia|]. split; [|split; [|done]].
  - exists (Z.to_nat i), old, new. repeat split; try done; lia.
  - rewrite !last_lookup, Hlen. apply Hframe. lia.
Qed.
End pull_sources.

Lemma pull_moves_pivot_keeps_tail_witness :
  let C := [(0,0); (1,0); (2,0); (3,0)] in
  let C' := [(1,1); (2,1); (2,0); (3,0)] in
  @_attempt_pull counter_gen C 0%nat = Ok (Some C', 2%nat)
  ∧ (3 ≤ length C)%nat
  ∧ (∃ i old new,
       (1 ≤ i)%nat ∧ (i + 1 < length C)%nat
       ∧ C !! i = Some old ∧ C' !! i = Some new ∧ manhattan old new = 2
       ∧ ∀ k, (i < k)%nat → C' !! k = C !! k)
  ∧ last C' = last C
  ∧ length C' = length C ∧ is_self_avoiding C' = true.
Proof.
  intros C C'.
  assert (@_attempt_pull counter_gen C 0%nat = Ok (Some C', 2%nat)) as Hrun
    by (vm_compute; reflexivity).
  split; [exact Hrun|].
  exact (@pull_moves_pivot_keeps_tail counter_gen C C' 0%nat 2%nat Hrun).
Defined.

Lemma vshd_moves_one_residue_witness :
  let C := [(0,0); (1,0); (2,0)] in
  let C' := [(0,0); (1,0); (1,1)] in
  connectivity C
  ∧ @_attempt_vshd counter_gen C 0%nat = Ok (Some C', 3%nat)
  ∧ ∃ k old new,
      C !! k = Some old ∧ C' !! k = Some new
      ∧ new ≠ old ∧ manhattan old new = 2
      ∧ (∀ j, j ≠ k → C' !! j = C !! j)
      ∧ length C' = length C ∧ is_self_avoiding C' = true.
Proof.
  intros C C'.
  assert (connectivity C) as HC by (apply chain_connected_spec; reflexivity).
  assert (@_attempt_vshd counter_gen C 0%nat = Ok (Some C', 3%nat)) as Hrun
    by (vm_compute; reflexivity).
  split; [exact HC|]. split; [exact Hrun|].
  exact (@vshd_moves_one_residue counter_gen C C' 0%nat 3%nat HC Hrun).
Defined.

(** ** Chains of fewer than two or three residues *)

Lemma py_index_out {A} (l : list A) i :
  i < - Z.of_nat (length l) ∨ Z.of_nat (length l) <= i →
  py_index l i = Raise IndexError.
Proof.
  intros Hi. unfold py_index, py_pos. cbv zeta.
  destruct (i <? 0) eqn:Hneg;
    [apply Z.ltb_lt in Hneg | apply Z.ltb_ge in Hneg];
    (destruct (_ && _) eqn:Hb; [|done]);
    apply andb_true_iff in Hb as [?%Z.leb_le ?%Z.ltb_lt]; lia.
Qed.

Section short_chains.
Context `{Generator}.

(** A first-success loop one of whose bodies raises, the others raising
    the same or finding nothing, raises. *)
Lemma first_some_rand_raises {X R} (body : X → Rand (option R)) bad e xs :
  bad ∈ xs →
  (∀ g, body bad g = Raise e) →
  (∀ x g, x ∈ xs → body x g = Raise e ∨ ∃ g', body x g = Ok (None, g')) →
  ∀ g, first_some_rand body xs g = Raise e.
Proof.
  intros Hbad Hraise Hnone. induction xs as [|x xs IH]; intros g.
  { by apply elem_of_nil in Hbad. }
  cbn [first_some_rand]. unfold rand_bind at 1.
  destruct (Hnone x g) as [->|(g' & Hx)]; [left|done|].
  rewrite Hx. apply IH.
  - apply elem_of_cons in Hbad as [->|]; [|done].
    by rewrite Hraise in Hx.
  - intros y g1 Hy. apply Hnone. by right.
Qed.

Lemma rng_shuffle_nil {A} g :
  ∃ g', rng_shuffle (@nil A) g = Ok ([], g').
Proof.
  unfold rng_shuffle. pose proof (gen_shuffle_perm A [] g) as Hp.
  destruct (gen_shuffle [] g) as [l g']. apply Permutation_nil_r in Hp.
  simpl in Hp. subst. by exists g'.
Qed.

Lemma end_move_at_short C occ e g :
  (length C < 2)%nat → e = 0 ∨ e = Z.of_nat (length C) - 1 →
  end_move_at C occ e g = Raise IndexError.
Proof.
  intros Hn He. unfold end_move_at, rand_bind, lift.
  rewrite py_index_out; [done|].
  destruct (e =? 0) eqn:He0; [lia|]. apply Z.eqb_neq in He0. lia.
Qed.

Lemma end_move_short C occ g :
  (length C < 2)%nat → end_move C occ g = Raise IndexError.
Proof.
  intros Hn. unfold end_move, rand_bind, rng_permutation.
  pose proof (gen_permutation_perm _ [0; Z.of_nat (length C) - 1] g) as Hp.
  destruct (gen_permutation _ g) as [ends g1]. simpl in Hp.
  destruct ends as [|e ends]; [by apply Permutation_nil_cons in Hp|].
  cbn [first_some_rand]. unfold rand_bind.
  rewrite end_move_at_short; [done..|].
  assert (e ∈ [0; Z.of_nat (length C) - 1]) as He by (rewrite <- Hp; left).
  apply elem_of_cons in He as [->|He]; [by left|].
  apply list_elem_of_singleton in He. by right.
Qed.

Lemma corner_move_short C occ g :
  (length C < 3)%nat → ∃ g', corner_move C occ g = Ok (None, g').
Proof.
  intros Hn. unfold corner_move, rand_bind. rewrite py_range_nil by lia.
  destruct (rng_shuffle_nil (A:=Z) g) as (g' & ->). by exists g'.
Qed.

Lemma crankshaft_move_short C g :
  (length C < 4)%nat → ∃ g', crankshaft_move C g = Ok (None, g').
Proof.
  intros Hn. unfold crankshaft_move, rand_bind. rewrite py_range_nil by lia.
  destruct (rng_shuffle_nil (A:=Z) g) as (g' & ->). by exists g'.
Qed.

Lemma _attempt_vshd_short C g :
  (length C < 2)%nat → _attempt_vshd C g = Raise IndexError.
Proof.
  intros Hn. unfold _attempt_vshd, rand_bind at 1. unfold rng_shuffle.
  pose proof (gen_shuffle_perm _ [KEnd; KCorner; KCrankshaft] g) as Hp.
  destruct (gen_shuffle _ g) as [kinds g1]. simpl in Hp.
  apply (first_some_rand_raises _ KEnd).
  - rewrite Hp. left.
  - intros g2. by apply end_move_short.
  - intros [] g2 _; simpl.
    + left. by apply end_move_short.
    + right. apply corner_move_short. lia.
    + right. apply crankshaft_move_short. lia.
Qed.

Lemma _attempt_pull_short C g :
  (length C < 3)%nat → _attempt_pull C g = Ok (None, g).
Proof.
  intros Hn. unfold _attempt_pull.
  destruct (_ <? 3) eqn:Hlt; [done|]. apply Z.ltb_ge in Hlt. lia.
Qed.

Lemma attempt_move_short rho C mode g :
  (length C < 2)%nat → known_mode mode = true →
  attempt_move rho C mode g
  = if String.eqb mode "pull" then Ok (None, g) else Raise IndexError.
Proof.
  intros Hn Hmode. unfold attempt_move. rewrite Hmode. simpl.
  destruct (String.eqb mode "vshd") eqn:Hv.
  { apply String.eqb_eq in Hv as ->. simpl. by apply _attempt_vshd_short. }
  destruct (String.eqb mode "pull"); [apply _attempt_pull_short; lia|].
  unfold rand_bind at 1. unfold rng_random.
  destruct (gen_random g) as [u g1].
  destruct (PrimFloat.ltb u rho); unfold rand_bind.
  - rewrite _attempt_pull_short by lia. by apply _attempt_vshd_short.
  - by rewrite _attempt_vshd_short.
Qed.
End short_chains.

Section short_runs.
Context `{Generator} `{Numeric}.

Lemma run_mc_short hp_seq steps temperature move_mode rho seed :
  (String.length hp_seq < 2)%nat → 1 <= steps →
  known_mode move_mode = true → String.eqb move_mode "pull" = false →
  seed_accepted seed = true →
  run_mc hp_seq steps temperature move_mode rho seed = Raise IndexError.
Proof.
  intros Hn Hs Hmode Hpull Hseed. unfold run_mc, default_rng.
  rewrite Hseed. simpl. rewrite energy_hp_line. simpl.
  unfold py_range.
  destruct (Z.to_nat (Z.min steps 10000 - 0)) as [|k] eqn:Hk; [lia|].
  simpl. unfold rand_bind at 1. unfold mc_step at 1.
  unfold rand_bind at 1. cbn [mc_coords].
  rewrite attempt_move_short, Hpull; [done| |done].
  by rewrite length_initial_line.
Qed.

Lemma run_remc_short hp_seq steps n_replicas tmin tmax exchange_every
    move_mode rho seed :
  (String.length hp_seq < 2)%nat → 1 <= steps →
  known_mode move_mode = true → String.eqb move_mode "pull" = false →
  seed_accepted seed = true →
  run_remc hp_seq steps n_replicas tmin tmax exchange_every move_mode rho seed
  = Raise IndexError.
Proof.
  intros Hn Hs Hmode Hpull Hseed. unfold run_remc, default_rng.
  rewrite Hseed. simpl. rewrite energy_hp_line. simpl.
  unfold py_range at 1.
  destruct (Z.to_nat (Z.min steps 10000 + 1 - 1)) as [|k] eqn:Hk; [lia|].
  simpl. unfold rand_bind at 1. unfold remc_step at 1.
  unfold rand_bind at 1. unfold py_range at 1.
  destruct (Z.to_nat (Z.max 2 n_replicas - 0)) as [|m] eqn:Hm; [lia|].
  simpl. unfold rand_bind at 1. unfold replica_move at 1.
  unfold rand_bind at 1. simpl.
  rewrite py_index_replicate by lia. simpl.
  unfold rand_bind at 1.
  rewrite attempt_move_short, Hpull; [done| |done].
  by rewrite length_initial_line.
Qed.

(** The step loop of [run_mc] when no attempt finds a proposal. *)
Lemma mc_loop_pull_short hp_seq temperature rho xs st g :
  (length (mc_coords st) < 3)%nat →
  for_rand (mc_step hp_seq temperature "pull" rho) xs st g
  = Ok ({| mc_coords := mc_coords st; mc_E := mc_E st;
           mc_best_coords := mc_best_coords st; mc_best_E := mc_best_E st;
           mc_energies := mc_energies st ++ replicate (length xs) (mc_E st);
           mc_best_energies :=
             mc_best_energies st ++ replicate (length xs) (mc_best_E st) |},
        g).
Proof.
  intros Hn. revert st Hn. induction xs as [|x xs IH]; intros st Hn.
  - simpl. rewrite !app_nil_r. by destruct st.
  - cbn [for_rand]. unfold rand_bind at 1. unfold mc_step at 1.
    unfold rand_bind at 1. unfold attempt_move. simpl.
    rewrite _attempt_pull_short by done. unfold rand_ret at 1.
    rewrite IH by done. simpl. by rewrite <- !app_assoc.
Qed.

(** X13. A chain of fewer than two residues makes the VSHD end move read
    [coords[1]] or [coords[-2]]: in the modes vshd and hybrid every move
    attempt raises [IndexError], from every generator state, and so does
    each driver, started with a seed that [default_rng] accepts, as soon
    as one step runs on a sequence of fewer than two letters. *)
Theorem short_chain_raises_IndexError
    (hp_seq : string) (steps n_replicas : Z) (temperature tmin tmax : float)
    (exchange_every : Z) (move_mode : string) (rho : float) (seed : option Z) :
  known_mode move_mode = true → String.eqb move_mode "pull" = false →
  (∀ C g, (length C < 2)%nat →
     attempt_move rho C move_mode g = Raise IndexError)
  ∧ (seed_accepted seed = true →
     (String.length hp_seq < 2)%nat → 1 <= steps →
     run_mc hp_seq steps temperature move_mode rho seed = Raise IndexError
     ∧ run_remc hp_seq steps n_replicas tmin tmax exchange_every
         move_mode rho seed = Raise IndexError).
Proof.
  intros Hmode Hpull. split.
  - intros C g Hn. by rewrite attempt_move_short, Hpull.
  - intros Hseed Hn Hs.
    split; [by apply run_mc_short | by apply run_remc_short].
Qed.

(** X14. The pull move needs three residues.  On a shorter chain an attempt
    in mode pull returns no proposal and draws nothing, and [run_mc] in
    mode pull on a sequence of fewer than three letters, started with a
    seed that [default_rng] accepts, returns the straight line it started
    from, with traces made of zeros. *)
Theorem pull_needs_three_residues
    (hp_seq : string) (steps : Z) (temperature : float) (rho : float)
    (seed : option Z) :
  (String.length hp_seq < 3)%nat →
  (∀ C g, (length C < 3)%nat → attempt_move rho C "pull" g = Ok (None, g))
  ∧ (seed_accepted seed = true →
     run_mc hp_seq steps temperature "pull" rho seed
     = Ok {| final_coords := initial_line (String.length hp_seq);
             best_coords := initial_line (String.length hp_seq);
             energies := replicate (effective_steps steps) 0;
             best_energies := replicate (effective_steps steps) 0;
             best_energy := 0 |}).
Proof.
  intros Hn. split.
  - intros C g HC. unfold attempt_move. simpl. by apply _attempt_pull_short.
  - intros Hseed. unfold run_mc, default_rng. rewrite Hseed. simpl.
    rewrite energy_hp_line. simpl.
    rewrite mc_loop_pull_short by (simpl; by rewrite length_initial_line).
    simpl. done.
Qed.
End short_runs.

Lemma short_chain_raises_IndexError_witness :
  (∀ C g, (length C < 2)%nat →
     @attempt_move counter_gen 0.5 C "hybrid" g = Raise IndexError)
  ∧ @run_mc counter_gen series_numeric "H" 5 1 "hybrid" 0.5 (Some 1)
    = Raise IndexError
  ∧ @run_remc counter_gen series_numeric "H" 5 3 0.5 2 2 "hybrid" 0.5
      (Some 1) = Raise IndexError.
Proof.
  destruct (@short_chain_raises_IndexError counter_gen series_numeric
              "H" 5 3 1 0.5 2 2 "hybrid" 0.5 (Some 1) eq_refl eq_refl)
    as [Hmove Hrun].
  split; [exact Hmove|].
  apply Hrun; [reflexivity | simpl; lia | lia].
Defined.

Lemma pull_needs_three_residues_witness :
  (∀ C g, (length C < 3)%nat →
     @attempt_move counter_gen 0.5 C "pull" g = Ok (None, g))
  ∧ @run_mc counter_gen series_numeric "HH" 2 1 "pull" 0.5 None
    = Ok {| final_coords := [(0,0); (1,0)];
            best_coords := [(0,0); (1,0)];
            energies := [0; 0]; best_energies := [0; 0];
            best_energy := 0 |}.
Proof.
  destruct (@pull_needs_three_residues counter_gen series_numeric
              "HH" 2 1 0.5 None) as [Hmove Hrun]; [simpl; lia|].
  split; [exact Hmove|]. apply Hrun. reflexivity.
Defined.

(** ** What the drivers keep about the current conformation *)

Lemma Forall2_le_lookup l1 l2 k b e :
  Forall2 Z.le l1 l2 → l1 !! k = Some b → l2 !! k = Some e → b <= e.
Proof. intros Hall Hb He. by eapply (Forall2_lookup_lr _ _ _ _ _ _ Hall). Qed.

Lemma is_self_avoiding_initial_line n :
  is_self_avoiding (initial_line n) = true.
Proof.
  apply is_self_avoiding_spec. split;
    [apply connectivity_initial_line | apply NoDup_initial_line].
Qed.

Section attempt_yields.
Context `{Generator}.

Lemma draws_determines {A} (P : A → Prop) (m : Rand A) :
  draws P m → yields P m.
Proof.
  intros Hm g a g' Hg. destruct (Hm g) as (a' & g1 & Ha & HP).
  rewrite Ha in Hg. by simplify_eq.
Qed.

(** Whatever the chain and the mode: a proposal that comes back has the
    length of the chain and passes [is_self_avoiding]. *)
Lemma attempt_move_yields rho C mode :
  yields (proposal_ok (length C)) (attempt_move rho C mode).
Proof.
  destruct (known_mode mode) eqn:Hmode.
  - destruct (decide (2 ≤ length C)%nat) as [Hn|Hn].
    + by apply draws_determines, attempt_move_ok.
    + intros g o g'. rewrite attempt_move_short by (done || lia).
      destruct (String.eqb mode "pull"); [|done].
      intros [= <- _]. apply proposal_ok_None.
  - intros g o g'. by rewrite attempt_move_unknown.
Qed.
End attempt_yields.

Section mc_valid.
Context `{Generator} `{Numeric}.

Lemma mc_step_valid hp_seq temperature move_mode rho st t :
  mc_valid hp_seq st →
  yields (λ st', mc_valid hp_seq st' ∧ mc_energies st' ≠ [])
         (mc_step hp_seq temperature move_mode rho st t).
Proof.
  intros (Hlen & Hsa & HE & Hblen & Hbsa & Hle & Htr & Hneg & _).
  assert (∀ s, length (mc_coords s) = String.length hp_seq →
               is_self_avoiding (mc_coords s) = true →
               energy_hp (mc_coords s) hp_seq = Ok (mc_E s) →
               length (mc_best_coords s) = String.length hp_seq →
               is_self_avoiding (mc_best_coords s) = true →
               mc_best_E s <= mc_E s →
               mc_energies s = mc_energies st →
               mc_best_energies s = mc_best_energies st →
               mc_valid hp_seq (mc_trace s) ∧ mc_energies (mc_trace s) ≠ [])
    as Htrace.
  { intros s ? ? HEs ? ? ? Hen Hben. unfold mc_valid, mc_trace. simpl.
    rewrite Hen, Hben. split; [|by destruct (mc_energies st)].
    repeat split; try done.
    - apply Forall2_app; [done|]. by repeat constructor.
    - apply Forall_app. split; [done|]. repeat constructor.
      by eapply energy_hp_nonpos.
    - intros _. apply last_snoc. }
  unfold mc_step.
  eapply yields_bind; [apply attempt_move_yields|]. rewrite Hlen.
  intros [proposal|] Hp; [|by apply yields_ret, Htrace].
  destruct (Hp proposal eq_refl) as [Hpsa Hplen].
  eapply yields_bind;
    [apply (yields_lift (λ e, energy_hp proposal hp_seq = Ok e)); auto|].
  intros E_new HEn. eapply yields_bind; [apply yields_any|].
  intros [] _; apply yields_ret; [|by apply Htrace].
  unfold mc_accept.
  destruct (E_new <? mc_best_E st) eqn:Hlt;
    [apply Z.ltb_lt in Hlt | apply Z.ltb_ge in Hlt];
    apply Htrace; simpl; try done; lia.
Qed.

Lemma run_mc_valid hp_seq steps temperature move_mode rho seed res :
  run_mc hp_seq steps temperature move_mode rho seed = Ok res →
  result_valid hp_seq res
  ∧ traces_ordered res
  ∧ ∃ E, energy_hp (final_coords res) hp_seq = Ok E
         ∧ best_energy res <= E
         ∧ (energies res ≠ [] → last (energies res) = Some E).
Proof.
  unfold run_mc, default_rng. destruct (seed_accepted seed); [|done].
  simpl. rewrite energy_hp_line. simpl.
  set (st0 := {| mc_coords := _ |}).
  destruct (for_rand _ _ st0 _) as [[st g]|] eqn:Hloop; [|done].
  simpl. intros [= <-].
  assert (mc_valid hp_seq st0) as Hst0.
  { unfold mc_valid, st0. simpl.
    rewrite length_initial_line, is_self_avoiding_initial_line,
      energy_hp_line.
    repeat split; done. }
  apply (yields_for (mc_valid hp_seq)) in Hloop; [| |done].
  2:{ intros s x _ Hs. eapply yields_mono; [|by apply mc_step_valid].
      by intros s' [? _]. }
  destruct Hloop as (Hlen & Hsa & HE & Hblen & Hbsa & Hle & Htr & Hneg & Hl).
  unfold result_valid, traces_ordered. simpl.
  split; [done|]. split; [|by exists (mc_E st)].
  intros k b e Hb He. split; [by eapply Forall2_le_lookup|].
  by eapply (Forall_lookup_1 _ _ _ _ Hneg).
Qed.
End mc_valid.

Lemma replica_valid_le hp_seq best best' c e :
  best' <= best → replica_valid hp_seq best c e →
  replica_valid hp_seq best' c e.
Proof. intros Hle (? & ? & ? & ?). repeat split; try done. lia. Qed.

Lemma swap_replicas_valid hp_seq st i j st' :
  remc_valid hp_seq st → swap_replicas st i j = Ok st' →
  remc_valid hp_seq st'.
Proof.
  intros (Hrep & Hblen & Hbsa & HbE & Htr & Hneg). unfold swap_replicas.
  pose proof (Forall2_length _ _ _ Hrep) as Hlen.
  intros (cj & (kj & Hkj & Hcj)%py_index_Ok & Hrun)%rbind_Ok.
  apply rbind_Ok in Hrun as (ci & (ki & Hki & Hci)%py_index_Ok & Hrun).
  apply rbind_Ok in Hrun as (rc1 & (ki1 & Hki1 & ->)%py_setitem_Ok & Hrun).
  apply rbind_Ok in Hrun as (rc2 & (kj1 & Hkj1 & ->)%py_setitem_Ok & Hrun).
  apply rbind_Ok in Hrun as (Ej & (kj2 & Hkj2 & HEj)%py_index_Ok & Hrun).
  apply rbind_Ok in Hrun as (Ei & (ki2 & Hki2 & HEi)%py_index_Ok & Hrun).
  apply rbind_Ok in Hrun as (rE1 & (ki3 & Hki3 & ->)%py_setitem_Ok & Hrun).
  apply rbind_Ok in Hrun as (rE2 & (kj3 & Hkj3 & ->)%py_setitem_Ok & Hrun).
  rewrite length_insert in Hkj1. rewrite length_insert in Hkj3.
  rewrite <- Hlen in Hkj2, Hki2, Hki3, Hkj3.
  simplify_eq. unfold remc_valid. simpl.
  repeat split; try done.
  apply Forall2_insert; [apply Forall2_insert; [done|]|].
  - by eapply (Forall2_lookup_lr _ _ _ _ _ _ Hrep).
  - by eapply (Forall2_lookup_lr _ _ _ _ _ _ Hrep).
Qed.

Lemma remc_trace_valid hp_seq st st' :
  remc_valid hp_seq st → remc_trace st = Ok st' → remc_valid hp_seq st'.
Proof.
  intros (Hrep & Hblen & Hbsa & HbE & Htr & Hneg). unfold remc_trace.
  intros (E0 & (k & _ & HE0)%py_index_Ok & [= <-])%rbind_Ok.
  destruct (Forall2_lookup_r _ _ _ _ _ Hrep HE0)
    as (c & _ & _ & _ & HEc & Hle).
  unfold remc_valid. simpl. repeat split; try done.
  - apply Forall2_app; [done|]. by repeat constructor.
  - apply Forall_app. split; [done|]. repeat constructor.
    by eapply energy_hp_nonpos.
Qed.

Section remc_valid.
Context `{Generator} `{Numeric}.

Lemma replica_move_valid hp_seq move_mode rho st r :
  remc_valid hp_seq st →
  yields (remc_valid hp_seq) (replica_move hp_seq move_mode rho st r).
Proof.
  intros Hst. pose proof Hst as (Hrep & Hblen & Hbsa & HbE & Htr & Hneg).
  pose proof (Forall2_length _ _ _ Hrep) as Hlen.
  unfold replica_move.
  eapply yields_bind;
    [apply (yields_lift (λ c, py_index (replicas_coords st) r = Ok c));
     auto|].
  intros cr (k & Hk & Hcr)%py_index_Ok.
  destruct (Forall2_lookup_l _ _ _ _ _ Hrep Hcr) as (Er0 & _ & Hcrlen & _).
  eapply yields_bind; [apply attempt_move_yields|]. rewrite Hcrlen.
  intros [prop|] Hp; [|by apply yields_ret].
  destruct (Hp prop eq_refl) as [Hpsa Hplen].
  eapply yields_bind;
    [apply (yields_lift (λ e, energy_hp prop hp_seq = Ok e)); auto|].
  intros E_new HEn.
  eapply yields_bind; [apply yields_any|]. intros Er _.
  eapply yields_bind; [apply yields_any|]. intros Tr _.
  eapply yields_bind; [apply yields_any|]. intros [] _;
    [|by apply yields_ret].
  eapply yields_bind;
    [apply (yields_lift
              (λ rc, py_setitem (replicas_coords st) r prop = Ok rc)); auto|].
  intros rc (k1 & Hk1 & ->)%py_setitem_Ok.
  eapply yields_bind;
    [apply (yields_lift
              (λ rE, py_setitem (replicas_E st) r E_new = Ok rE)); auto|].
  intros rE (k2 & Hk2 & ->)%py_setitem_Ok.
  rewrite <- Hlen in Hk2. simplify_eq.
  apply yields_ret. unfold remc_valid. simpl.
  destruct (E_new <? rs_best_E st) eqn:Hlt;
    [apply Z.ltb_lt in Hlt | apply Z.ltb_ge in Hlt];
    (split; [|done]); apply Forall2_insert;
    try (by repeat split; try done; lia).
  eapply Forall2_impl; [done|]. intros c e. apply replica_valid_le. lia.
Qed.

Lemma exchange_pair_valid hp_seq st i :
  remc_valid hp_seq st → yields (remc_valid hp_seq) (exchange_pair st i).
Proof.
  intros Hst. unfold exchange_pair.
  do 4 (eapply yields_bind; [apply yields_any|]; intros ? _).
  eapply yields_bind; [apply yields_any|]. intros u _.
  destruct (PrimFloat.ltb _ _); [|by apply yields_ret].
  apply yields_lift. intros st'. by apply swap_replicas_valid.
Qed.

Lemma exchange_sweep_valid hp_seq n_replicas st :
  remc_valid hp_seq st →
  yields (remc_valid hp_seq) (exchange_sweep n_replicas st).
Proof.
  intros Hst. unfold exchange_sweep. eapply yields_bind.
  - apply (yields_for (remc_valid hp_seq)); [|done].
    intros. by apply exchange_pair_valid.
  - intros st' Hst'. by apply yields_ret.
Qed.

Lemma remc_step_valid hp_seq n_replicas exchange_every move_mode rho st step :
  remc_valid hp_seq st →
  yields (remc_valid hp_seq)
    (remc_step hp_seq n_replicas exchange_every move_mode rho st step).
Proof.
  intros Hst. unfold remc_step.
  eapply yields_bind.
  { apply (yields_for (remc_valid hp_seq)); [|done].
    intros. by apply replica_move_valid. }
  intros st1 Hst1.
  eapply yields_bind.
  { apply (yields_lift (remc_valid hp_seq)). intros st2.
    by apply remc_trace_valid. }
  intros st2 Hst2.
  destruct (exchange_every =? 0); [by apply yields_lift|].
  destruct (step mod exchange_every =? 0); [|by apply yields_ret].
  by apply exchange_sweep_valid.
Qed.

Lemma run_remc_valid hp_seq steps n_replicas tmin tmax exchange_every
    move_mode rho seed res :
  run_remc hp_seq steps n_replicas tmin tmax exchange_every move_mode rho seed
  = Ok res →
  result_valid hp_seq res
  ∧ traces_ordered res
  ∧ energy_hp (final_coords res) hp_seq = Ok (best_energy res).
Proof.
  unfold run_remc, default_rng. destruct (seed_accepted seed); [|done].
  simpl. rewrite energy_hp_line. simpl.
  set (st0 := {| replicas_coords := _ |}).
  destruct (for_rand _ _ st0 _) as [[st g]|] eqn:Hloop; [|done]. simpl.
  destruct (py_index (replicas_coords st) 0) as [fc|] eqn:Hfc; [|done].
  simpl.
  destruct (py_index (replicas_E st) 0) as [fE|] eqn:HfE; [|done]. simpl.
  intros [= <-]. simpl.
  assert (remc_valid hp_seq st0) as Hst0.
  { unfold remc_valid, st0. simpl.
    rewrite length_initial_line, is_self_avoiding_initial_line,
      energy_hp_line.
    repeat split; try done.
    apply Forall2_replicate. unfold replica_valid.
    rewrite length_initial_line, is_self_avoiding_initial_line,
      energy_hp_line. done. }
  apply (yields_for (remc_valid hp_seq)) in Hloop; [| |done].
  2:{ intros s x _ Hs. by apply remc_step_valid. }
  destruct Hloop as (Hrep & Hblen & Hbsa & HbE & Htr & Hneg).
  pose proof (Forall2_length _ _ _ Hrep) as Hlen.
  apply py_index_Ok in Hfc as (k & Hk & Hfc).
  apply py_index_Ok in HfE as (k' & Hk' & HfE).
  rewrite <- Hlen in Hk'. simplify_eq.
  destruct (Forall2_lookup_lr _ _ _ _ _ _ Hrep Hfc HfE)
    as (Hfl & Hfsa & HfEn & Hle).
  unfold result_valid, traces_ordered. simpl.
  destruct (rs_best_E st <? fE) eqn:Hlt;
    [apply Z.ltb_lt in Hlt | apply Z.ltb_ge in Hlt].
  - repeat split; try done.
    + by eapply Forall2_le_lookup.
    + by eapply (Forall_lookup_1 _ _ _ _ Hneg).
  - replace (rs_best_E st) with fE by lia.
    repeat split; try done.
    + eapply Forall2_le_lookup; [done| |done]. done.
    + by eapply (Forall_lookup_1 _ _ _ _ Hneg).
Qed.
End remc_valid.

(** ** The exchange period and the exchange sweep *)

Lemma insert_head_Permutation {A} (l : list A) j a y :
  l !! j = Some y → y :: <[j:=a]> l ≡ₚ a :: l.
Proof.
  revert j. induction l as [|b l IH]; intros [|j] Hj; simplify_eq/=.
  - apply perm_swap.
  - rewrite perm_swap. rewrite (IH j Hj). apply perm_swap.
Qed.

(** Writing each of two entries of a list into the slot of the other
    permutes the list. *)
Lemma insert_swap_Permutation {A} (l : list A) i j x y :
  l !! i = Some x → l !! j = Some y → <[j:=x]> (<[i:=y]> l) ≡ₚ l.
Proof.
  revert i j. induction l as [|a l IH]; intros [|i] [|j] Hi Hj;
    simplify_eq/=; try done.
  - by apply insert_head_Permutation.
  - by apply insert_head_Permutation.
  - by rewrite IH.
Qed.

Lemma swap_replicas_Permutation st i j st' :
  0 <= i → 0 <= j →
  swap_replicas st i j = Ok st' →
  zip (replicas_coords st') (replicas_E st')
    ≡ₚ zip (replicas_coords st) (replicas_E st)
  ∧ rs_even st' = rs_even st.
Proof.
  intros Hi Hj. unfold swap_replicas.
  intros (cj & (kj & Hkj & Hcj)%py_index_Ok & Hrun)%rbind_Ok.
  apply rbind_Ok in Hrun as (ci & (ki & Hki & Hci)%py_index_Ok & Hrun).
  apply rbind_Ok in Hrun as (rc1 & (ki1 & Hki1 & ->)%py_setitem_Ok & Hrun).
  apply rbind_Ok in Hrun as (rc2 & (kj1 & Hkj1 & ->)%py_setitem_Ok & Hrun).
  apply rbind_Ok in Hrun as (Ej & (kj2 & Hkj2 & HEj)%py_index_Ok & Hrun).
  apply rbind_Ok in Hrun as (Ei & (ki2 & Hki2 & HEi)%py_index_Ok & Hrun).
  apply rbind_Ok in Hrun as (rE1 & (ki3 & Hki3 & ->)%py_setitem_Ok & Hrun).
  apply rbind_Ok in Hrun as (rE2 & (kj3 & Hkj3 & ->)%py_setitem_Ok & Hrun).
  apply py_pos_nonneg_inv in Hkj as [-> _]; [|done].
  apply py_pos_nonneg_inv in Hki as [-> _]; [|done].
  apply py_pos_nonneg_inv in Hki1 as [-> _]; [|done].
  apply py_pos_nonneg_inv in Hkj1 as [-> _]; [|done].
  apply py_pos_nonneg_inv in Hkj2 as [-> _]; [|done].
  apply py_pos_nonneg_inv in Hki2 as [-> _]; [|done].
  apply py_pos_nonneg_inv in Hki3 as [-> _]; [|done].
  apply py_pos_nonneg_inv in Hkj3 as [-> _]; [|done].
  simplify_eq. cbn [replicas_coords replicas_E rs_even]. split; [|done].
  rewrite <- !insert_zip_with.
  apply insert_swap_Permutation; rewrite lookup_zip_with.
  - by rewrite Hci, HEi.
  - by rewrite Hcj, HEj.
Qed.

Section sweep.
Context `{Generator} `{Numeric}.

Lemma exchange_pair_Permutation st i :
  0 <= i →
  yields (λ st', zip (replicas_coords st') (replicas_E st')
                   ≡ₚ zip (replicas_coords st) (replicas_E st)
                 ∧ rs_even st' = rs_even st)
         (exchange_pair st i).
Proof.
  intros Hi. unfold exchange_pair.
  do 4 (eapply yields_bind; [apply yields_any|]; intros ? _).
  eapply yields_bind; [apply yields_any|]. intros u _.
  destruct (PrimFloat.ltb _ _); [|by apply yields_ret].
  apply yields_lift. intros st'. apply swap_replicas_Permutation; lia.
Qed.

(** X15. An exchange sweep only permutes the replicas.  The pairs
    (conformation, energy) held by the replica slots after the sweep are
    those held before it, in some order; the temperature ladder, the best
    record and the two traces are untouched, and the parity flag is
    flipped. *)
Theorem exchange_sweep_permutes_replicas
    (n_replicas : Z) (st st' : remc_state) (g g' : gen_state) :
  exchange_sweep n_replicas st g = Ok (st', g') →
  zip (replicas_coords st') (replicas_E st')
    ≡ₚ zip (replicas_coords st) (replicas_E st)
  ∧ same_record st st'
  ∧ rs_even st' = negb (rs_even st).
Proof.
  intros Hrun.
  pose proof (exchange_sweep_record _ _ _ _ _ Hrun) as Hrec.
  revert Hrun. unfold exchange_sweep.
  intros (st1 & g1 & Hloop & [= <- _])%rand_bind_Ok.
  cbn [flip_even replicas_coords replicas_E rs_even].
  assert (zip (replicas_coords st1) (replicas_E st1)
            ≡ₚ zip (replicas_coords st) (replicas_E st)
          ∧ rs_even st1 = rs_even st) as [Hperm Heven].
  { revert Hloop.
    apply (yields_for_rel
             (λ s s', zip (replicas_coords s') (replicas_E s')
                        ≡ₚ zip (replicas_coords s) (replicas_E s)
                      ∧ rs_even s' = rs_even s)).
    - done.
    - intros a b c [Hab Hab'] [Hbc Hbc']. split; [by rewrite Hbc|congruence].
    - intros s i Hi%elem_of_py_range2. apply exchange_pair_Permutation.
      destruct (rs_even st); lia. }
  split; [done|]. split; [done|]. by rewrite Heven.
Qed.
End sweep.

Lemma exchange_sweep_permutes_replicas_witness :
  let st' :=
    {| replicas_coords := [[(0,0); (1,0); (1,1); (0,1)];
                           [(0,0); (1,0); (2,0); (2,1)];
                           [(0,0); (1,0); (2,0); (3,0)]];
       replicas_E := [-1; 0; 0];
       temps := [0.5%float; 1%float; 1.5%float];
       rs_best_E := -1;
       rs_best_coords := [(0,0); (1,0); (1,1); (0,1)];
       rs_energies := [0; -1];
       rs_best_energies := [0; -1];
       rs_even := true |} in
  @exchange_sweep counter_gen series_numeric 3 ladder3_state 0%nat
  = Ok (st', 1%nat)
  ∧ zip (replicas_coords st') (replicas_E st')
      ≡ₚ zip (replicas_coords ladder3_state) (replicas_E ladder3_state)
  ∧ same_record ladder3_state st'
  ∧ rs_even st' = negb (rs_even ladder3_state).
Proof.
  intros st'.
  assert (@exchange_sweep counter_gen series_numeric 3 ladder3_state 0%nat
          = Ok (st', 1%nat)) as Hrun by (vm_compute; reflexivity).
  split; [exact Hrun|].
  exact (@exchange_sweep_permutes_replicas counter_gen series_numeric
           3 ladder3_state st' 0%nat 1%nat Hrun).
Defined.

Section period.
Context `{Generator} `{Numeric}.

Lemma for_rand_ext {X St} (body body' : St → X → Rand St) xs st g :
  (∀ s x g, body s x g = body' s x g) →
  for_rand body xs st g = for_rand body' xs st g.
Proof.
  intros Hb. revert st g. induction xs as [|x xs IH]; intros st g; [done|].
  cbn [for_rand]. unfold rand_bind. rewrite Hb.
  destruct (body' st x g) as [[s g1]|]; [apply IH|done].
Qed.

Lemma remc_step_opp hp_seq n_replicas exchange_every move_mode rho st step g :
  remc_step hp_seq n_replicas (- exchange_every) move_mode rho st step g
  = remc_step hp_seq n_replicas exchange_every move_mode rho st step g.
Proof.
  unfold remc_step.
  replace (- exchange_every =? 0) with (exchange_every =? 0)
    by (destruct (Z.eqb_spec exchange_every 0), (Z.eqb_spec (- exchange_every) 0);
        lia || done).
  destruct (Z.eqb_spec exchange_every 0) as [->|Hne]; [done|].
  replace (step mod - exchange_every =? 0) with (step mod exchange_every =? 0);
    [done|].
  destruct (Z.eqb_spec (step mod exchange_every) 0) as [Hz|Hz];
    destruct (Z.eqb_spec (step mod - exchange_every) 0) as [Hz'|Hz'];
    try done; exfalso.
  - apply Hz'. apply Z.mod_opp_r_z; done.
  - apply Hz. rewrite <- (Z.opp_involutive exchange_every).
    apply Z.mod_opp_r_z; [lia|done].
Qed.

Lemma remc_step_period_zero hp_seq n_replicas move_mode rho st step
    (n nrep : nat) g :
  (2 ≤ n)%nat → (n ≤ String.length hp_seq)%nat →
  known_mode move_mode = true →
  n_replicas = Z.of_nat nrep → (1 ≤ nrep)%nat →
  remc_wf n nrep st →
  remc_step hp_seq n_replicas 0 move_mode rho st step g
  = Raise ZeroDivisionError.
Proof.
  intros Hn Hhp Hmode -> Hrep Hwf. unfold remc_step.
  unfold rand_bind at 1.
  edestruct (draws_for (remc_wf n nrep)
               (replica_move hp_seq move_mode rho)
               (py_range 0 (Z.of_nat nrep)) st) as (st1 & g1 & -> & Hwf1).
  - intros s r Hr%elem_of_py_range Hs.
    by apply (replica_move_draws _ _ _ _ _ n nrep).
  - done.
  - unfold rand_bind, lift.
    destruct (remc_trace_wf n nrep st1 Hrep Hwf1) as (st2 & -> & _). done.
Qed.

(** X16. The exchange period is used as a modulus and nothing else.  With
    [exchange_every = 0], a known mode, at least two residues, one step
    to run and a seed that [default_rng] accepts, [run_remc] raises
    [ZeroDivisionError], after the first round of replica moves; a
    negative period gives the run of its absolute value. *)
Theorem exchange_every_zero_or_negative
    (hp_seq : string) (steps n_replicas : Z) (tmin tmax : float)
    (exchange_every : Z) (move_mode : string) (rho : float) (seed : option Z) :
  known_mode move_mode = true → (2 ≤ String.length hp_seq)%nat →
  1 <= steps →
  (seed_accepted seed = true →
   run_remc hp_seq steps n_replicas tmin tmax 0 move_mode rho seed
   = Raise ZeroDivisionError)
  ∧ run_remc hp_seq steps n_replicas tmin tmax (- exchange_every)
      move_mode rho seed
    = run_remc hp_seq steps n_replicas tmin tmax exchange_every
        move_mode rho seed.
Proof.
  intros Hmode Hn Hs. split.
  - intros Hseed. unfold run_remc, default_rng. rewrite Hseed. simpl.
    rewrite energy_hp_line. simpl.
    unfold py_range at 1.
    destruct (Z.to_nat (Z.min steps 10000 + 1 - 1)) as [|k] eqn:Hk; [lia|].
    simpl. unfold rand_bind at 1.
    rewrite (remc_step_period_zero _ _ _ _ _ _ (String.length hp_seq)
               (Z.to_nat (Z.max 2 n_replicas))); try done; try lia.
    unfold remc_wf. simpl.
    rewrite !length_replicate, np_linspace_length.
    repeat split; try done.
    apply Forall_replicate, length_initial_line.
  - unfold run_remc.
    destruct (default_rng seed) as [rng|]; [|done]. simpl.
    destruct (energy_hp _ hp_seq) as [E|]; [|done]. simpl.
    rewrite (for_rand_ext _ (remc_step hp_seq (Z.max 2 n_replicas)
                               exchange_every move_mode rho)); [done|].
    intros. apply remc_step_opp.
Qed.
End period.

Lemma exchange_every_zero_or_negative_witness :
  @run_remc counter_gen series_numeric "HHPH" 4 3 0.5 2 0 "hybrid" 0.5 (Some 1)
  = Raise ZeroDivisionError
  ∧ @run_remc counter_gen series_numeric "HHPH" 4 3 0.5 2 (- 2) "hybrid" 0.5
      (Some 1)
    = @run_remc counter_gen series_numeric "HHPH" 4 3 0.5 2 2 "hybrid" 0.5
        (Some 1).
Proof.
  destruct (@exchange_every_zero_or_negative counter_gen series_numeric
              "HHPH" 4 3 0.5 2 2 "hybrid" 0.5 (Some 1))
    as [Hzero Hneg]; [reflexivity | simpl; lia | lia |].
  split; [apply Hzero; reflexivity | exact Hneg].
Defined.

(** ** What the drivers hand back *)

Section results.
Context `{Generator} `{Numeric}.

(** X17. The two conformations a driver returns are valid.  Whatever
    [run_mc] or [run_remc] returns, [final_coords] and [best_coords] have
    one cell per letter of [hp_seq] and pass [is_self_avoiding]: they are
    connected, self-avoiding chains.  With a seed that [default_rng]
    accepts, both drivers return for a known mode on at least two
    residues (with a non-zero exchange period). *)
Theorem drivers_return_valid_conformations
    (hp_seq : string) (steps n_replicas : Z) (temperature tmin tmax : float)
    (exchange_every : Z) (move_mode : string) (rho : float) (seed : option Z) :
  let mc := run_mc hp_seq steps temperature move_mode rho seed in
  let remc := run_remc hp_seq steps n_replicas tmin tmax exchange_every
                move_mode rho seed in
  let valid (C : Conf) :=
    length C = String.length hp_seq ∧ is_self_avoiding C = true
    ∧ connectivity C ∧ self_avoidance C in
  (∀ res, mc = Ok res → valid (final_coords res) ∧ valid (best_coords res))
  ∧ (∀ res, remc = Ok res →
       valid (final_coords res) ∧ valid (best_coords res))
  ∧ (seed_accepted seed = true →
     known_mode move_mode = true → (2 ≤ String.length hp_seq)%nat →
     (∃ res, mc = Ok res) ∧ (exchange_every ≠ 0 → ∃ res, remc = Ok res)).
Proof.
  intros mc remc valid.
  assert (∀ res, result_valid hp_seq res →
                 valid (final_coords res) ∧ valid (best_coords res)) as Hv.
  { intros res (Hfl & Hfsa & Hbl & Hbsa). unfold valid.
    pose proof (proj1 (is_self_avoiding_spec _) Hfsa) as [? ?].
    pose proof (proj1 (is_self_avoiding_spec _) Hbsa) as [? ?].
    done. }
  split; [|split].
  - intros res Hres. by apply Hv, (run_mc_valid _ _ _ _ _ _ _ Hres).
  - intros res Hres. by apply Hv, (run_remc_valid _ _ _ _ _ _ _ _ _ _ Hres).
  - intros Hseed Hmode Hn. split; [by apply run_mc_returns|].
    intros Hex. by apply run_remc_returns.
Qed.

(** X18. In both drivers the trace of best energies stays below the trace
    of energies, which stays at or below 0: for every step [k] of a
    returned result, [best_energies[k] <= energies[k] <= 0].  With a
    seed that [default_rng] accepts, both drivers return for a known mode
    on at least two residues (with a non-zero exchange period). *)
Theorem best_trace_below_energy_trace
    (hp_seq : string) (steps n_replicas : Z) (temperature tmin tmax : float)
    (exchange_every : Z) (move_mode : string) (rho : float) (seed : option Z) :
  let mc := run_mc hp_seq steps temperature move_mode rho seed in
  let remc := run_remc hp_seq steps n_replicas tmin tmax exchange_every
                move_mode rho seed in
  let ordered (res : run_result) :=
    ∀ k b e, best_energies res !! k = Some b → energies res !! k = Some e →
             b <= e ∧ e <= 0 in
  (∀ res, mc = Ok res → ordered res)
  ∧ (∀ res, remc = Ok res → ordered res)
  ∧ (seed_accepted seed = true →
     known_mode move_mode = true → (2 ≤ String.length hp_seq)%nat →
     (∃ res, mc = Ok res) ∧ (exchange_every ≠ 0 → ∃ res, remc = Ok res)).
Proof.
  intros mc remc ordered. split; [|split].
  - intros res Hres. by apply (run_mc_valid _ _ _ _ _ _ _ Hres).
  - intros res Hres. by apply (run_remc_valid _ _ _ _ _ _ _ _ _ _ Hres).
  - intros Hseed Hmode Hn. split; [by apply run_mc_returns|].
    intros Hex. by apply run_remc_returns.
Qed.

(** X19. The energy of the conformation handed back as [final_coords].
    [run_mc] returns the current conformation: its energy is the last
    entry of [energies] when a step was run, and is not below
    [best_energy].  [run_remc] returns replica 0 or, when the best record
    is strictly better, the best conformation: either way the energy of
    [final_coords] is [best_energy].  With a seed that [default_rng]
    accepts, both drivers return for a known mode on at least two
    residues (with a non-zero exchange period). *)
Theorem final_coords_energy
    (hp_seq : string) (steps n_replicas : Z) (temperature tmin tmax : float)
    (exchange_every : Z) (move_mode : string) (rho : float) (seed : option Z) :
  let mc := run_mc hp_seq steps temperature move_mode rho seed in
  let remc := run_remc hp_seq steps n_replicas tmin tmax exchange_every
                move_mode rho seed in
  (∀ res, mc = Ok res →
     ∃ E, energy_hp (final_coords res) hp_seq = Ok E
          ∧ best_energy res <= E
          ∧ (1 <= steps → last (energies res) = Some E))
  ∧ (∀ res, remc = Ok res →
       energy_hp (final_coords res) hp_seq = Ok (best_energy res))
  ∧ (seed_accepted seed = true →
     known_mode move_mode = true → (2 ≤ String.length hp_seq)%nat →
     (∃ res, mc = Ok res) ∧ (exchange_every ≠ 0 → ∃ res, remc = Ok res)).
Proof.
  intros mc remc. split; [|split].
  - intros res Hres.
    destruct (run_mc_valid _ _ _ _ _ _ _ Hres)
      as (_ & _ & E & HE & Hle & Hlast).
    destruct (run_mc_post _ _ _ _ _ _ _ Hres) as (_ & _ & Hlen & _).
    exists E. split; [done|]. split; [done|].
    intros Hs. apply Hlast. intros Hnil. rewrite Hnil in Hlen.
    simpl in Hlen. lia.
  - intros res Hres. by apply (run_remc_valid _ _ _ _ _ _ _ _ _ _ Hres).
  - intros Hseed Hmode Hn. split; [by apply run_mc_returns|].
    intros Hex. by apply run_remc_returns.
Qed.
End results.

(** ** viz.py: the window of a plot *)

Lemma foldl_max_spec x l :
  x <= foldl Z.max x l
  ∧ (∀ y, y ∈ l → y <= foldl Z.max x l)
  ∧ (foldl Z.max x l = x ∨ foldl Z.max x l ∈ l).
Proof.
  revert x. induction l as [|y l IH]; intros x; simpl.
  - split; [lia|]. split; [by intros ? ?%elem_of_nil | by left].
  - destruct (IH (Z.max x y)) as (H1 & H2 & H3). split; [lia|]. split.
    + intros z [->|Hz]%elem_of_cons; [lia | by apply H2].
    + destruct H3 as [H3|H3]; [|right; by right].
      destruct (Z.max_spec x y) as [[_ Hm]|[_ Hm]].
      * right. rewrite H3, Hm. left.
      * left. congruence.
Qed.

Lemma py_min_spec l :
  l ≠ [] → ∃ m, py_min l = Ok m ∧ m ∈ l ∧ ∀ y, y ∈ l → m <= y.
Proof.
  destruct l as [|x l]; [done|]. intros _. simpl.
  destruct (foldl_min_spec x l) as (H1 & H2 & H3).
  eexists. split; [done|]. split.
  - destruct H3 as [->|H3]; [left | by right].
  - intros y [->|Hy]%elem_of_cons; [done | by apply H2].
Qed.

Lemma py_max_of_spec l :
  l ≠ [] → ∃ m, py_max_of l = Ok m ∧ m ∈ l ∧ ∀ y, y ∈ l → y <= m.
Proof.
  destruct l as [|x l]; [done|]. intros _. simpl.
  destruct (foldl_max_spec x l) as (H1 & H2 & H3).
  eexists. split; [done|]. split.
  - destruct H3 as [->|H3]; [left | by right].
  - intros y [->|Hy]%elem_of_cons; [done | by apply H2].
Qed.

(** X20. [_compute_bounds] returns the smallest window that leaves [pad]
    cells free around the conformation: every cell is at least [pad]
    inside each border, and on each of the four sides some cell is
    exactly [pad] inside.  On an empty conformation it raises
    [ValueError]. *)
Theorem compute_bounds_window (coords : Conf) (pad : Z) :
  (coords ≠ [] →
   ∃ xmin xmax ymin ymax,
     _compute_bounds coords pad = Ok (xmin, xmax, ymin, ymax)
     ∧ (∀ x y, (x, y) ∈ coords →
          xmin + pad <= x <= xmax - pad ∧ ymin + pad <= y <= ymax - pad)
     ∧ (∃ y, (xmin + pad, y) ∈ coords) ∧ (∃ y, (xmax - pad, y) ∈ coords)
     ∧ (∃ x, (x, ymin + pad) ∈ coords) ∧ (∃ x, (x, ymax - pad) ∈ coords))
  ∧ _compute_bounds [] pad = Raise ValueError.
Proof.
  split; [|done]. intros Hne. unfold _compute_bounds.
  change (map ?f ?l) with (f <$> l).
  assert (fst <$> coords ≠ []) as Hxs by (by destruct coords).
  assert (snd <$> coords ≠ []) as Hys by (by destruct coords).
  destruct (py_min_spec _ Hxs) as (x0 & -> & Hx0 & Hx0le).
  destruct (py_max_of_spec _ Hxs) as (x1 & -> & Hx1 & Hx1le).
  destruct (py_min_spec _ Hys) as (y0 & -> & Hy0 & Hy0le).
  destruct (py_max_of_spec _ Hys) as (y1 & -> & Hy1 & Hy1le).
  simpl. eexists _, _, _, _. split; [done|].
  replace (x0 - pad + pad) with x0 by lia.
  replace (x1 + pad - pad) with x1 by lia.
  replace (y0 - pad + pad) with y0 by lia.
  replace (y1 + pad - pad) with y1 by lia.
  split; [|repeat split].
  - intros x y Hxy.
    assert (x ∈ fst <$> coords) as Hx
      by (apply list_elem_of_fmap; by exists (x, y)).
    assert (y ∈ snd <$> coords) as Hy
      by (apply list_elem_of_fmap; by exists (x, y)).
    specialize (Hx0le x Hx). specialize (Hx1le x Hx).
    specialize (Hy0le y Hy). specialize (Hy1le y Hy). lia.
  - apply list_elem_of_fmap in Hx0 as ([x y] & -> & Hin). by exists y.
  - apply list_elem_of_fmap in Hx1 as ([x y] & -> & Hin). by exists y.
  - apply list_elem_of_fmap in Hy0 as ([x y] & -> & Hin). by exists x.
  - apply list_elem_of_fmap in Hy1 as ([x y] & -> & Hin). by exists x.
Qed.
